(** * Concurrent URL processor: retry controller and scheduler

    A shallow embedding of [processUrlsConcurrentlyInTabs], in its enhanced
    version (src/lib/concurrency.core.ts) and in its basic version
    (src/lib/utils.ts), as an event-driven state machine.

    JavaScript runs the function on one thread: a piece of code runs without
    interruption up to its next [await].  A state of the machine is the
    program between two such pieces: the variables captured by the closures,
    the abort flag of the signal, and every suspended coroutine with its local
    variables and the [await] it sits at.  An event is what the environment
    does next: a task promise settles, a retry timer fires, a callback
    settles, the signal is aborted, a suspended coroutine is resumed.  The
    step function runs the resumed code up to its next [await].  A run is the
    call followed by a list of events; the properties hold for every list,
    hence for every order in which the engine may resume the coroutines and
    for every behaviour of the task function, the callbacks and the signal.

    What the model takes for granted:
    - the task function and the callbacks are opaque: a call is an [await]
      and its outcome (the items, the value thrown, whether a callback
      throws) comes with the event that ends it; they do not abort the signal
      while they are being called, so that the signal changes between two
      pieces of code only;
    - [isRetryable] and a [retryDelayMs] function return a value (they do not
      throw), [maxRetries] and [maxConcurrency] are natural numbers.

    Not modelled: the wall clock ([startTime], [endTime], [durationMs] and
    the timestamps of the log entries), the text of the messages (a log
    message is a constructor with the interpolated values as arguments) and
    the copy of each log entry printed to the console under [logToConsole].

    After the scheduler come the pure code of two of its callers, the
    product scraper and the catalog scraper, whose calls of the scheduler are
    runs of the machine, and [formatRunLogForTerminal], which prints a log
    given with its timestamps and the text of its messages. *)

From Stdlib Require Import ZArith String Ascii List Bool Lia Sorted.
From stdpp Require Import base list strings pretty gmap.

(** ** Data *)

(** A JavaScript [Error], as far as the program looks at it. *)
Record Error := mkError { name : string; message : string }.

(** What a task function can throw: an [Error], or any other value, which
    line 173 wraps as [new Error(String(err))]. *)
Inductive Thrown :=
| ThrowError (e : Error)
| ThrowOther (repr : string).

Definition toError (t : Thrown) : Error :=
  match t with
  | ThrowError e => e
  | ThrowOther s => mkError "Error" s
  end.

(** The outcome of one call of the task function. *)
Inductive TaskOutcome (T : Type) :=
| Resolved (items : list T)
| Rejected (err : Thrown).
Arguments Resolved {T} items.
Arguments Rejected {T} err.

Inductive Level := INFO | WARN | ERROR | DEBUG | SUCCESS.

Inductive Mode := portions | threads.

(** The messages of the calls of [log], one constructor per template. *)
Inductive LogMessage :=
| MsgStartingTask
| MsgOperationAborted
| MsgTaskCompleted
| MsgRetryableError (errName errMessage : string)
| MsgRetryingIn (delay : Z)
| MsgRetryCancelled
| MsgNonRetryable (errMessage : string)
| MsgFinalAttemptFailed (retries : nat) (errName errMessage : string)
| MsgStarting (m : Mode)
| MsgProcessing (total initial concurrency retries : nat)
| MsgBlocking (resources : list string)
| MsgAbortedBeforeStarting
| MsgWorkerStarting (workerId : nat)
| MsgWorkerAborting (workerId : nat)
| MsgWorkerProcessing (workerId : nat) (u : string) (queueSize : nat)
| MsgWorkerFinished (workerId : nat)
| MsgLaunching (workers : nat)
| MsgAllWorkersFinished
| MsgAbortedBeforeChunk (index : nat)
| MsgProcessingChunk (index size : nat)
| MsgFinishedChunk (index : nat)
| MsgProcessingAborted
| MsgFinished (success : Z) (failed : nat).

Record LogEntry := mkLogEntry {
  level : Level;
  logMessage : LogMessage;
  logUrl : option string;
  attempt : option nat
}.

Record RunStats := mkRunStats {
  totalUrlsProvided : nat;
  totalUrlsAttempted : nat;
  totalSuccess : Z;
  totalFailed : nat;
  totalRetriesMade : nat
}.

Record ProcessUrlsResult (T : Type) := mkResult {
  successfulResults : list T;
  failedTasks : list (string * Error);
  logHistory : list LogEntry;
  stats : RunStats
}.
Arguments mkResult {T}.
Arguments successfulResults {T}.
Arguments failedTasks {T}.
Arguments logHistory {T}.
Arguments stats {T}.

(** The result of the basic version has the two lists only. *)
Record BasicResult (T : Type) := mkBasicResult {
  basicSuccessfulResults : list T;
  basicFailedTasks : list (string * Error)
}.
Arguments mkBasicResult {T}.
Arguments basicSuccessfulResults {T}.
Arguments basicFailedTasks {T}.

(** [retryDelayMs: number | ((attempt: number) => number)]. *)
Inductive RetryDelay :=
| DelayConst (ms : Z)
| DelayFun (f : nat → Z).

(** The options, after destructuring.  A callback is a boolean here (whether
    it was given); what a call of it does is an event.  The signal is not an
    option of the model: its state at the call is an argument of the run and
    its abort is an event. *)
Record ProcessUrlsOptions := mkOptions {
  mode : Mode;
  maxRetries : nat;
  retryDelayMs : RetryDelay;
  blockResources : list string;
  onProgress : bool;
  onError : bool;
  isRetryable : Error → bool;
  logToConsole : bool
}.

(** The defaults of lines 116 to 124. *)
Definition defaultIsRetryable (e : Error) : bool := String.eqb (name e) "TimeoutError".

Definition defaultOptions : ProcessUrlsOptions :=
  {| mode := threads; maxRetries := 0; retryDelayMs := DelayConst 500;
     blockResources := []; onProgress := false; onError := false;
     isRetryable := defaultIsRetryable; logToConsole := true |}.

(** The calls of the two callbacks, with their arguments. *)
Inductive CallbackCall :=
| OnErrorCall (err : Error) (u : string) (attempts : nat)
| OnProgressCall (completed total : nat) (statsNow : RunStats)
| BasicOnErrorCall (err : Error) (u : string)
| BasicOnProgressCall (completed total : nat).

(** The two [console.error] lines of the callback guards. *)
Inductive ConsoleLine := ErrorInOnErrorHandler | ErrorInOnProgressHandler.

(** The variables the closures share (lines 127 to 131), with the console
    and the trace of the callback calls. *)
Module Closure.
Record t (T : Type) := mk {
  logHistory : list LogEntry;
  successfulResults : list T;
  failedTasks : list (string * Error);
  completedCount : nat;
  totalRetriesMade : nat;
  console : list ConsoleLine;
  calls : list CallbackCall
}.
Arguments mk {T}.
Arguments logHistory {T}.
Arguments successfulResults {T}.
Arguments failedTasks {T}.
Arguments completedCount {T}.
Arguments totalRetriesMade {T}.
Arguments console {T}.
Arguments calls {T}.

Definition empty {T} : t T := mk [] [] [] 0 0 [] [].
End Closure.

(** The [await] a suspended [executeTaskWithRetries] sits at.
    [AwaitDelay delay]: the timer of line 188 runs for [delay] milliseconds.
    [DelayRejected]: the abort handler has rejected the delay promise and the
    [catch] of line 190 has not run yet.  [Settled]: the function has
    returned. *)
Inductive Pc :=
| AwaitTask
| AwaitDelay (delay : Z)
| DelayRejected
| AwaitOnError
| AwaitOnProgress
| Settled.

(** One call of [executeTaskWithRetries]: its local variables and where it
    is.  [invocations] and [retriesCounted] are instrumentation: the calls of
    the task function made for this item, and the increments of
    [totalRetriesMade] made for it. *)
Record Exec (T : Type) := mkExec {
  url : string;
  attempts : nat;
  taskResult : option (list T);
  lastError : option Error;
  successCount : nat;
  failureCount : nat;
  pc : Pc;
  invocations : nat;
  retriesCounted : nat
}.
Arguments mkExec {T}.
Arguments url {T}.
Arguments attempts {T}.
Arguments taskResult {T}.
Arguments lastError {T}.
Arguments successCount {T}.
Arguments failureCount {T}.
Arguments pc {T}.
Arguments invocations {T}.
Arguments retriesCounted {T}.

(** A worker of the threads mode: suspended at [await
    executeTaskWithRetries(url)], or returned. *)
Inductive Worker (T : Type) :=
| Running (e : Exec T)
| Finished.
Arguments Running {T} e.
Arguments Finished {T}.

(** Where the main function is: at the [Promise.all] of the workers, at the
    [Promise.all] of the chunk that starts at [i], or returned (from the end
    of the function, or from the abort check of line 244). *)
Inductive Main (T : Type) :=
| MThreads (urlQueue : list string) (workers : list (Worker T))
| MPortions (i : nat) (chunk : list (Exec T))
| MReturned
| MAbortedBeforeStart.
Arguments MThreads {T}.
Arguments MPortions {T}.
Arguments MReturned {T}.
Arguments MAbortedBeforeStart {T}.

(** [retired]: the calls of [executeTaskWithRetries] whose promise has been
    consumed, oldest first (instrumentation). *)
Record State (T : Type) := mkState {
  vars : Closure.t T;
  aborted : bool;
  main : Main T;
  retired : list (Exec T)
}.
Arguments mkState {T}.
Arguments vars {T}.
Arguments aborted {T}.
Arguments main {T}.
Arguments retired {T}.

(** What can happen to coroutine [k] at its [await]. *)
Inductive ExecEvent (T : Type) :=
| TaskSettles (o : TaskOutcome T)
| TimerFires
| RejectedDelayResumes
| OnErrorSettles (threw : bool)
| OnProgressSettles (threw : bool).
Arguments TaskSettles {T}.
Arguments TimerFires {T}.
Arguments RejectedDelayResumes {T}.
Arguments OnErrorSettles {T}.
Arguments OnProgressSettles {T}.

(** [k] is the index of the worker (threads) or the position in the chunk
    (portions). *)
Inductive Event (T : Type) :=
| Abort
| At (k : nat) (ev : ExecEvent T)
| WorkerResumes (k : nat)
| MainResumes.
Arguments Abort {T}.
Arguments At {T}.
Arguments WorkerResumes {T}.
Arguments MainResumes {T}.

(** [[...new Set(urls)]]: the first occurrence of each value, in order. *)
Fixpoint uniqueFrom (seen : list string) (urls : list string) : list string :=
  match urls with
  | [] => []
  | u :: rest =>
      if existsb (String.eqb u) seen then uniqueFrom seen rest
      else u :: uniqueFrom (u :: seen) rest
  end.

Definition uniqueUrls (urls : list string) : list string := uniqueFrom [] urls.

(** The arguments of one call, after lines 236 to 239. *)
Record Run := mkRun {
  options : ProcessUrlsOptions;
  maxConcurrency : nat;
  urlsToProcess : list string;
  initialUrlCount : nat
}.

Definition totalUrlsToProcess (r : Run) : nat := length (urlsToProcess r).

Definition prepare (urls : list string) (maxConcurrency : nat) (o : ProcessUrlsOptions) : Run :=
  {| options := o; maxConcurrency := maxConcurrency;
     urlsToProcess := match mode o with threads => uniqueUrls urls | portions => urls end;
     initialUrlCount := length urls |}.

(** [lastError?.message !== 'Operation aborted'] of lines 212 and 226. *)
Definition isAbortMessage (e : Error) : bool := String.eqb (message e) "Operation aborted".

Definition notAborted (lastError : option Error) : bool :=
  match lastError with Some e => negb (isAbortMessage e) | None => true end.

(** Line 180. *)
Definition delayFor (d : RetryDelay) (attempts : nat) : Z :=
  match d with
  | DelayFun f => f attempts
  | DelayConst ms => (ms * Z.of_nat attempts)%Z
  end.

(** ** Updates of the shared variables and of the local variables *)

Section Updates.
Context {T : Type}.
Implicit Types (s : Closure.t T) (e : Exec T).

Definition pushLog (entry : LogEntry) s : Closure.t T :=
  Closure.mk (Closure.logHistory s ++ [entry]) (Closure.successfulResults s)
    (Closure.failedTasks s) (Closure.completedCount s) (Closure.totalRetriesMade s)
    (Closure.console s) (Closure.calls s).

(** [log(level, message, url, attempt)] of line 134. *)
Definition log (lv : Level) (m : LogMessage) (u : option string) (a : option nat) s :=
  pushLog (mkLogEntry lv m u a) s.

Definition pushResults (items : list T) s : Closure.t T :=
  Closure.mk (Closure.logHistory s) (Closure.successfulResults s ++ items)
    (Closure.failedTasks s) (Closure.completedCount s) (Closure.totalRetriesMade s)
    (Closure.console s) (Closure.calls s).

Definition pushFailed (u : string) (err : Error) s : Closure.t T :=
  Closure.mk (Closure.logHistory s) (Closure.successfulResults s)
    (Closure.failedTasks s ++ [(u, err)]) (Closure.completedCount s)
    (Closure.totalRetriesMade s) (Closure.console s) (Closure.calls s).

Definition incCompleted s : Closure.t T :=
  Closure.mk (Closure.logHistory s) (Closure.successfulResults s)
    (Closure.failedTasks s) (S (Closure.completedCount s)) (Closure.totalRetriesMade s)
    (Closure.console s) (Closure.calls s).

Definition incRetries s : Closure.t T :=
  Closure.mk (Closure.logHistory s) (Closure.successfulResults s)
    (Closure.failedTasks s) (Closure.completedCount s) (S (Closure.totalRetriesMade s))
    (Closure.console s) (Closure.calls s).

Definition consoleError (line : ConsoleLine) s : Closure.t T :=
  Closure.mk (Closure.logHistory s) (Closure.successfulResults s)
    (Closure.failedTasks s) (Closure.completedCount s) (Closure.totalRetriesMade s)
    (Closure.console s ++ [line]) (Closure.calls s).

Definition recordCall (c : CallbackCall) s : Closure.t T :=
  Closure.mk (Closure.logHistory s) (Closure.successfulResults s)
    (Closure.failedTasks s) (Closure.completedCount s) (Closure.totalRetriesMade s)
    (Closure.console s) (Closure.calls s ++ [c]).

Definition setPc (p : Pc) e : Exec T :=
  mkExec (url e) (attempts e) (taskResult e) (lastError e) (successCount e)
    (failureCount e) p (invocations e) (retriesCounted e).

Definition setLastError (err : option Error) e : Exec T :=
  mkExec (url e) (attempts e) (taskResult e) err (successCount e)
    (failureCount e) (pc e) (invocations e) (retriesCounted e).

Definition setTaskResult (items : option (list T)) e : Exec T :=
  mkExec (url e) (attempts e) items (lastError e) (successCount e)
    (failureCount e) (pc e) (invocations e) (retriesCounted e).

Definition incAttempts e : Exec T :=
  mkExec (url e) (S (attempts e)) (taskResult e) (lastError e) (successCount e)
    (failureCount e) (pc e) (invocations e) (retriesCounted e).

Definition setCounts (succ fail : nat) e : Exec T :=
  mkExec (url e) (attempts e) (taskResult e) (lastError e) succ fail (pc e)
    (invocations e) (retriesCounted e).

Definition invokeTask e : Exec T :=
  mkExec (url e) (attempts e) (taskResult e) (lastError e) (successCount e)
    (failureCount e) AwaitTask (S (invocations e)) (retriesCounted e).

Definition countRetry e : Exec T :=
  mkExec (url e) (attempts e) (taskResult e) (lastError e) (successCount e)
    (failureCount e) (pc e) (invocations e) (S (retriesCounted e)).

(** The locals of lines 153 to 155. *)
Definition newExec (u : string) : Exec T := mkExec u 0 None None 0 0 Settled 0 0.
End Updates.

(** ** The suspended coroutines of a state *)

Section Coroutines.
Context {T : Type}.
Implicit Types (e : Exec T).

Definition isSettled e : bool := match pc e with Settled => true | _ => false end.

Definition isFinished (w : Worker T) : bool :=
  match w with Finished => true | Running _ => false end.

(** The abort handler of line 186 rejects the delay promise of every
    coroutine that sleeps. *)
Definition rejectDelay e : Exec T :=
  match pc e with AwaitDelay _ => setPc DelayRejected e | _ => e end.

Definition rejectDelayW (w : Worker T) : Worker T :=
  match w with Running e => Running (rejectDelay e) | Finished => Finished end.

Definition abortMain (m : Main T) : Main T :=
  match m with
  | MThreads q ws => MThreads q (rejectDelayW <$> ws)
  | MPortions i es => MPortions i (rejectDelay <$> es)
  | m => m
  end.

(** The task functions in flight. *)
Definition awaitsTask e : bool := match pc e with AwaitTask => true | _ => false end.

Fixpoint runningExecs (ws : list (Worker T)) : list (Exec T) :=
  match ws with
  | [] => []
  | Running e :: ws => e :: runningExecs ws
  | Finished :: ws => runningExecs ws
  end.

(** The calls of [executeTaskWithRetries] whose promise is awaited. *)
Definition activeExecs (m : Main T) : list (Exec T) :=
  match m with
  | MThreads _ ws => runningExecs ws
  | MPortions _ es => es
  | _ => []
  end.

Definition inFlight (st : State T) : nat :=
  length (filter (λ e, awaitsTask e = true) (activeExecs (main st))).

(** Every call of [executeTaskWithRetries] made so far. *)
Definition allExecs (st : State T) : list (Exec T) :=
  retired st ++ activeExecs (main st).
End Coroutines.

(** ** The enhanced version (src/lib/concurrency.core.ts) *)

Section Enhanced.
Context {T : Type}.
Variable r : Run.
Implicit Types (s : Closure.t T) (e : Exec T) (ab : bool).

Let o := options r.

(** Lines 226 to 233: call [onProgress] and wait for it, or return. *)
Definition reportProgress s e : Closure.t T * Exec T :=
  if onProgress o && notAborted (lastError e) then
    let statsNow :=
      mkRunStats (initialUrlCount r) (totalUrlsToProcess r)
        (Z.of_nat (successCount e)) (failureCount e) (Closure.totalRetriesMade s) in
    (recordCall (OnProgressCall (Closure.completedCount s) (totalUrlsToProcess r) statsNow) s,
     setPc AwaitOnProgress e)
  else (s, setPc Settled e).

(** Lines 207 to 224, after the retry loop: count the item, record its
    outcome, call [onError] and wait for it, or go on to the progress
    report. *)
Definition recordCompletion s e : Closure.t T * Exec T :=
  let s := incCompleted s in
  let e := setCounts (length (Closure.successfulResults s)) (length (Closure.failedTasks s)) e in
  match lastError e with
  | Some err =>
      if negb (isAbortMessage err) then
        let s := pushFailed (url e) err s in
        let e := setCounts (successCount e) (S (failureCount e)) e in
        if onError o then
          (recordCall (OnErrorCall err (url e) (attempts e)) s, setPc AwaitOnError e)
        else reportProgress s e
      else reportProgress s e
  | None =>
      match taskResult e with
      | Some items =>
          let e := setCounts (S (successCount e)) (failureCount e) e in
          let s := match items with [] => s | _ => pushResults items s end in
          reportProgress s e
      | None => reportProgress s e
      end
  end.

(** Lines 160 to 168: the head of the retry loop, up to the call of the
    task function. *)
Definition attemptLoop ab s e : Closure.t T * Exec T :=
  if attempts e <=? maxRetries o then
    if ab then
      recordCompletion
        (log WARN MsgOperationAborted (Some (url e)) (Some (attempts e + 1)) s)
        (setLastError (Some (mkError "Error" "Operation aborted")) e)
    else (s, invokeTask e)
  else recordCompletion s e.

(** Lines 169 to 204: the task promise settles. *)
Definition taskSettled ab s e (out : TaskOutcome T) : Closure.t T * Exec T :=
  match out with
  | Resolved items =>
      recordCompletion
        (log SUCCESS MsgTaskCompleted (Some (url e)) (Some (attempts e + 1)) s)
        (setLastError None (setTaskResult (Some items) e))
  | Rejected thrown =>
      let err := toError thrown in
      let currentAttempt := attempts e + 1 in
      let e := incAttempts (setLastError (Some err) e) in
      if isRetryable o err && (attempts e <=? maxRetries o) then
        let s := incRetries s in
        let e := countRetry e in
        let s := log WARN (MsgRetryableError (name err) (message err))
                   (Some (url e)) (Some currentAttempt) s in
        let delay := delayFor (retryDelayMs o) (attempts e) in
        if (0 <? delay)%Z then
          (log INFO (MsgRetryingIn delay) (Some (url e)) (Some currentAttempt) s,
           setPc (AwaitDelay delay) e)
        else attemptLoop ab s e
      else
        let m := if negb (isRetryable o err) then MsgNonRetryable (message err)
                 else MsgFinalAttemptFailed (maxRetries o) (name err) (message err) in
        recordCompletion (log ERROR m (Some (url e)) (Some currentAttempt) s) e
  end.

(** Lines 190 to 194: the [catch] of the delay rejected by the abort
    handler.  [currentAttempt] is [attempts] here: line 175 has incremented
    it. *)
Definition delayRejected s e : Closure.t T * Exec T :=
  recordCompletion
    (log WARN MsgRetryCancelled (Some (url e)) (Some (attempts e)) s)
    (setLastError (Some (mkError "Error" "Operation aborted during retry delay")) e).

(** Line 216, after [await onError(...)]. *)
Definition onErrorSettled (threw : bool) s e : Closure.t T * Exec T :=
  reportProgress (if threw then consoleError ErrorInOnErrorHandler s else s) e.

(** Line 232, after [await onProgress(...)]. *)
Definition onProgressSettled (threw : bool) s e : Closure.t T * Exec T :=
  (if threw then consoleError ErrorInOnProgressHandler s else s, setPc Settled e).

(** Lines 152 to 168: the call of [executeTaskWithRetries(url)], up to its
    first [await]. *)
Definition executeTaskWithRetries ab s (u : string) : Closure.t T * Exec T :=
  attemptLoop ab (log DEBUG MsgStartingTask (Some u) (Some 1) s) (newExec u).

(** One coroutine resumes at its [await]; [None] when the event is not the
    one it waits for. *)
Definition execStep ab s e (ev : ExecEvent T) : option (Closure.t T * Exec T) :=
  match pc e, ev with
  | AwaitTask, TaskSettles out => Some (taskSettled ab s e out)
  | AwaitDelay _, TimerFires => Some (attemptLoop ab s e)
  | DelayRejected, RejectedDelayResumes => Some (delayRejected s e)
  | AwaitOnError, OnErrorSettles threw => Some (onErrorSettled threw s e)
  | AwaitOnProgress, OnProgressSettles threw => Some (onProgressSettled threw s e)
  | _, _ => None
  end.

(** Lines 251 to 258: the loop of a worker, from its head to the [await]
    of line 256 or to the return.  [url] is falsy when it is the empty
    string (line 254); the [shift] has removed it from the queue by
    then. *)
Definition workerLoop ab s (urlQueue : list string) (workerId : nat)
  : Closure.t T * list string * Worker T :=
  let finished s q := (log DEBUG (MsgWorkerFinished workerId) None None s, q, Finished) in
  match urlQueue with
  | [] => finished s urlQueue
  | u :: rest =>
      if ab then finished (log DEBUG (MsgWorkerAborting workerId) None None s) urlQueue
      else if String.eqb u "" then finished s rest
      else
        let s := log DEBUG (MsgWorkerProcessing workerId u (length rest)) None None s in
        let '(s, e) := executeTaskWithRetries ab s u in
        (s, rest, Running e)
  end.

(** Line 249 and 250: [startWorker(workerId)] up to its first [await]. *)
Definition startWorker ab s (urlQueue : list string) (workerId : nat) :=
  workerLoop ab (log DEBUG (MsgWorkerStarting workerId) None None s) urlQueue workerId.

(** Line 262: the workers are started one after the other; each runs up
    to its first [await] before the next starts. *)
Fixpoint launchWorkers ab (n workerId : nat) s (urlQueue : list string)
  : Closure.t T * list string * list (Worker T) :=
  match n with
  | 0 => (s, urlQueue, [])
  | S n' =>
      let '(s, q, w) := startWorker ab s urlQueue workerId in
      let '(s, q, ws) := launchWorkers ab n' (S workerId) s q in
      (s, q, w :: ws)
  end.

(** Line 270: [chunk.map(url => executeTaskWithRetries(url))]. *)
Fixpoint startChunk ab s (chunk : list string) : Closure.t T * list (Exec T) :=
  match chunk with
  | [] => (s, [])
  | u :: rest =>
      let '(s, e) := executeTaskWithRetries ab s u in
      let '(s, es) := startChunk ab s rest in
      (s, e :: es)
  end.

(** Lines 277 to 286. *)
Definition finalStats s : RunStats :=
  {| totalUrlsProvided := initialUrlCount r;
     totalUrlsAttempted := totalUrlsToProcess r;
     totalSuccess := Z.of_nat (Closure.completedCount s) - Z.of_nat (length (Closure.failedTasks s));
     totalFailed := length (Closure.failedTasks s);
     totalRetriesMade := Closure.totalRetriesMade s |}.

(** Lines 277 to 291: the end of the function. *)
Definition finish ab s (done : list (Exec T)) : State T :=
  let st := finalStats s in
  let s := if ab then log WARN MsgProcessingAborted None None s
           else log INFO (MsgFinished (totalSuccess st) (totalFailed st)) None None s in
  mkState s ab MReturned done.

(** Lines 266 to 271: the head of the loop over the chunks, up to the
    [await Promise.all(promises)] or to the end of the function. *)
Definition portionsLoop ab s (i : nat) (done : list (Exec T)) : State T :=
  if i <? totalUrlsToProcess r then
    if ab then finish ab (log WARN (MsgAbortedBeforeChunk i) None None s) done
    else
      let chunk := take (maxConcurrency r) (drop i (urlsToProcess r)) in
      let s := log INFO (MsgProcessingChunk i (length chunk)) None None s in
      let '(s, es) := startChunk ab s chunk in
      mkState s ab (MPortions i es) done
  else finish ab s done.

(** Lines 241 to 275: the function from its call to its first [await] (or
    to its return, when the signal is aborted already). *)
Definition processUrlsConcurrentlyInTabs (signalAborted : bool) : State T :=
  let s := log INFO (MsgStarting (mode o)) None None Closure.empty in
  let s := log INFO (MsgProcessing (totalUrlsToProcess r) (initialUrlCount r)
                       (maxConcurrency r) (maxRetries o)) None None s in
  let s := match blockResources o with
           | [] => s
           | _ => log INFO (MsgBlocking (blockResources o)) None None s
           end in
  if signalAborted then
    mkState (log WARN MsgAbortedBeforeStarting None None s) true MAbortedBeforeStart []
  else
    match mode o with
    | threads =>
        let actualWorkersToLaunch := Nat.min (maxConcurrency r) (totalUrlsToProcess r) in
        let s := log INFO (MsgLaunching actualWorkersToLaunch) None None s in
        let '(s, q, ws) := launchWorkers false actualWorkersToLaunch 1 s (urlsToProcess r) in
        mkState s false (MThreads q ws) []
    | portions => portionsLoop false s 0 []
    end.

(** One event.  An event that cannot happen in the state (no such
    coroutine, or a coroutine that waits for something else) leaves the
    state as it is, and nothing happens once the function has returned.
    Aborting an aborted signal does nothing. *)
Definition step (st : State T) (ev : Event T) : State T :=
  match ev, main st with
  | Abort, (MThreads _ _ | MPortions _ _) =>
      if aborted st then st
      else mkState (vars st) true (abortMain (main st)) (retired st)
  | At k x, MThreads q ws =>
      match ws !! k with
      | Some (Running e) =>
          match execStep (aborted st) (vars st) e x with
          | Some (s, e') => mkState s (aborted st) (MThreads q (<[k := Running e']> ws)) (retired st)
          | None => st
          end
      | _ => st
      end
  | At k x, MPortions i es =>
      match es !! k with
      | Some e =>
          match execStep (aborted st) (vars st) e x with
          | Some (s, e') => mkState s (aborted st) (MPortions i (<[k := e']> es)) (retired st)
          | None => st
          end
      | None => st
      end
  | WorkerResumes k, MThreads q ws =>
      match ws !! k with
      | Some (Running e) =>
          if isSettled e then
            let '(s, q', w) := workerLoop (aborted st) (vars st) q (S k) in
            mkState s (aborted st) (MThreads q' (<[k := w]> ws)) (retired st ++ [e])
          else st
      | _ => st
      end
  | MainResumes, MThreads q ws =>
      if forallb isFinished ws then
        finish (aborted st) (log INFO MsgAllWorkersFinished None None (vars st)) (retired st)
      else st
  | MainResumes, MPortions i es =>
      if forallb isSettled es then
        portionsLoop (aborted st) (log INFO (MsgFinishedChunk i) None None (vars st))
          (i + maxConcurrency r) (retired st ++ es)
      else st
  | _, _ => st
  end.

(** A run: the call, then the events in order. *)
Definition run (signalAborted : bool) (events : list (Event T)) : State T :=
  fold_left step events (processUrlsConcurrentlyInTabs signalAborted).

(** What the caller gets once the function has returned (lines 244 and
    291). *)
Definition result (st : State T) : option (ProcessUrlsResult T) :=
  match main st with
  | MReturned =>
      Some (mkResult (Closure.successfulResults (vars st)) (Closure.failedTasks (vars st))
              (Closure.logHistory (vars st)) (finalStats (vars st)))
  | MAbortedBeforeStart =>
      Some (mkResult [] [("N/A"%string, mkError "Error" "Operation aborted before starting")]
              (Closure.logHistory (vars st))
              (mkRunStats (initialUrlCount r) 0 0 0 0))
  | _ => None
  end.

End Enhanced.


(** ** The basic version (src/lib/utils.ts)

    It has no log history and no retry counter: [Closure.logHistory] and
    [Closure.totalRetriesMade] stay as they are, and so do [successCount],
    [failureCount] and [retriesCounted].  Of its console lines, the two of
    the callback guards are modelled. *)

Module Basic.
Section Basic.
Context {T : Type}.
Variable r : Run.
Implicit Types (s : Closure.t T) (e : Exec T) (ab : bool).

Let o := options r.

(** Lines 149 to 153. *)
Definition reportProgress s e : Closure.t T * Exec T :=
  if onProgress o && notAborted (lastError e) then
    (recordCall (BasicOnProgressCall (Closure.completedCount s) (totalUrlsToProcess r)) s,
     setPc AwaitOnProgress e)
  else (s, setPc Settled e).

(** Lines 136 to 148. *)
Definition recordCompletion s e : Closure.t T * Exec T :=
  let s := incCompleted s in
  match lastError e with
  | Some err =>
      if negb (isAbortMessage err) then
        let s := pushFailed (url e) err s in
        if onError o then
          (recordCall (BasicOnErrorCall err (url e)) s, setPc AwaitOnError e)
        else reportProgress s e
      else reportProgress s e
  | None =>
      match taskResult e with
      | Some ((_ :: _) as items) => reportProgress (pushResults items s) e
      | _ => reportProgress s e
      end
  end.

(** Lines 84 to 95. *)
Definition attemptLoop ab s e : Closure.t T * Exec T :=
  if attempts e <=? maxRetries o then
    if ab then
      recordCompletion s (setLastError (Some (mkError "Error" "Operation aborted")) e)
    else (s, invokeTask e)
  else recordCompletion s e.

(** Lines 95 to 133.  The branch of the final failure (line 131) has no
    [break]: the loop ends at its condition. *)
Definition taskSettled ab s e (out : TaskOutcome T) : Closure.t T * Exec T :=
  match out with
  | Resolved items =>
      recordCompletion s (setLastError None (setTaskResult (Some items) e))
  | Rejected thrown =>
      let e := incAttempts (setLastError (Some (toError thrown)) e) in
      if attempts e <=? maxRetries o then
        let delay := delayFor (retryDelayMs o) (attempts e) in
        if (0 <? delay)%Z then (s, setPc (AwaitDelay delay) e)
        else attemptLoop ab s e
      else attemptLoop ab s e
  end.

(** Lines 124 to 128. *)
Definition delayRejected s e : Closure.t T * Exec T :=
  recordCompletion s
    (setLastError (Some (mkError "Error" "Operation aborted during retry delay")) e).

(** Line 143. *)
Definition onErrorSettled (threw : bool) s e : Closure.t T * Exec T :=
  reportProgress (if threw then consoleError ErrorInOnErrorHandler s else s) e.

(** Line 152. *)
Definition onProgressSettled (threw : bool) s e : Closure.t T * Exec T :=
  (if threw then consoleError ErrorInOnProgressHandler s else s, setPc Settled e).

(** Lines 77 to 95. *)
Definition executeTaskWithRetries ab s (u : string) : Closure.t T * Exec T :=
  attemptLoop ab s (newExec u).

Definition execStep ab s e (ev : ExecEvent T) : option (Closure.t T * Exec T) :=
  match pc e, ev with
  | AwaitTask, TaskSettles out => Some (taskSettled ab s e out)
  | AwaitDelay _, TimerFires => Some (attemptLoop ab s e)
  | DelayRejected, RejectedDelayResumes => Some (delayRejected s e)
  | AwaitOnError, OnErrorSettles threw => Some (onErrorSettled threw s e)
  | AwaitOnProgress, OnProgressSettles threw => Some (onProgressSettled threw s e)
  | _, _ => None
  end.

(** Lines 181 to 190. *)
Definition workerLoop ab s (urlQueue : list string) : Closure.t T * list string * Worker T :=
  match urlQueue with
  | [] => (s, urlQueue, Finished)
  | u :: rest =>
      if ab then (s, urlQueue, Finished)
      else if String.eqb u "" then (s, rest, Finished)
      else
        let '(s, e) := executeTaskWithRetries ab s u in
        (s, rest, Running e)
  end.

(** Lines 193 to 196. *)
Fixpoint launchWorkers ab (n : nat) s (urlQueue : list string)
  : Closure.t T * list string * list (Worker T) :=
  match n with
  | 0 => (s, urlQueue, [])
  | S n' =>
      let '(s, q, w) := workerLoop ab s urlQueue in
      let '(s, q, ws) := launchWorkers ab n' s q in
      (s, q, w :: ws)
  end.

(** Line 210. *)
Fixpoint startChunk ab s (chunk : list string) : Closure.t T * list (Exec T) :=
  match chunk with
  | [] => (s, [])
  | u :: rest =>
      let '(s, e) := executeTaskWithRetries ab s u in
      let '(s, es) := startChunk ab s rest in
      (s, e :: es)
  end.

(** Lines 220 to 225. *)
Definition finish ab s (done : list (Exec T)) : State T := mkState s ab MReturned done.

(** Lines 200 to 212. *)
Definition portionsLoop ab s (i : nat) (done : list (Exec T)) : State T :=
  if i <? totalUrlsToProcess r then
    if ab then finish ab s done
    else
      let chunk := take (maxConcurrency r) (drop i (urlsToProcess r)) in
      let '(s, es) := startChunk ab s chunk in
      mkState s ab (MPortions i es) done
  else finish ab s done.

(** Lines 162 to 218, up to the first [await]. *)
Definition processUrlsConcurrentlyInTabs (signalAborted : bool) : State T :=
  if signalAborted then mkState Closure.empty true MAbortedBeforeStart []
  else
    match mode o with
    | threads =>
        let actualWorkersToLaunch := Nat.min (maxConcurrency r) (totalUrlsToProcess r) in
        let '(s, q, ws) := launchWorkers false actualWorkersToLaunch Closure.empty (urlsToProcess r) in
        mkState s false (MThreads q ws) []
    | portions => portionsLoop false Closure.empty 0 []
    end.

Definition step (st : State T) (ev : Event T) : State T :=
  match ev, main st with
  | Abort, (MThreads _ _ | MPortions _ _) =>
      if aborted st then st
      else mkState (vars st) true (abortMain (main st)) (retired st)
  | At k x, MThreads q ws =>
      match ws !! k with
      | Some (Running e) =>
          match execStep (aborted st) (vars st) e x with
          | Some (s, e') => mkState s (aborted st) (MThreads q (<[k := Running e']> ws)) (retired st)
          | None => st
          end
      | _ => st
      end
  | At k x, MPortions i es =>
      match es !! k with
      | Some e =>
          match execStep (aborted st) (vars st) e x with
          | Some (s, e') => mkState s (aborted st) (MPortions i (<[k := e']> es)) (retired st)
          | None => st
          end
      | None => st
      end
  | WorkerResumes k, MThreads q ws =>
      match ws !! k with
      | Some (Running e) =>
          if isSettled e then
            let '(s, q', w) := workerLoop (aborted st) (vars st) q in
            mkState s (aborted st) (MThreads q' (<[k := w]> ws)) (retired st ++ [e])
          else st
      | _ => st
      end
  | MainResumes, MThreads q ws =>
      if forallb isFinished ws then finish (aborted st) (vars st) (retired st) else st
  | MainResumes, MPortions i es =>
      if forallb isSettled es then
        portionsLoop (aborted st) (vars st) (i + maxConcurrency r) (retired st ++ es)
      else st
  | _, _ => st
  end.

Definition run (signalAborted : bool) (events : list (Event T)) : State T :=
  fold_left step events (processUrlsConcurrentlyInTabs signalAborted).

(** Lines 172 and 225. *)
Definition result (st : State T) : option (BasicResult T) :=
  match main st with
  | MReturned =>
      Some (mkBasicResult (Closure.successfulResults (vars st)) (Closure.failedTasks (vars st)))
  | MAbortedBeforeStart =>
      Some (mkBasicResult [] [("N/A"%string, mkError "Error" "Operation aborted before starting")])
  | _ => None
  end.
End Basic.
End Basic.


(** ** JavaScript collections in the callers *)

(** A JavaScript [Map] with string keys (or an object used as one), as the
    list of its entries in the order of their insertion: [set] on a key that
    is there replaces the value where it is. *)
Definition mapHas {V} (k : string) (m : list (string * V)) : bool :=
  existsb (λ kv, String.eqb kv.1 k) m.

Fixpoint mapSet {V} (k : string) (v : V) (m : list (string * V)) : list (string * V) :=
  match m with
  | [] => [(k, v)]
  | (k', v') :: rest =>
      if String.eqb k' k then (k', v) :: rest else (k', v') :: mapSet k v rest
  end.

Definition mapValues {V} (m : list (string * V)) : list V := snd <$> m.

Definition mapGet {V} (k : string) (m : list (string * V)) : option V :=
  snd <$> find (λ kv, String.eqb kv.1 k) m.

(** An object literal [{}] read as [object[key]]: the read goes through
    the prototype chain, so that a key that is not a property of the object
    itself gives what [Object.prototype] has under that name, a function, or
    the prototype itself for ["__proto__"], and all of these are truthy.
    These are the names of the properties of [Object.prototype]. *)
Definition objectPrototypeNames : list string :=
  ["constructor"; "__defineGetter__"; "__defineSetter__"; "hasOwnProperty";
   "__lookupGetter__"; "__lookupSetter__"; "isPrototypeOf"; "propertyIsEnumerable";
   "toString"; "valueOf"; "__proto__"; "toLocaleString"]%string.

Definition inherited (key : string) : bool :=
  existsb (String.eqb key) objectPrototypeNames.

(** ** The product scraper (src/lib/scraper/vevor/product.actions.ts)

    [scrapeProductLinks] removes the duplicates of its links, calls the
    enhanced [processUrlsConcurrentlyInTabs] in the threads mode and removes
    the duplicates of the products it gets.  The browser and the task
    function [scrapeSingleProduct] are outside the model: the call of the
    scheduler is a run of it, and the value the [try] block leaves in
    [results] (nothing when something threw) is an argument. *)

Module ProductActions.

(** [ProductData]: the two fields [scrapeProductLinks] reads, and the
    others. *)
Record ProductData (D : Type) := mkProductData {
  url : string;
  articleNumber : string;
  others : D
}.
Arguments mkProductData {D}.
Arguments url {D}.
Arguments articleNumber {D}.
Arguments others {D}.

(** [ScrapeProductsResult]; [failed], [log] and [runStats] are its fields
    [failedTasks], [logHistory] and [stats]. *)
Record ScrapeProductsResult (D : Type) := mkScrapeProductsResult {
  products : list (ProductData D);
  failed : list (string * Error);
  log : list LogEntry;
  runStats : RunStats
}.
Arguments mkScrapeProductsResult {D}.
Arguments products {D}.
Arguments failed {D}.
Arguments log {D}.
Arguments runStats {D}.

(** [l.indexOf(u)]: the first position of [u], or -1. *)
Fixpoint indexOfFrom (i : Z) (l : list string) (u : string) : Z :=
  match l with
  | [] => (-1)%Z
  | v :: rest => if String.eqb v u then i else indexOfFrom (i + 1) rest u
  end.

Definition indexOf (l : list string) (u : string) : Z := indexOfFrom 0 l u.

(** [l.sort(compare)] with a comparator that is consistent: the sort is
    stable, so that the result is the one list that is sorted and keeps the
    order of the elements that compare equal; it is computed here by
    insertion. *)
Fixpoint insertSorted {A} (compare : A → A → Z) (x : A) (l : list A) : list A :=
  match l with
  | [] => [x]
  | y :: rest =>
      if (compare x y <=? 0)%Z then x :: y :: rest
      else y :: insertSorted compare x rest
  end.

Definition sort {A} (compare : A → A → Z) (l : list A) : list A :=
  foldr (insertSorted compare) [] l.

Section ProductActions.
Context {D : Type}.
Implicit Types (p : ProductData D) (links : list string).

(** Lines 371 and 372. *)
Definition recommendedThreads : Z := 7.

Definition maxThreads (threads : Z) : Z :=
  if (0 <? threads)%Z then threads else recommendedThreads.

(** Lines 409 to 422; [isRetryable] looks at the class of the error and is
    an argument here. *)
Definition scrapeOptions (isRetryable : Error → bool) : ProcessUrlsOptions :=
  {| mode := threads; maxRetries := 2;
     retryDelayMs := DelayFun (λ attempt, Z.of_nat attempt * 1500)%Z;
     blockResources := []; onProgress := true; onError := true;
     isRetryable := isRetryable; logToConsole := true |}.

(** Lines 404 and 426 to 432: the call of the scheduler. *)
Definition schedulerRun links (threads : Z) (isRetryable : Error → bool) : Run :=
  prepare (uniqueUrls links) (Z.to_nat (maxThreads threads)) (scrapeOptions isRetryable).

(** Lines 383 to 396. *)
Definition createDefaultResult links : ScrapeProductsResult D :=
  {| products := [];
     failed := [("N/A"%string,
                 mkError "Error" "Scraping process failed or was aborted early.")];
     log := [];
     runStats := mkRunStats (length links) 0 0 0 0 |}.

(** [product.articleNumber && product.articleNumber !== "none"]. *)
Definition hasArticleNumber p : bool :=
  negb (String.eqb (articleNumber p) "") && negb (String.eqb (articleNumber p) "none").

(** Lines 456 to 463: one round of the [forEach]. *)
Definition addProduct (m : list (string * ProductData D)) p : list (string * ProductData D) :=
  if hasArticleNumber p && negb (mapHas (articleNumber p) m) then
    mapSet (articleNumber p) p m
  else if negb (hasArticleNumber p) then mapSet (url p) p m
  else m.

(** Lines 454 to 464. *)
Definition uniqueProductsMap (successfulProducts : list (ProductData D))
  : list (string * ProductData D) :=
  fold_left addProduct successfulProducts [].

(** Line 473. *)
Definition byLinkOrder (uniqueLinks : list string) (a b : ProductData D) : Z :=
  (indexOf uniqueLinks (url a) - indexOf uniqueLinks (url b))%Z.

(** Lines 464 to 476. *)
Definition finalDeduplicatedProducts (uniqueLinks : list string)
    (successfulProducts : list (ProductData D)) : list (ProductData D) :=
  let deduplicated := mapValues (uniqueProductsMap successfulProducts) in
  match uniqueLinks with
  | [] => deduplicated
  | _ => sort (byLinkOrder uniqueLinks) deduplicated
  end.

(** Lines 446 to 492, after the [try] block. *)
Definition scrapeProductLinks links (results : option (ProcessUrlsResult (ProductData D)))
  : ScrapeProductsResult D :=
  match results with
  | None => createDefaultResult links
  | Some results =>
      {| products := finalDeduplicatedProducts (uniqueUrls links) (successfulResults results);
         failed := failedTasks results;
         log := logHistory results;
         runStats := stats results |}
  end.

(** The key a product is kept under. *)
Definition productKey p : string :=
  if hasArticleNumber p then articleNumber p else url p.

(** The map after the products [ps]: its keys are distinct, every entry is
    a product of [ps] under its key, and every product of [ps] has its key in
    the map. *)
Definition mapInv (ps : list (ProductData D)) (m : list (string * ProductData D)) : Prop :=
  NoDup m.*1 ∧
  Forall (λ kv, kv.1 = productKey kv.2 ∧ kv.2 ∈ ps) m ∧
  ∀ p, p ∈ ps → productKey p ∈ m.*1.

(** Which product the map keeps under a key: the first of the products
    with that key, when it has an article number; the last of the products
    without an article number that have the key as url, when it has none. *)
Definition kept (ps : list (ProductData D)) (k : string) (v : ProductData D) : Prop :=
  if hasArticleNumber v then head (filter (λ q, productKey q = k) ps) = Some v
  else last (filter (λ q, hasArticleNumber q = false ∧ url q = k) ps) = Some v.
End ProductActions.
End ProductActions.

(** ** The catalog scraper (src/lib/scraper/vevor/catalog.actions.ts)

    [getCatalogPagesLinks] runs the scheduler twice: on the catalog urls,
    to find the number of pages of every catalog, then on the urls of all
    the pages.  The browser and the two task functions are outside the
    model: the results of the two runs are arguments. *)

Module CatalogActions.

Record MaxPageResult := mkMaxPageResult {
  url : string;
  maxPage : Z
}.

Record ProductPageData := mkProductPageData {
  link : string;
  price : string;
  discountPrice : string
}.

(** [GetCatalogPagesResult]; [log] and [runStats] are its fields
    [logHistory] and [stats].  [details] is an object: the finite map of
    its own properties, from a link to the [price] and the [discountPrice];
    the order in which its keys are enumerated is not part of the model. *)
Record GetCatalogPagesResult := mkGetCatalogPagesResult {
  links : list string;
  details : gmap string (string * string);
  log : list LogEntry;
  runStats : RunStats
}.

(** [s.replace(pattern, replacement)] with a string pattern: the first
    occurrence is replaced. *)
Fixpoint replaceFirst (pattern replacement s : string) : string :=
  if String.prefix pattern s then
    replacement +:+ String.substring (String.length pattern)
                      (String.length s - String.length pattern) s
  else
    match s with
    | EmptyString => EmptyString
    | String c rest => String c (replaceFirst pattern replacement rest)
    end.

Section CatalogActions.
Implicit Types (catalogUrls : list string) (resourcesToBlock : list string).

(** Lines 481 to 486. *)
Definition maxPageOptions resourcesToBlock : ProcessUrlsOptions :=
  {| mode := threads; maxRetries := 1; retryDelayMs := DelayConst 500;
     blockResources := resourcesToBlock; onProgress := false; onError := true;
     isRetryable := defaultIsRetryable; logToConsole := true |}.

(** Lines 518 to 530. *)
Definition scrapeOptions resourcesToBlock : ProcessUrlsOptions :=
  {| mode := threads; maxRetries := 1;
     retryDelayMs := DelayFun (λ attempt, Z.of_nat attempt * 1000)%Z;
     blockResources := resourcesToBlock; onProgress := true; onError := true;
     isRetryable := defaultIsRetryable; logToConsole := true |}.

(** Lines 487 to 493 and 531 to 537: the two calls of the scheduler. *)
Definition maxPageRun catalogUrls (pageConcurrency : nat) resourcesToBlock : Run :=
  prepare catalogUrls pageConcurrency (maxPageOptions resourcesToBlock).

Definition scrapeRun (allPageUrlsToScrape : list string) (pageConcurrency : nat)
    resourcesToBlock : Run :=
  prepare allPageUrlsToScrape pageConcurrency (scrapeOptions resourcesToBlock).

(** Lines 497 to 499: the object [catalogPageMap] after the [forEach]; a
    later result for a url replaces an earlier one.  (A url that names a
    property of [Object.prototype] is outside the model.) *)
Definition catalogPageMap (results : list MaxPageResult) : list (string * Z) :=
  fold_left (λ m result, mapSet (url result) (maxPage result) m) results [].

(** Line 507: [catalogPageMap[catalogUrl] || 1]. *)
Definition maxPageOf (results : list MaxPageResult) (catalogUrl : string) : Z :=
  match mapGet catalogUrl (catalogPageMap results) with
  | Some n => if (n =? 0)%Z then 1%Z else n
  | None => 1%Z
  end.

(** Line 509. *)
Definition pageUrl (catalogUrl : string) (pageNum : Z) : string :=
  if (pageNum =? 1)%Z then catalogUrl else catalogUrl +:+ "?page=" +:+ pretty pageNum.

(** Lines 506 to 512. *)
Definition allPageUrlsToScrape catalogUrls (results : list MaxPageResult) : list string :=
  catalogUrls ≫= (λ catalogUrl, pageUrl catalogUrl <$> seqZ 1 (maxPageOf results catalogUrl)).

(** Lines 541 to 549: the stats of the second run are added to those of
    the first; [totalUrlsProvided] stays. *)
Definition combineStats (combinedStats scrapeStats : RunStats) : RunStats :=
  {| totalUrlsProvided := totalUrlsProvided combinedStats;
     totalUrlsAttempted := totalUrlsAttempted combinedStats + totalUrlsAttempted scrapeStats;
     totalSuccess := totalSuccess combinedStats + totalSuccess scrapeStats;
     totalFailed := totalFailed combinedStats + totalFailed scrapeStats;
     totalRetriesMade := totalRetriesMade combinedStats + totalRetriesMade scrapeStats |}.

(** Line 555. *)
Definition clearLink (item : ProductPageData) : string :=
  replaceFirst "#Opinie" "" (link item).

(** Lines 554 to 565.  The links go to a [Set], which keeps the first
    occurrence of each in the order of insertion. *)
Definition allProductLinksSet (items : list ProductPageData) : list string :=
  uniqueUrls (clearLink <$> items).

(** Lines 558 to 563, one round of the [forEach]: the object
    [allProductDetails] gets an entry for the link when
    [allProductDetails[clearLink]] is falsy.  The read is truthy when the
    object has an entry for the link (an entry is an object) and when the
    link names a property of [Object.prototype]; no entry is written
    then. *)
Definition addDetails (m : gmap string (string * string)) (item : ProductPageData)
  : gmap string (string * string) :=
  let found := match m !! clearLink item with
               | Some _ => true
               | None => inherited (clearLink item)
               end in
  if found then m else <[clearLink item := (price item, discountPrice item)]> m.

Definition allProductDetails (items : list ProductPageData) : gmap string (string * string) :=
  fold_left addDetails items ∅.

(** The entries of the object after the items [items]: the links that name
    no property of [Object.prototype], each with the prices of the first
    item that has it. *)
Definition detailsInv (items : list ProductPageData) (m : gmap string (string * string))
  : Prop :=
  (∀ l, is_Some (m !! l) ↔ (∃ i, i ∈ items ∧ clearLink i = l) ∧ inherited l = false) ∧
  ∀ l pd, m !! l = Some pd →
    ∃ item, head (filter (λ i, clearLink i = l) items) = Some item ∧
            pd = (price item, discountPrice item).

(** Lines 475 to 589, without the exceptions: [maxPageRunResult] is the
    result of the first run, [scrapeRunResult] that of the second, which is
    made when there are pages to scrape. *)
Definition getCatalogPagesLinks catalogUrls
    (maxPageRunResult : ProcessUrlsResult MaxPageResult)
    (scrapeRunResult : ProcessUrlsResult ProductPageData) : GetCatalogPagesResult :=
  match allPageUrlsToScrape catalogUrls (successfulResults maxPageRunResult) with
  | [] =>
      {| links := []; details := ∅;
         log := logHistory maxPageRunResult;
         runStats := stats maxPageRunResult |}
  | _ :: _ =>
      {| links := allProductLinksSet (successfulResults scrapeRunResult);
         details := allProductDetails (successfulResults scrapeRunResult);
         log := logHistory maxPageRunResult ++ logHistory scrapeRunResult;
         runStats := combineStats (stats maxPageRunResult) (stats scrapeRunResult) |}
  end.
End CatalogActions.
End CatalogActions.

(** ** The log for the terminal ([formatRunLogForTerminal],
    src/lib/concurrency.core.ts)

    The function reads the entries of the log with their timestamps and the
    text of their messages, which the model of the scheduler leaves out: an
    entry is given here as the source has it.  What the engine formats by
    the locale or in floating point ([toLocaleString], [toFixed]) comes with
    the value as a string. *)

Module Terminal.

(** [colors], lines 298 to 308: the escape character, then the code. *)
Definition esc (code : string) : string := String "027"%char code.

Definition reset : string := esc "[0m".
Definition red : string := esc "[31m".
Definition green : string := esc "[32m".
Definition yellow : string := esc "[33m".
Definition blue : string := esc "[34m".
Definition magenta : string := esc "[35m".
Definition cyan : string := esc "[36m".
Definition dim : string := esc "[2m".
Definition bold : string := esc "[1m".

(** The line feed. *)
Definition lf : string := String "010"%char EmptyString.

(** [s.padStart(n, c)] and [s.padEnd(n, c)] for a pad [c] of one
    character. *)
Definition padStart (n : nat) (c : ascii) (s : string) : string :=
  string_of_list_ascii (replicate (n - String.length s) c) +:+ s.

Definition padEnd (n : nat) (c : ascii) (s : string) : string :=
  s +:+ string_of_list_ascii (replicate (n - String.length s) c).

(** A [Date], as far as the function reads it. *)
Record Date := mkDate {
  getHours : nat;
  getMinutes : nat;
  getSeconds : nat;
  getMilliseconds : nat;
  toLocaleString : string
}.

(** [LogEntry], lines 7 to 13. *)
Record LogEntry := mkEntry {
  timestamp : Date;
  level : Level;
  message : string;
  url : option string;
  attempt : option nat
}.

(** [RunStats], lines 16 to 25: the two dates, the duration as
    [(durationMs / 1000).toFixed(2)] prints it, and the counters. *)
Record TimedRunStats := mkTimedRunStats {
  startTime : Date;
  endTime : Date;
  durationSeconds : string;
  counters : RunStats
}.

(** The name of a level, as the string the source has. *)
Definition levelName (lv : Level) : string :=
  match lv with
  | INFO => "INFO" | WARN => "WARN" | ERROR => "ERROR" | DEBUG => "DEBUG"
  | SUCCESS => "SUCCESS"
  end.

(** Lines 318 and 319. *)
Definition pad (num : nat) : string := padStart 2 "0" (pretty num).

Definition formatTime (date : Date) : string :=
  pad (getHours date) +:+ ":" +:+ pad (getMinutes date) +:+ ":" +:+ pad (getSeconds date)
  +:+ "." +:+ padStart 3 "0" (pretty (getMilliseconds date)).

(** Lines 323 to 330. *)
Definition levelColor (lv : Level) : string :=
  match lv with
  | ERROR => red | WARN => yellow | SUCCESS => green | INFO => blue | DEBUG => dim
  end.

(** Lines 331 to 336: what one entry adds to the output. *)
Definition formatEntry (entry : LogEntry) : string :=
  dim +:+ formatTime (timestamp entry) +:+ reset +:+ " "
  +:+ levelColor (level entry) +:+ "[" +:+ padEnd 7 " " (levelName (level entry)) +:+ "]"
  +:+ reset +:+ " "
  +:+ message entry
  +:+ match url entry with
      | Some u => if String.eqb u "" then "" else " " +:+ dim +:+ "(" +:+ u +:+ ")" +:+ reset
      | None => ""
      end
  +:+ match attempt entry with
      | Some a => " " +:+ dim +:+ "[Attempt: " +:+ pretty a +:+ "]" +:+ reset
      | None => ""
      end
  +:+ lf.

(** Lines 339 to 348. *)
Definition formatStats (stats : TimedRunStats) : string :=
  lf +:+ bold +:+ cyan +:+ "--- Run Statistics ---" +:+ reset +:+ lf
  +:+ "Start Time:       " +:+ toLocaleString (startTime stats) +:+ lf
  +:+ "End Time:         " +:+ toLocaleString (endTime stats) +:+ lf
  +:+ "Duration:         " +:+ durationSeconds stats +:+ "s" +:+ lf
  +:+ "URLs Provided:    " +:+ pretty (totalUrlsProvided (counters stats)) +:+ lf
  +:+ "URLs Attempted:   " +:+ pretty (totalUrlsAttempted (counters stats)) +:+ lf
  +:+ green +:+ "Successful Tasks: " +:+ pretty (totalSuccess (counters stats)) +:+ reset +:+ lf
  +:+ red +:+ "Failed Tasks:     " +:+ pretty (totalFailed (counters stats)) +:+ reset +:+ lf
  +:+ yellow +:+ "Total Retries:    " +:+ pretty (totalRetriesMade (counters stats))
  +:+ reset +:+ lf
  +:+ bold +:+ cyan +:+ "----------------------" +:+ reset +:+ lf.

(** Lines 316 to 351. *)
Definition formatRunLogForTerminal (logHistory : list LogEntry) (stats : TimedRunStats) : string :=
  bold +:+ cyan +:+ "--- Execution Log ---" +:+ reset +:+ lf
  +:+ foldr (λ entry output, formatEntry entry +:+ output) "" logHistory
  +:+ formatStats stats.

(** The line feeds of a string. *)
Fixpoint lineFeeds (s : string) : nat :=
  match s with
  | EmptyString => 0
  | String c rest => (if Ascii.eqb c "010" then 1 else 0) + lineFeeds rest
  end.
End Terminal.

(** * Notions used in the statements *)

(** The occurrences of a value in a list of urls. *)
Definition occ (u : string) (l : list string) : nat := count_occ string_dec l u.
Arguments occ : simpl never.

Section Notions.
Context {T : Type}.
Implicit Types (s : Closure.t T) (e : Exec T) (w : Worker T) (st : State T).
Implicit Types (ab : bool) (events : list (Event T)).

(** A measure of a coroutine, as a measure of the worker that awaits it. *)
Definition ofWorker (f : Exec T → nat) w : nat :=
  match w with Running e => f e | Finished => 0 end.

Definition onWorker (P : Exec T → Prop) w : Prop :=
  match w with Running e => P e | Finished => True end.

(** The share of a coroutine in [completedCount]: it has passed line 207. *)
Definition counted e : nat :=
  match pc e with AwaitOnError | AwaitOnProgress | Settled => 1 | _ => 0 end.

(** The share of a coroutine in [failedTasks]: it has passed line 213. *)
Definition failedNotAborted e : bool :=
  match lastError e with Some err => negb (isAbortMessage err) | None => false end.

Definition countedFailed e : nat :=
  match pc e with
  | AwaitOnError | AwaitOnProgress | Settled => if failedNotAborted e then 1 else 0
  | _ => 0
  end.

(** The coroutine works on the url [u]: 1, or 0. *)
Definition hits (u : string) e : nat := occ u [url e].

Definition isRunning (w : Worker T) : Prop :=
  match w with Running _ => True | Finished => False end.

(** The coroutines whose promise has been consumed have returned. *)
Definition retiredSettled st : Prop := Forall (λ e, pc e = Settled) (retired st).

(** An event is the abort of the signal. *)
Definition isAbort (ev : Event T) : bool :=
  match ev with Abort => true | _ => false end.

(** No cancellation: the signal is not aborted at the call and no event
    aborts it. *)
Definition noAbort events : bool := forallb (λ ev, negb (isAbort ev)) events.

(** [max(0, attempts - 1)], for the calls of the task function made for
    one item. *)
Definition retriesOf e : nat := Z.to_nat (Z.max 0 (Z.of_nat (invocations e) - 1)).

(** How a coroutine that has returned has ended: with a result, with the
    error of line 163 (cancellation seen at the head of the loop), or with
    another error. *)
Definition succeeded e : bool :=
  match lastError e with None => true | Some _ => false end.

Definition cancelledBeforeAttempt e : bool :=
  match lastError e with Some err => isAbortMessage err | None => false end.

Definition countIf (f : Exec T → bool) (l : list (Exec T)) : nat :=
  sum_list_with (λ e, if f e then 1 else 0) l.

(** The event a coroutine waits for at its [await]. *)
Definition accepts (p : Pc) (x : ExecEvent T) : bool :=
  match p, x with
  | AwaitTask, TaskSettles _
  | AwaitDelay _, TimerFires
  | DelayRejected, RejectedDelayResumes
  | AwaitOnError, OnErrorSettles _
  | AwaitOnProgress, OnProgressSettles _ => true
  | _, _ => false
  end.

(** The events that can happen in a state. *)
Definition enabled st (ev : Event T) : bool :=
  match ev, main st with
  | Abort, (MThreads _ _ | MPortions _ _) => negb (aborted st)
  | At k x, MThreads _ ws =>
      match ws !! k with Some (Running e) => accepts (pc e) x | _ => false end
  | At k x, MPortions _ es =>
      match es !! k with Some e => accepts (pc e) x | None => false end
  | WorkerResumes k, MThreads _ ws =>
      match ws !! k with Some (Running e) => isSettled e | _ => false end
  | MainResumes, MThreads _ ws => forallb isFinished ws
  | MainResumes, MPortions _ es => forallb isSettled es
  | _, _ => false
  end.

(** The event that resumes a coroutine: a task that succeeds with no item,
    a timer that fires, a callback that returns. *)
Definition resumption (p : Pc) : ExecEvent T :=
  match p with
  | AwaitTask => TaskSettles (Resolved [])
  | AwaitDelay _ => TimerFires
  | DelayRejected => RejectedDelayResumes
  | AwaitOnError => OnErrorSettles false
  | _ => OnProgressSettles false
  end.

(** What a run computes, apart from what it reports: [obs] forgets the log
    history, the console, the trace of the callback calls, the retry counter
    and the counts a coroutine keeps for the progress report, which the code
    writes and never reads back to schedule the items. *)
Definition obsS s : Closure.t T :=
  Closure.mk [] (Closure.successfulResults s) (Closure.failedTasks s)
    (Closure.completedCount s) 0 [] [].

Definition obsE e : Exec T :=
  mkExec (url e) (attempts e) (taskResult e) (lastError e) 0 0 (pc e) (invocations e) 0.

Definition obsW w : Worker T :=
  match w with Running e => Running (obsE e) | Finished => Finished end.

Definition obsM (m : Main T) : Main T :=
  match m with
  | MThreads q ws => MThreads q (obsW <$> ws)
  | MPortions i es => MPortions i (obsE <$> es)
  | m => m
  end.

Definition obs st : State T :=
  mkState (obsS (vars st)) (aborted st) (obsM (main st)) (obsE <$> retired st).

(** The event, with a callback that returns in place of one that throws. *)
Definition quietX (x : ExecEvent T) : ExecEvent T :=
  match x with
  | OnErrorSettles _ => OnErrorSettles false
  | OnProgressSettles _ => OnProgressSettles false
  | x => x
  end.

Definition quiet (ev : Event T) : Event T :=
  match ev with At k x => At k (quietX x) | ev => ev end.

(** Two results of a block of a coroutine that look alike. *)
Definition alike (a b : Closure.t T * Exec T) : Prop :=
  obsS a.1 = obsS b.1 ∧ obsE a.2 = obsE b.2.

Definition alikeOpt (a b : option (Closure.t T * Exec T)) : Prop :=
  match a, b with
  | Some a, Some b => alike a b
  | None, None => True
  | _, _ => False
  end.

(** Two states that look alike give the caller the same lists, or nothing
    yet. *)
Definition sameLists (a b : option (ProcessUrlsResult T)) : Prop :=
  match a, b with
  | Some res1, Some res2 =>
      successfulResults res1 = successfulResults res2 ∧
      failedTasks res1 = failedTasks res2
  | None, None => True
  | _, _ => False
  end.

(** Every error a task function throws in the run has the name
    ['TimeoutError']. *)
Definition timesOut (ev : Event T) : bool :=
  match ev with
  | At _ (TaskSettles (Rejected thrown)) => String.eqb (name (toError thrown)) "TimeoutError"
  | _ => true
  end.

Definition allTimeouts events : bool := forallb timesOut events.

(** [g] reads a counter in the shared variables and [f] the share of one
    coroutine in it: the counter is the sum of the shares. *)
Definition balanced (f : Exec T → nat) (g : Closure.t T → nat) st : Prop :=
  g (vars st) = sum_list_with f (allExecs st).

(** [P ab e]: a property of the coroutine [e] when the abort flag is [ab];
    it holds of every coroutine of the state. *)
Definition eachExec (P : bool → Exec T → Prop) st : Prop :=
  Forall (P (aborted st)) (allExecs st).
End Notions.

Section Run_notions.
Context {T : Type}.
Variable r : Run.
Implicit Types (s : Closure.t T) (e : Exec T) (w : Worker T) (st : State T).
Implicit Types (ab : bool) (events : list (Event T)).

(** At most [maxConcurrency] coroutines are suspended. *)
Definition bounded st : Prop :=
  length (activeExecs (main st)) ≤ maxConcurrency r.

(** The number of workers never changes; what is bounded is their number. *)
Definition poolBounded st : Prop :=
  match main st with
  | MThreads _ ws => length ws ≤ maxConcurrency r
  | MPortions _ es => length es ≤ maxConcurrency r
  | _ => True
  end.

(** The calls of the task function and the retries counted for one item,
    by where its coroutine is.  A retry is counted at line 178, before the
    delay and the next call: while the coroutine sleeps, and when an abort
    ends it there or at the head of the loop, the retries counted are the
    calls made; everywhere else they are the calls made less one. *)
Definition execInv (ab : bool) e : Prop :=
  invocations e ≤ maxRetries (options r) + 1 ∧
  match pc e with
  | AwaitTask =>
      invocations e = attempts e + 1 ∧ retriesCounted e = attempts e
  | AwaitDelay _ =>
      invocations e = attempts e ∧ retriesCounted e = attempts e ∧
      1 ≤ attempts e ≤ maxRetries (options r)
  | DelayRejected =>
      invocations e = attempts e ∧ retriesCounted e = attempts e ∧
      1 ≤ attempts e ≤ maxRetries (options r) ∧ ab = true
  | AwaitOnError | AwaitOnProgress | Settled =>
      invocations e - 1 ≤ retriesCounted e ≤ invocations e ∧
      (ab = false → 1 ≤ invocations e ∧ retriesCounted e = invocations e - 1)
  end.

(** Which items have been dispatched.  Threads: the urls of the coroutines,
    the empty strings dropped at line 254 and the queue make up the list;
    while nothing is aborted or dropped and the queue is not empty, every
    worker runs.  Portions: the coroutines are the items before [i] and the
    chunk at [i].  After the return: what was not dispatched is nothing,
    unless the signal is aborted, or, in the threads mode, there is no worker
    or an empty string in the list. *)
Definition dispatchInv st : Prop :=
  match main st with
  | MThreads q ws =>
      mode (options r) = threads ∧
      length ws = Nat.min (maxConcurrency r) (totalUrlsToProcess r) ∧
      ∃ dropped,
        Forall (λ v, v = ""%string) dropped ∧
        (∀ u, occ u (url <$> allExecs st) + occ u dropped + occ u q
              = occ u (urlsToProcess r)) ∧
        (aborted st = false → dropped = [] → q ≠ [] → Forall isRunning ws)
  | MPortions i es =>
      url <$> retired st = take i (urlsToProcess r) ∧
      url <$> es = take (maxConcurrency r) (drop i (urlsToProcess r))
  | MReturned =>
      ∃ rest,
        (∀ u, occ u (url <$> retired st) + occ u rest = occ u (urlsToProcess r)) ∧
        (rest = [] ∨ aborted st = true ∨
         (mode (options r) = threads ∧
          (maxConcurrency r = 0 ∨ ""%string ∈ urlsToProcess r)))
  | MAbortedBeforeStart => retired st = [] ∧ aborted st = true
  end.

(** What is left of a coroutine: the attempts it may still make, each a call
    of the task function and a delay, then the two callbacks. *)
Definition execWeight e : nat :=
  match pc e with
  | AwaitTask => 3 * (maxRetries (options r) - attempts e) + 5
  | AwaitDelay _ => 3 * (maxRetries (options r) - attempts e) + 6
  | DelayRejected => 4
  | AwaitOnError => 3
  | AwaitOnProgress => 2
  | Settled => 1
  end.

(** What is left of an item that has not been dispatched. *)
Definition itemWeight : nat := 3 * maxRetries (options r) + 7.

(** What is left of the run. *)
Definition weight st : nat :=
  match main st with
  | MThreads q ws =>
      sum_list_with (ofWorker (λ e, S (execWeight e))) ws + length q * itemWeight + 1
  | MPortions i es =>
      sum_list_with execWeight es
      + (totalUrlsToProcess r - i - length es) * itemWeight + 1
  | _ => 0
  end.

(** The events of a run that change the state, the abort apart. *)
Fixpoint effectiveEvents st (events : list (Event T)) : nat :=
  match events with
  | [] => 0
  | ev :: rest =>
      (if enabled st ev && negb (isAbort ev) then 1 else 0)
      + effectiveEvents (step r st ev) rest
  end.

(** The error of the event, if it is a task that fails, is retryable for
    the enhanced version. *)
Definition retryableX (x : ExecEvent T) : Prop :=
  match x with
  | TaskSettles (Rejected thrown) => isRetryable (options r) (toError thrown) = true
  | _ => True
  end.

Definition retryableEvent (ev : Event T) : Prop :=
  match ev with At _ x => retryableX x | _ => True end.
End Run_notions.

(** ** Notions of the further properties *)

Section More_notions.
Context {T : Type}.
Implicit Types (s : Closure.t T) (e : Exec T) (st : State T).

(** The shared variables only grow: the lists are extended at their end,
    the counters do not go down. *)
Definition grows s s' : Prop :=
  Closure.logHistory s `prefix_of` Closure.logHistory s' ∧
  Closure.successfulResults s `prefix_of` Closure.successfulResults s' ∧
  Closure.failedTasks s `prefix_of` Closure.failedTasks s' ∧
  Closure.completedCount s ≤ Closure.completedCount s' ∧
  Closure.totalRetriesMade s ≤ Closure.totalRetriesMade s' ∧
  Closure.console s `prefix_of` Closure.console s' ∧
  Closure.calls s `prefix_of` Closure.calls s'.

(** The url and the error of a call of [onError]. *)
Definition onErrorArgs (c : CallbackCall) : option (string * Error) :=
  match c with OnErrorCall err u _ => Some (u, err) | _ => None end.

(** The first two arguments of a call of [onProgress]. *)
Definition onProgressArgs (c : CallbackCall) : option (nat * nat) :=
  match c with OnProgressCall completed total _ => Some (completed, total) | _ => None end.

(** The share of a coroutine in the entries of [failedTasks] for the url
    [u]. *)
Definition failedFor (u : string) e : nat :=
  if string_dec (url e) u then countedFailed e else 0.

(** A coroutine has left the retry loop for good: it is in the part of
    lines 207 to 233, or has returned, with the same url and as many calls
    of the task function and retries as before. *)
Definition completes e e' : Prop :=
  url e' = url e ∧ invocations e' = invocations e ∧
  retriesCounted e' = retriesCounted e ∧
  (pc e' = AwaitOnError ∨ pc e' = AwaitOnProgress ∨ pc e' = Settled).

(** The calls of [onProgress] made so far, by their first two arguments:
    [completed] is at most [n], [total] is the number of items, and
    [completed] does not go down from a call to the next. *)
Definition progressOk (total n : nat) (l : list (nat * nat)) : Prop :=
  Forall (λ p, p.1 ≤ n ∧ p.2 = total) l ∧ StronglySorted (λ p q, p.1 ≤ q.1) l.
End More_notions.

(** The two messages of a retry (lines 179 and 182). *)
Definition isRetryMessage (m : LogMessage) : bool :=
  match m with MsgRetryableError _ _ | MsgRetryingIn _ => true | _ => false end.

(** What [executeTaskWithRetries] does to the shared variables, update by
    update as the code has them: an entry of the log that is not about a
    retry; a retry counted and logged (lines 178 and 179), with the entry of
    its delay (line 182) or without; an item counted (line 207); a failure
    recorded, which the error of an abort never is (lines 212 and 213), with
    the call of [onError] when the option is given (line 216); results
    recorded (line 222); a call of [onProgress] with the current count
    (line 232); a line on the console.  [R u] relates the variables before
    and after each of them, for the coroutine of the url [u]. *)
Definition keeps {T : Type} (r : Run) (R : string → Closure.t T → Closure.t T → Prop) : Prop :=
  (∀ u s, R u s s) ∧
  (∀ u s1 s2 s3, R u s1 s2 → R u s2 s3 → R u s1 s3) ∧
  (∀ u lv m lu a s, isRetryMessage m = false → R u s (log lv m lu a s)) ∧
  (∀ u n m lu a s, R u s (log WARN (MsgRetryableError n m) lu a (incRetries s))) ∧
  (∀ u n m d lu a s,
     R u s (log INFO (MsgRetryingIn d) lu a
              (log WARN (MsgRetryableError n m) lu a (incRetries s)))) ∧
  (∀ u s, R u s (incCompleted s)) ∧
  (∀ u err n s, isAbortMessage err = false →
     R u s (if onError (options r) then recordCall (OnErrorCall err u n) (pushFailed u err s)
            else pushFailed u err s)) ∧
  (∀ u items s, R u s (pushResults items s)) ∧
  (∀ u stats s, onProgress (options r) = true →
     R u s (recordCall (OnProgressCall (Closure.completedCount s) (totalUrlsToProcess r) stats)
              s)) ∧
  (∀ u line s, R u s (consoleError line s)).

(** The messages the scheduler logs on its own, outside
    [executeTaskWithRetries]. *)
Definition fromScheduler (m : LogMessage) : bool :=
  match m with
  | MsgStartingTask | MsgOperationAborted | MsgTaskCompleted | MsgRetryableError _ _
  | MsgRetryingIn _ | MsgRetryCancelled | MsgNonRetryable _
  | MsgFinalAttemptFailed _ _ _ => false
  | _ => true
  end.

(** The entries of the log that tell a retryable error (line 179). *)
Definition isRetryEntry (entry : LogEntry) : bool :=
  match logMessage entry with MsgRetryableError _ _ => true | _ => false end.

(** The entries of the log that announce a delay (line 182). *)
Definition isDelayEntry (entry : LogEntry) : bool :=
  match logMessage entry with MsgRetryingIn _ => true | _ => false end.

Definition countEntries (f : LogEntry → bool) (l : list LogEntry) : nat :=
  sum_list_with (λ entry, if f entry then 1 else 0) l.

(** The run with an [isRetryable] that takes every error. *)
Definition retryAll (r : Run) : Run :=
  {| options :=
       {| mode := mode (options r); maxRetries := maxRetries (options r);
          retryDelayMs := retryDelayMs (options r);
          blockResources := blockResources (options r);
          onProgress := onProgress (options r); onError := onError (options r);
          isRetryable := λ _, true; logToConsole := logToConsole (options r) |};
     maxConcurrency := maxConcurrency r;
     urlsToProcess := urlsToProcess r;
     initialUrlCount := initialUrlCount r |}.

(** ** Inputs of the concrete runs *)

Definition timeoutError : Thrown := ThrowError (mkError "TimeoutError" "Navigation timeout").

(** One url, one worker, one retry allowed after 500 ms. *)
Definition oneRetry : ProcessUrlsOptions :=
  {| mode := threads; maxRetries := 1; retryDelayMs := DelayConst 500;
     blockResources := []; onProgress := false; onError := false;
     isRetryable := defaultIsRetryable; logToConsole := true |}.

(** The task times out, the signal is aborted while the coroutine sleeps
    before the retry, and the run winds up. *)
Definition abortDuringDelay : list (Event string) :=
  [At 0 (TaskSettles (Rejected timeoutError)); Abort; At 0 RejectedDelayResumes;
   WorkerResumes 0; MainResumes].

(** The signal is aborted while the task runs, the task times out, the
    delay runs to its end (the abort came before the listener of line 187)
    and the head of the loop sees the abort. *)
Definition abortDuringTask : list (Event string) :=
  [Abort; At 0 (TaskSettles (Rejected timeoutError)); At 0 TimerFires;
   WorkerResumes 0; MainResumes].

(** The defaults, in the portions mode. *)
Definition portionsOptions : ProcessUrlsOptions :=
  {| mode := portions; maxRetries := 0; retryDelayMs := DelayConst 500;
     blockResources := []; onProgress := false; onError := false;
     isRetryable := defaultIsRetryable; logToConsole := true |}.


(** One url; the task times out once and succeeds at the retry. *)
Definition retryThenSuccess : list (Event string) :=
  [At 0 (TaskSettles (Rejected timeoutError)); At 0 TimerFires;
   At 0 (TaskSettles (Resolved ["item"%string])); WorkerResumes 0; MainResumes].

(** Three urls, one of them twice; every task succeeds. *)
Definition duplicateUrls : list string :=
  ["https://a.example"; "https://b.example"; "https://a.example"]%string.

Definition twoSuccesses : list (Event string) :=
  [At 1 (TaskSettles (Resolved ["b"%string])); At 0 (TaskSettles (Resolved ["a"%string]));
   WorkerResumes 0; WorkerResumes 1; MainResumes].

(** ** Inputs of the further concrete runs *)

(** No retry: [isRetryable] refuses every error. *)
Definition neverRetry : ProcessUrlsOptions :=
  {| mode := threads; maxRetries := 2; retryDelayMs := DelayConst 500;
     blockResources := []; onProgress := false; onError := false;
     isRetryable := λ _, false; logToConsole := true |}.

(** The task fails once, for good. *)
Definition oneFailure : list (Event string) :=
  [At 0 (TaskSettles (Rejected timeoutError)); WorkerResumes 0; MainResumes].

(** What follows the abort in the run [abortDuringTask]. *)
Definition afterAbort : list (Event string) :=
  [At 0 (TaskSettles (Rejected timeoutError)); At 0 TimerFires; WorkerResumes 0; MainResumes].

(** Three products: the second has the article number of the first, the
    third has none. *)
Definition firstProduct : ProductActions.ProductData unit :=
  ProductActions.mkProductData "https://a.example/1" "A1" ().

Definition sameArticle : ProductActions.ProductData unit :=
  ProductActions.mkProductData "https://a.example/2" "A1" ().

Definition noArticle : ProductActions.ProductData unit :=
  ProductActions.mkProductData "https://a.example/3" "none" ().

Definition threeProducts : list (ProductActions.ProductData unit) :=
  [noArticle; firstProduct; sameArticle].

Definition threeLinks : list string :=
  ["https://a.example/1"; "https://a.example/2"; "https://a.example/3"]%string.

(** The two distinct urls of [duplicateUrls] are scraped; [onProgress]
    returns after each. *)
Definition twoProducts : list (Event (ProductActions.ProductData unit)) :=
  [At 1 (TaskSettles (Resolved [sameArticle])); At 0 (TaskSettles (Resolved [firstProduct]));
   At 0 (OnProgressSettles false); At 1 (OnProgressSettles false);
   WorkerResumes 0; WorkerResumes 1; MainResumes].

(** One catalog of two pages, and the two runs on it. *)
Definition oneCatalog : list string := ["https://c.example/a"%string].

Definition twoPages : list (Event CatalogActions.MaxPageResult) :=
  [At 0 (TaskSettles (Resolved [CatalogActions.mkMaxPageResult "https://c.example/a" 2]));
   WorkerResumes 0; MainResumes].

Definition twoItems : list CatalogActions.ProductPageData :=
  [CatalogActions.mkProductPageData "https://p.example/1#Opinie" "10" "9";
   CatalogActions.mkProductPageData "https://p.example/1" "11" "8"].

(** Items whose links are numbers and a name of [Object.prototype]. *)
Definition fourItems : list CatalogActions.ProductPageData :=
  [CatalogActions.mkProductPageData "10" "1" "1";
   CatalogActions.mkProductPageData "9#Opinie" "2" "2";
   CatalogActions.mkProductPageData "constructor" "3" "3";
   CatalogActions.mkProductPageData "9" "4" "4"].

Definition pagesScraped : list (Event CatalogActions.ProductPageData) :=
  [At 0 (TaskSettles (Resolved twoItems)); At 0 (OnProgressSettles false); WorkerResumes 0;
   At 0 (TaskSettles (Resolved [])); At 0 (OnProgressSettles false); WorkerResumes 0;
   MainResumes].

(** A date, a log of two entries and the stats of a run. *)
Definition fivePastNine : Terminal.Date := Terminal.mkDate 9 5 3 7 "1/1/2025, 9:05:03 AM".

Definition twoEntries : list Terminal.LogEntry :=
  [Terminal.mkEntry fivePastNine INFO "Starting Concurrent Processing (Mode: threads)"
     None None;
   Terminal.mkEntry fivePastNine ERROR "Non-retryable error: net::ERR_FAILED"
     (Some "https://a.example"%string) (Some 1)].

Definition oneFailed : Terminal.TimedRunStats :=
  Terminal.mkTimedRunStats fivePastNine fivePastNine "1.50" (mkRunStats 1 1 0 1 0).

(** * Sums and predicates over the coroutines of a state *)

Section Coroutine_lists.
Context {T : Type}.
Implicit Types (e : Exec T) (w : Worker T) (ws : list (Worker T)).

Lemma sum_runningExecs (f : Exec T → nat) ws :
  sum_list_with f (runningExecs ws) = sum_list_with (ofWorker f) ws.
Proof. induction ws as [|[e|] ws IH]; simpl; lia. Qed.

Lemma Forall_runningExecs (P : Exec T → Prop) ws :
  Forall P (runningExecs ws) ↔ Forall (onWorker P) ws.
Proof.
  induction ws as [|[e|] ws IH]; simpl.
  - split; constructor.
  - rewrite !Forall_cons. by rewrite IH.
  - rewrite Forall_cons. simpl. tauto.
Qed.

Lemma sum_list_with_insert {A} (f : A → nat) (l : list A) k x y :
  l !! k = Some x →
  sum_list_with f (<[k := y]> l) + f x = sum_list_with f l + f y.
Proof.
  revert k. induction l as [|a l IH]; intros [|k] Hk; simpl in *; try done.
  - injection Hk as ->. lia.
  - specialize (IH k Hk). lia.
Qed.

Lemma sum_list_with_ext {A} (f g : A → nat) (l : list A) :
  (∀ x, f x = g x) → sum_list_with f l = sum_list_with g l.
Proof. intros Hfg. induction l as [|a l IH]; simpl; [done|]. by rewrite Hfg, IH. Qed.

Lemma sum_list_with_fmap {A B} (f : B → nat) (h : A → B) (l : list A) :
  sum_list_with f (h <$> l) = sum_list_with (f ∘ h) l.
Proof. induction l as [|a l IH]; simpl; [done|]. f_equal. exact IH. Qed.

Lemma forallb_isFinished_running ws :
  forallb isFinished ws = true → runningExecs ws = [].
Proof. induction ws as [|[e|] ws IH]; simpl; intros H; try done. by apply IH. Qed.
End Coroutine_lists.


(** * Tactics: the blocks of [executeTaskWithRetries], case by case *)

Ltac unfold_exec :=
  unfold execStep, executeTaskWithRetries, taskSettled, delayRejected, onErrorSettled,
    onProgressSettled, attemptLoop, recordCompletion, reportProgress, newExec, log in *.

Ltac unfold_updates :=
  unfold pushLog, pushResults, pushFailed, incCompleted, incRetries, consoleError,
    recordCall, setPc, setLastError, setTaskResult, incAttempts, setCounts, invokeTask,
    countRetry in *.

Ltac exec_cases :=
  unfold_exec;
  repeat (simpl in *; unfold_updates; simpl in *; case_match; simplify_eq);
  simpl in *.

Ltac bool_hyps :=
  repeat match goal with
  | H : _ && _ = true |- _ => apply andb_true_iff in H as [? ?]
  | H : _ && _ = false |- _ => apply andb_false_iff in H
  | H : (_ <=? _) = true |- _ => apply Nat.leb_le in H
  | H : (_ <=? _) = false |- _ => apply Nat.leb_gt in H
  | H : negb _ = true |- _ => apply negb_true_iff in H
  | H : negb _ = false |- _ => apply negb_false_iff in H
  end.

(** * Properties of the enhanced version *)

(** ** Invariants of a run *)

Section Invariants.
Context {T : Type}.
Variable r : Run.
Implicit Types (s : Closure.t T) (e : Exec T) (ab : bool) (st : State T).
Implicit Types (events : list (Event T)).

(** A property of the state after the call that every event keeps holds
    after every run. *)
Lemma run_invariant (P : State T → Prop) signalAborted events :
  P (processUrlsConcurrentlyInTabs r signalAborted) →
  (∀ st ev, P st → P (step r st ev)) →
  P (run r signalAborted events).
Proof.
  intros Hinit Hstep. unfold run.
  generalize dependent (processUrlsConcurrentlyInTabs (T:=T) r signalAborted).
  induction events as [|ev events IH]; intros st Hst; simpl; auto.
Qed.

(** *** The number of coroutines *)

Lemma launchWorkers_length ab n workerId s q :
  length (launchWorkers r ab n workerId s q).2 = n.
Proof.
  revert workerId s q. induction n as [|n IH]; intros workerId s q; simpl; [done|].
  destruct (startWorker r ab s q workerId) as [[s1 q1] w].
  specialize (IH (S workerId) s1 q1).
  destruct (launchWorkers r ab n (S workerId) s1 q1) as [[s2 q2] ws]. simpl in *. lia.
Qed.

Lemma startChunk_length ab s chunk :
  length (startChunk r ab s chunk).2 = length chunk.
Proof.
  revert s. induction chunk as [|u chunk IH]; intros s; simpl; [done|].
  destruct (executeTaskWithRetries r ab s u) as [s1 e].
  specialize (IH s1). destruct (startChunk r ab s1 chunk) as [s2 es]. simpl in *. lia.
Qed.

Lemma activeExecs_threads_length q (ws : list (Worker T)) :
  length (activeExecs (MThreads q ws)) ≤ length ws.
Proof.
  simpl. induction ws as [|[e|] ws IH]; simpl; lia.
Qed.

Lemma portionsLoop_poolBounded ab s i done : poolBounded r (portionsLoop r ab s i done).
Proof.
  unfold portionsLoop, finish, poolBounded.
  destruct (i <? totalUrlsToProcess r); [|done].
  destruct ab; [done|].
  pose proof (startChunk_length false
    (log INFO (MsgProcessingChunk i (length (take (maxConcurrency r) (drop i (urlsToProcess r)))))
       None None s) (take (maxConcurrency r) (drop i (urlsToProcess r)))) as Hlen.
  destruct (startChunk _ _ _ _) as [s1 es]. simpl in *.
  rewrite Hlen, length_take. lia.
Qed.

Lemma init_poolBounded signalAborted :
  poolBounded r (processUrlsConcurrentlyInTabs (T:=T) r signalAborted).
Proof.
  unfold processUrlsConcurrentlyInTabs.
  destruct signalAborted; [done|].
  destruct (mode (options r)); [apply portionsLoop_poolBounded|].
  match goal with |- context [launchWorkers r false ?n ?i ?s ?q] =>
    pose proof (launchWorkers_length false n i s q) as Hlen;
    destruct (launchWorkers r false n i s q) as [[s1 q1] ws] end.
  unfold poolBounded. simpl in *. lia.
Qed.

Lemma step_poolBounded st ev : poolBounded r st → poolBounded r (step r st ev).
Proof.
  intros Hst. unfold step.
  destruct ev as [|k x|k|], (main st) as [q ws|i es| |] eqn:Hmain; try done.
  - destruct (aborted st); [done|]. unfold poolBounded in *. rewrite Hmain in *. simpl.
    by rewrite length_fmap.
  - destruct (aborted st); [done|]. unfold poolBounded in *. rewrite Hmain in *. simpl.
    by rewrite length_fmap.
  - destruct (ws !! k) as [[e|]|]; try done.
    destruct (execStep r (aborted st) (vars st) e x) as [[s e']|]; [|done].
    unfold poolBounded in *. rewrite Hmain in *. simpl. by rewrite length_insert.
  - destruct (es !! k) as [e|]; try done.
    destruct (execStep r (aborted st) (vars st) e x) as [[s e']|]; [|done].
    unfold poolBounded in *. rewrite Hmain in *. simpl. by rewrite length_insert.
  - destruct (ws !! k) as [[e|]|]; try done.
    destruct (isSettled e); [|done].
    destruct (workerLoop r (aborted st) (vars st) q (S k)) as [[s q'] w].
    unfold poolBounded in *. rewrite Hmain in *. simpl. by rewrite length_insert.
  - destruct (forallb isFinished ws); done.
  - destruct (forallb isSettled es); [|done]. apply portionsLoop_poolBounded.
Qed.

Lemma poolBounded_bounded st : poolBounded r st → bounded r st.
Proof.
  unfold poolBounded, bounded. destruct (main st) as [q ws|i es| |]; simpl; try lia.
  intros H. pose proof (activeExecs_threads_length q ws). simpl in *. lia.
Qed.

Lemma inFlight_le_active st : inFlight st ≤ length (activeExecs (main st)).
Proof. unfold inFlight. apply length_filter. Qed.

(** C2.  In both modes and at every point of every run, at most
    [maxConcurrency] calls of the task function are in flight. *)
Theorem in_flight_bounded signalAborted (events : list (Event T)) :
  inFlight (run r signalAborted events) ≤ maxConcurrency r.
Proof.
  pose proof (inFlight_le_active (run r signalAborted events)) as Hle.
  assert (bounded r (run r signalAborted events)) as Hb.
  { apply poolBounded_bounded, run_invariant.
    - apply init_poolBounded.
    - intros st ev. apply step_poolBounded. }
  unfold bounded in Hb. lia.
Qed.

(** *** The cases of a step *)

(** A relation between a state and its successor holds for every event
    when it holds for each block of code an event can resume. *)
Lemma step_cases (P : State T → State T → Prop) :
  (∀ st, P st st) →
  (∀ st q ws, main st = MThreads q ws → aborted st = false →
     P st (mkState (vars st) true (MThreads q (rejectDelayW <$> ws)) (retired st))) →
  (∀ st i es, main st = MPortions i es → aborted st = false →
     P st (mkState (vars st) true (MPortions i (rejectDelay <$> es)) (retired st))) →
  (∀ st q ws k e x s e', main st = MThreads q ws → ws !! k = Some (Running e) →
     execStep r (aborted st) (vars st) e x = Some (s, e') →
     P st (mkState s (aborted st) (MThreads q (<[k := Running e']> ws)) (retired st))) →
  (∀ st i es k e x s e', main st = MPortions i es → es !! k = Some e →
     execStep r (aborted st) (vars st) e x = Some (s, e') →
     P st (mkState s (aborted st) (MPortions i (<[k := e']> es)) (retired st))) →
  (∀ st q ws k e s q' w, main st = MThreads q ws → ws !! k = Some (Running e) →
     isSettled e = true →
     workerLoop r (aborted st) (vars st) q (S k) = (s, q', w) →
     P st (mkState s (aborted st) (MThreads q' (<[k := w]> ws)) (retired st ++ [e]))) →
  (∀ st q ws, main st = MThreads q ws → forallb isFinished ws = true →
     P st (finish r (aborted st) (log INFO MsgAllWorkersFinished None None (vars st))
             (retired st))) →
  (∀ st i es, main st = MPortions i es → forallb isSettled es = true →
     P st (portionsLoop r (aborted st) (log INFO (MsgFinishedChunk i) None None (vars st))
             (i + maxConcurrency r) (retired st ++ es))) →
  ∀ st ev, P st (step r st ev).
Proof.
  intros Hsame HabT HabP HexT HexP Hworker HmainT HmainP st ev. unfold step.
  destruct ev as [|k x|k|], (main st) as [q ws|i es| |] eqn:Hmain; try apply Hsame.
  - destruct (aborted st) eqn:Hab; [apply Hsame|]. simpl. by apply HabT.
  - destruct (aborted st) eqn:Hab; [apply Hsame|]. simpl. by apply HabP.
  - destruct (ws !! k) as [[e|]|] eqn:Hk; try apply Hsame.
    destruct (execStep r (aborted st) (vars st) e x) as [[s e']|] eqn:Hx; [|apply Hsame].
    by eapply HexT.
  - destruct (es !! k) as [e|] eqn:Hk; try apply Hsame.
    destruct (execStep r (aborted st) (vars st) e x) as [[s e']|] eqn:Hx; [|apply Hsame].
    by eapply HexP.
  - destruct (ws !! k) as [[e|]|] eqn:Hk; try apply Hsame.
    destruct (isSettled e) eqn:He; [|apply Hsame].
    destruct (workerLoop r (aborted st) (vars st) q (S k)) as [[s q'] w] eqn:Hw.
    by eapply Hworker.
  - destruct (forallb isFinished ws) eqn:Hall; [|apply Hsame]. by eapply HmainT.
  - destruct (forallb isSettled es) eqn:Hall; [|apply Hsame]. by eapply HmainP.
Qed.

(** *** A counter and the coroutines it counts

    [g] reads a counter in the shared variables and [f] the share of one
    coroutine in it.  When every block of code moves the two together, the
    counter is the sum of the shares over all the coroutines of the run. *)
Section Balance.
Variable f : Exec T → nat.
Variable g : Closure.t T → nat.
Hypothesis g_pushLog : ∀ entry s, g (pushLog entry s) = g s.
Hypothesis g_empty : g Closure.empty = 0.
Hypothesis f_rejectDelay : ∀ e, f (rejectDelay e) = f e.
Hypothesis execStep_balance : ∀ ab s e x s' e',
  execStep r ab s e x = Some (s', e') → g s' + f e = g s + f e'.
Hypothesis start_balance : ∀ ab s u s' e',
  executeTaskWithRetries r ab s u = (s', e') → g s' = g s + f e'.

Lemma g_log lv m u a s : g (log lv m u a s) = g s.
Proof. apply g_pushLog. Qed.

Lemma workerLoop_balance ab s q workerId s' q' w :
  workerLoop r ab s q workerId = (s', q', w) → g s' = g s + ofWorker f w.
Proof.
  unfold workerLoop. destruct q as [|u rest].
  - intros [= <- <- <-]. rewrite g_log. simpl. lia.
  - destruct ab.
    + intros [= <- <- <-]. rewrite !g_log. simpl. lia.
    + destruct (String.eqb u "").
      * intros [= <- <- <-]. rewrite g_log. simpl. lia.
      * destruct (executeTaskWithRetries _ _ _ _) as [s1 e1] eqn:Hstart.
        intros [= <- <- <-]. apply start_balance in Hstart.
        rewrite g_log in Hstart. simpl. lia.
Qed.

Lemma launchWorkers_balance ab n workerId s q s' q' ws :
  launchWorkers r ab n workerId s q = (s', q', ws) →
  g s' = g s + sum_list_with (ofWorker f) ws.
Proof.
  revert workerId s q s' q' ws.
  induction n as [|n IH]; intros workerId s q s' q' ws; simpl.
  - intros [= <- <- <-]. simpl. lia.
  - destruct (startWorker r ab s q workerId) as [[s1 q1] w] eqn:Hw.
    destruct (launchWorkers r ab n (S workerId) s1 q1) as [[s2 q2] ws2] eqn:Hrest.
    intros [= <- <- <-]. apply IH in Hrest.
    unfold startWorker in Hw. apply workerLoop_balance in Hw.
    rewrite g_log in Hw. simpl. lia.
Qed.

Lemma startChunk_balance ab s chunk s' es :
  startChunk r ab s chunk = (s', es) → g s' = g s + sum_list_with f es.
Proof.
  revert s s' es. induction chunk as [|u chunk IH]; intros s s' es; simpl.
  - intros [= <- <-]. simpl. lia.
  - destruct (executeTaskWithRetries r ab s u) as [s1 e1] eqn:Hstart.
    destruct (startChunk r ab s1 chunk) as [s2 es2] eqn:Hrest.
    intros [= <- <-]. apply IH in Hrest. apply start_balance in Hstart. simpl. lia.
Qed.

Lemma finish_balanced ab s done :
  g s = sum_list_with f done → balanced f g (finish r ab s done).
Proof.
  intros Hs. unfold finish, balanced, allExecs. simpl.
  rewrite app_nil_r. destruct ab; by rewrite g_log.
Qed.

Lemma portionsLoop_balanced ab s i done :
  g s = sum_list_with f done → balanced f g (portionsLoop r ab s i done).
Proof.
  intros Hs. unfold portionsLoop.
  destruct (i <? totalUrlsToProcess r); [|by apply finish_balanced].
  destruct ab; [apply finish_balanced; by rewrite g_log|].
  destruct (startChunk _ _ _ _) as [s1 es] eqn:Hchunk.
  apply startChunk_balance in Hchunk. rewrite g_log in Hchunk.
  unfold balanced, allExecs. simpl. rewrite sum_list_with_app. lia.
Qed.

Lemma init_balanced signalAborted :
  balanced f g (processUrlsConcurrentlyInTabs r signalAborted).
Proof.
  unfold processUrlsConcurrentlyInTabs.
  set (s0 := match blockResources (options r) with [] => _ | _ => _ end).
  assert (g s0 = 0) as Hs0.
  { subst s0. destruct (blockResources (options r)); by rewrite !g_log, g_empty. }
  destruct signalAborted.
  - unfold balanced, allExecs. simpl. by rewrite g_log.
  - destruct (mode (options r)).
    + apply portionsLoop_balanced. simpl. exact Hs0.
    + destruct (launchWorkers _ _ _ _ _ _) as [[s1 q1] ws] eqn:Hlaunch.
      apply launchWorkers_balance in Hlaunch. rewrite g_log in Hlaunch.
      unfold balanced, allExecs. simpl. rewrite sum_runningExecs. lia.
Qed.

Lemma step_balanced st ev : balanced f g st → balanced f g (step r st ev).
Proof.
  revert st ev. apply (step_cases (λ st st', balanced f g st → balanced f g st')); try done.
  - intros st q ws Hmain Hab. unfold balanced, allExecs. rewrite Hmain. simpl.
    rewrite !sum_list_with_app, !sum_runningExecs, sum_list_with_fmap. intros ->.
    f_equal. apply sum_list_with_ext. intros [e|]; simpl; [|done]. by rewrite f_rejectDelay.
  - intros st i es Hmain Hab. unfold balanced, allExecs. rewrite Hmain. simpl.
    rewrite !sum_list_with_app, sum_list_with_fmap. intros ->.
    f_equal. apply sum_list_with_ext. intros e. simpl. by rewrite f_rejectDelay.
  - intros st q ws k e x s e' Hmain Hk Hx. unfold balanced, allExecs. rewrite Hmain. simpl.
    rewrite !sum_list_with_app, !sum_runningExecs. intros Hst.
    apply execStep_balance in Hx.
    pose proof (sum_list_with_insert (ofWorker f) ws k (Running e) (Running e') Hk) as Hins.
    simpl in Hins. lia.
  - intros st i es k e x s e' Hmain Hk Hx. unfold balanced, allExecs. rewrite Hmain. simpl.
    rewrite !sum_list_with_app. intros Hst.
    apply execStep_balance in Hx.
    pose proof (sum_list_with_insert f es k e e' Hk) as Hins. lia.
  - intros st q ws k e s q' w Hmain Hk He Hw. unfold balanced, allExecs. rewrite Hmain. simpl.
    rewrite !sum_list_with_app, !sum_runningExecs. intros Hst.
    apply workerLoop_balance in Hw.
    pose proof (sum_list_with_insert (ofWorker f) ws k (Running e) w Hk) as Hins.
    simpl in *. lia.
  - intros st q ws Hmain Hall. unfold balanced at 1, allExecs. rewrite Hmain. simpl.
    rewrite (forallb_isFinished_running ws Hall), app_nil_r. intros Hst.
    apply finish_balanced. by rewrite g_log.
  - intros st i es Hmain Hall. unfold balanced at 1, allExecs. rewrite Hmain. simpl. intros Hst.
    apply portionsLoop_balanced. by rewrite g_log.
Qed.

Lemma run_balanced signalAborted events : balanced f g (run r signalAborted events).
Proof. apply run_invariant; [apply init_balanced | intros st ev; apply step_balanced]. Qed.
End Balance.

(** *** A property of every coroutine

    [P ab e]: the property of coroutine [e] when the abort flag is [ab]. *)
Section Each.
Variable P : bool → Exec T → Prop.
Hypothesis P_aborted : ∀ e, P false e → P true e.
Hypothesis P_rejectDelay : ∀ e, P true e → P true (rejectDelay e).
Hypothesis execStep_P : ∀ ab s e x s' e',
  P ab e → execStep r ab s e x = Some (s', e') → P ab e'.
Hypothesis start_P : ∀ ab s u s' e',
  executeTaskWithRetries r ab s u = (s', e') → P ab e'.

Lemma workerLoop_each ab s q workerId s' q' w :
  workerLoop r ab s q workerId = (s', q', w) → onWorker (P ab) w.
Proof.
  unfold workerLoop. destruct q as [|u rest]; [by intros [= <- <- <-]|].
  destruct ab; [by intros [= <- <- <-]|].
  destruct (String.eqb u ""); [by intros [= <- <- <-]|].
  destruct (executeTaskWithRetries _ _ _ _) as [s1 e1] eqn:Hstart.
  intros [= <- <- <-]. simpl. by eapply start_P.
Qed.

Lemma launchWorkers_each ab n workerId s q s' q' ws :
  launchWorkers r ab n workerId s q = (s', q', ws) → Forall (onWorker (P ab)) ws.
Proof.
  revert workerId s q s' q' ws.
  induction n as [|n IH]; intros workerId s q s' q' ws; simpl.
  - intros [= <- <- <-]. constructor.
  - destruct (startWorker r ab s q workerId) as [[s1 q1] w] eqn:Hw.
    destruct (launchWorkers r ab n (S workerId) s1 q1) as [[s2 q2] ws2] eqn:Hrest.
    intros [= <- <- <-]. constructor; [|by eapply IH].
    unfold startWorker in Hw. by eapply workerLoop_each.
Qed.

Lemma startChunk_each ab s chunk s' es :
  startChunk r ab s chunk = (s', es) → Forall (P ab) es.
Proof.
  revert s s' es. induction chunk as [|u chunk IH]; intros s s' es; simpl.
  - intros [= <- <-]. constructor.
  - destruct (executeTaskWithRetries r ab s u) as [s1 e1] eqn:Hstart.
    destruct (startChunk r ab s1 chunk) as [s2 es2] eqn:Hrest.
    intros [= <- <-]. constructor; [by eapply start_P | by eapply IH].
Qed.

Lemma finish_each ab s done : Forall (P ab) done → eachExec P (finish r ab s done).
Proof. intros Hdone. unfold finish, eachExec, allExecs. simpl. by rewrite app_nil_r. Qed.

Lemma portionsLoop_each ab s i done :
  Forall (P ab) done → eachExec P (portionsLoop r ab s i done).
Proof.
  intros Hdone. unfold portionsLoop.
  destruct (i <? totalUrlsToProcess r); [|by apply finish_each].
  destruct ab; [by apply finish_each|].
  destruct (startChunk _ _ _ _) as [s1 es] eqn:Hchunk.
  apply startChunk_each in Hchunk.
  unfold eachExec, allExecs. simpl. by apply Forall_app.
Qed.

Lemma init_each signalAborted : eachExec P (processUrlsConcurrentlyInTabs r signalAborted).
Proof.
  unfold processUrlsConcurrentlyInTabs.
  destruct signalAborted; [constructor|].
  destruct (mode (options r)); [apply portionsLoop_each; constructor|].
  destruct (launchWorkers _ _ _ _ _ _) as [[s1 q1] ws] eqn:Hlaunch.
  apply launchWorkers_each in Hlaunch.
  unfold eachExec, allExecs. simpl. by apply Forall_runningExecs.
Qed.

Lemma step_each st ev : eachExec P st → eachExec P (step r st ev).
Proof.
  revert st ev. apply (step_cases (λ st st', eachExec P st → eachExec P st')); try done.
  - intros st q ws Hmain Hab. unfold eachExec, allExecs. rewrite Hmain, Hab. simpl.
    rewrite !Forall_app, !Forall_runningExecs, Forall_fmap. intros [Hret Hws].
    split; (eapply Forall_impl; [eassumption|]); [by auto|].
    intros [e|]; simpl; [|done]. by auto.
  - intros st i es Hmain Hab. unfold eachExec, allExecs. rewrite Hmain, Hab. simpl.
    rewrite !Forall_app, Forall_fmap. intros [Hret Hes].
    split; (eapply Forall_impl; [eassumption|]); simpl; by auto.
  - intros st q ws k e x s e' Hmain Hk Hx. unfold eachExec, allExecs. rewrite Hmain. simpl.
    rewrite !Forall_app, !Forall_runningExecs. intros [Hret Hws]. split; [done|].
    apply Forall_insert; [done|]. simpl.
    eapply execStep_P; [|exact Hx]. by apply (Forall_lookup_1 _ _ _ _ Hws Hk).
  - intros st i es k e x s e' Hmain Hk Hx. unfold eachExec, allExecs. rewrite Hmain. simpl.
    rewrite !Forall_app. intros [Hret Hes]. split; [done|].
    apply Forall_insert; [done|].
    eapply execStep_P; [|exact Hx]. by apply (Forall_lookup_1 _ _ _ _ Hes Hk).
  - intros st q ws k e s q' w Hmain Hk He Hw. unfold eachExec, allExecs. rewrite Hmain. simpl.
    rewrite !Forall_app, !Forall_runningExecs. intros [Hret Hws].
    split; [split; [done|]|].
    + constructor; [|constructor]. by apply (Forall_lookup_1 _ _ _ _ Hws Hk).
    + apply Forall_insert; [done|]. by eapply workerLoop_each.
  - intros st q ws Hmain Hall. unfold eachExec at 1, allExecs. rewrite Hmain. simpl.
    rewrite Forall_app. intros [Hret _]. by apply finish_each.
  - intros st i es Hmain Hall. unfold eachExec at 1, allExecs. rewrite Hmain. simpl.
    intros Hst. by apply portionsLoop_each.
Qed.

Lemma run_each signalAborted events : eachExec P (run r signalAborted events).
Proof. apply run_invariant; [apply init_each | intros st ev; apply step_each]. Qed.
End Each.

(** *** What the blocks of [executeTaskWithRetries] do to the counters *)

Lemma execStep_retries ab s e x s' e' :
  execStep r ab s e x = Some (s', e') →
  Closure.totalRetriesMade s' + retriesCounted e = Closure.totalRetriesMade s + retriesCounted e'.
Proof. destruct e, s. intros H. exec_cases; lia. Qed.

Lemma start_retries ab s u s' e' :
  executeTaskWithRetries r ab s u = (s', e') →
  Closure.totalRetriesMade s' = Closure.totalRetriesMade s + retriesCounted e'.
Proof. destruct s. intros H. exec_cases; lia. Qed.

Lemma execStep_counted ab s e x s' e' :
  execStep r ab s e x = Some (s', e') →
  Closure.completedCount s' + counted e = Closure.completedCount s + counted e'.
Proof. destruct e, s. intros H. unfold counted. exec_cases; lia. Qed.

Lemma start_counted ab s u s' e' :
  executeTaskWithRetries r ab s u = (s', e') →
  Closure.completedCount s' = Closure.completedCount s + counted e'.
Proof. destruct s. intros H. unfold counted. exec_cases; lia. Qed.

Lemma execStep_failed ab s e x s' e' :
  execStep r ab s e x = Some (s', e') →
  length (Closure.failedTasks s') + countedFailed e
  = length (Closure.failedTasks s) + countedFailed e'.
Proof.
  destruct e, s. intros H. unfold countedFailed, failedNotAborted.
  exec_cases; rewrite ?length_app; simpl; lia.
Qed.

Lemma start_failed ab s u s' e' :
  executeTaskWithRetries r ab s u = (s', e') →
  length (Closure.failedTasks s') = length (Closure.failedTasks s) + countedFailed e'.
Proof.
  destruct s. intros H. unfold countedFailed, failedNotAborted.
  exec_cases; rewrite ?length_app; simpl; lia.
Qed.

Lemma execInv_aborted e : execInv r false e → execInv r true e.
Proof. unfold execInv. destruct (pc e); intuition (try lia; try congruence). Qed.

Lemma execInv_rejectDelay e : execInv r true e → execInv r true (rejectDelay e).
Proof.
  unfold execInv, rejectDelay. destruct e as [? ? ? ? ? ? [] ? ?]; simpl; intuition.
Qed.

Lemma execStep_execInv ab s e x s' e' :
  execInv r ab e → execStep r ab s e x = Some (s', e') → execInv r ab e'.
Proof.
  destruct e, s. unfold execInv. intros Hinv H.
  exec_cases; bool_hyps; intuition (try lia; try congruence).
Qed.

Lemma start_execInv ab s u s' e' :
  executeTaskWithRetries r ab s u = (s', e') → execInv r ab e'.
Proof.
  destruct s. unfold execInv. intros H.
  exec_cases; intuition (try lia; try congruence).
Qed.

(** The four facts, for every run. *)
Lemma run_retries signalAborted events :
  let st := run r signalAborted events in
  Closure.totalRetriesMade (vars st) = sum_list_with retriesCounted (allExecs st).
Proof.
  apply (run_balanced retriesCounted Closure.totalRetriesMade); try done.
  - intros e. unfold rejectDelay. by destruct e as [? ? ? ? ? ? [] ? ?].
  - apply execStep_retries.
  - apply start_retries.
Qed.

Lemma run_counted signalAborted events :
  let st := run r signalAborted events in
  Closure.completedCount (vars st) = sum_list_with counted (allExecs st).
Proof.
  apply (run_balanced counted Closure.completedCount); try done.
  - intros e. unfold rejectDelay, counted. by destruct e as [? ? ? ? ? ? [] ? ?].
  - apply execStep_counted.
  - apply start_counted.
Qed.

Lemma run_failed signalAborted events :
  let st := run r signalAborted events in
  length (Closure.failedTasks (vars st)) = sum_list_with countedFailed (allExecs st).
Proof.
  apply (run_balanced countedFailed (λ s, length (Closure.failedTasks s))); try done.
  - intros e. unfold rejectDelay, countedFailed. by destruct e as [? ? ? ? ? ? [] ? ?].
  - apply execStep_failed.
  - apply start_failed.
Qed.

Lemma run_execInv signalAborted events :
  let st := run r signalAborted events in
  Forall (execInv r (aborted st)) (allExecs st).
Proof.
  apply (run_each (execInv r)).
  - apply execInv_aborted.
  - apply execInv_rejectDelay.
  - apply execStep_execInv.
  - apply start_execInv.
Qed.

(** *** Which items have been dispatched *)

Lemma execStep_url ab s e x s' e' :
  execStep r ab s e x = Some (s', e') → url e' = url e.
Proof. destruct e, s. intros H. by exec_cases. Qed.

Lemma start_url ab s u s' e' :
  executeTaskWithRetries r ab s u = (s', e') → url e' = u.
Proof. destruct s. intros H. by exec_cases. Qed.

Lemma rejectDelay_url e : url (rejectDelay e) = url e.
Proof. unfold rejectDelay. by destruct e as [? ? ? ? ? ? [] ? ?]. Qed.

Lemma occ_app u l1 l2 : occ u (l1 ++ l2) = occ u l1 + occ u l2.
Proof. apply count_occ_app. Qed.

Lemma occ_nil u : occ u [] = 0.
Proof. done. Qed.

Lemma occ_cons u v l : occ u (v :: l) = (if string_dec v u then 1 else 0) + occ u l.
Proof. unfold occ. simpl. by destruct (string_dec v u). Qed.

Lemma occ_self u l : 0 < occ u (u :: l).
Proof. rewrite occ_cons. destruct (string_dec u u); [lia|done]. Qed.

Lemma hits_eq u e : hits u e = if string_dec (url e) u then 1 else 0.
Proof. unfold hits. rewrite occ_cons, occ_nil. lia. Qed.

Lemma occ_urls u (l : list (Exec T)) : occ u (url <$> l) = sum_list_with (hits u) l.
Proof.
  induction l as [|e l IH]; [done|]. rewrite fmap_cons, occ_cons, IH. simpl.
  by rewrite hits_eq.
Qed.

Lemma occ_pos_elem u l : 0 < occ u l → u ∈ l.
Proof. intros H. apply list_elem_of_In. by apply (count_occ_In string_dec). Qed.

(** What a pass of the worker loop takes from the queue: nothing, an empty
    string that it drops, or the url it dispatches. *)
Lemma workerLoop_queue ab s q workerId s' q' w :
  workerLoop r ab s q workerId = (s', q', w) →
  ∃ dropped,
    Forall (λ v, v = ""%string) dropped ∧
    (∀ u, ofWorker (hits u) w + occ u dropped + occ u q' = occ u q) ∧
    (ab = false → dropped = [] → q' ≠ [] → isRunning w) ∧
    (q = [] → q' = []).
Proof.
  unfold workerLoop. destruct q as [|v rest].
  - intros [= <- <- <-]. exists []. by repeat split.
  - destruct ab.
    + intros [= <- <- <-]. exists []. repeat split; try done.
    + destruct (String.eqb v "") eqn:Hv.
      * intros [= <- <- <-]. apply String.eqb_eq in Hv as ->.
        exists [""%string]. repeat split; try done.
        -- by repeat constructor.
        -- intros u. simpl. rewrite !occ_cons, occ_nil. lia.
      * destruct (executeTaskWithRetries _ _ _ _) as [s1 e1] eqn:Hstart.
        intros [= <- <- <-]. apply start_url in Hstart.
        exists []. repeat split; try done.
        intros u. simpl. rewrite hits_eq, Hstart, !occ_cons, !occ_nil. lia.
Qed.

Lemma launchWorkers_queue n workerId s q s' q' ws :
  launchWorkers r false n workerId s q = (s', q', ws) →
  ∃ dropped,
    Forall (λ v, v = ""%string) dropped ∧
    (∀ u, sum_list_with (ofWorker (hits u)) ws + occ u dropped + occ u q' = occ u q) ∧
    (dropped = [] → q' ≠ [] → Forall isRunning ws).
Proof.
  revert workerId s q s' q' ws.
  induction n as [|n IH]; intros workerId s q s' q' ws; simpl.
  - intros [= <- <- <-]. exists []. repeat split; try done.
  - destruct (startWorker r false s q workerId) as [[s1 q1] w] eqn:Hw.
    destruct (launchWorkers r false n (S workerId) s1 q1) as [[s2 q2] ws2] eqn:Hrest.
    intros [= <- <- <-].
    apply IH in Hrest as (d2 & Hd2 & Hocc2 & Hrun2).
    unfold startWorker in Hw. apply workerLoop_queue in Hw as (d1 & Hd1 & Hocc1 & Hrun1 & _).
    exists (d1 ++ d2). split; [by apply Forall_app|]. split.
    + intros u. specialize (Hocc1 u). specialize (Hocc2 u).
      rewrite occ_app. simpl. lia.
    + intros Hd Hq. apply app_eq_nil in Hd as [-> ->].
      specialize (Hrun2 eq_refl Hq).
      constructor; [|done].
      apply Hrun1; [done|done|]. intros ->.
      destruct q2 as [|v q2]; [done|]. specialize (Hocc2 v).
      pose proof (occ_self v q2). rewrite occ_nil in Hocc2. lia.
Qed.

Lemma startChunk_urls ab s chunk s' es :
  startChunk r ab s chunk = (s', es) → url <$> es = chunk.
Proof.
  revert s s' es. induction chunk as [|u chunk IH]; intros s s' es; simpl.
  - by intros [= <- <-].
  - destruct (executeTaskWithRetries r ab s u) as [s1 e1] eqn:Hstart.
    destruct (startChunk r ab s1 chunk) as [s2 es2] eqn:Hrest.
    intros [= <- <-]. apply IH in Hrest. apply start_url in Hstart.
    rewrite fmap_cons. by rewrite Hstart, Hrest.
Qed.

Lemma portionsLoop_dispatchInv ab s i done :
  url <$> done = take i (urlsToProcess r) →
  dispatchInv r (portionsLoop r ab s i done).
Proof.
  intros Hdone. unfold portionsLoop, finish, dispatchInv.
  destruct (i <? totalUrlsToProcess r) eqn:Hi; simpl.
  - destruct ab; simpl.
    + exists (drop i (urlsToProcess r)). split; [|by auto].
      intros u. by rewrite Hdone, <- occ_app, take_drop.
    + destruct (startChunk _ _ _ _) as [s1 es] eqn:Hchunk. simpl.
      apply startChunk_urls in Hchunk. done.
  - exists []. split; [|by auto].
    intros u. rewrite Hdone. apply Nat.ltb_ge in Hi.
    rewrite take_ge by done. rewrite occ_nil. lia.
Qed.

Lemma init_dispatchInv signalAborted :
  dispatchInv r (processUrlsConcurrentlyInTabs (T:=T) r signalAborted).
Proof.
  unfold processUrlsConcurrentlyInTabs.
  destruct signalAborted; [done|].
  destruct (mode (options r)) eqn:Hmode; [by apply portionsLoop_dispatchInv|].
  match goal with |- context [launchWorkers r false ?n ?i ?s ?q] =>
    pose proof (launchWorkers_length false n i s q) as Hlen;
    destruct (launchWorkers r false n i s q) as [[s1 q1] ws] eqn:Hlaunch end.
  apply launchWorkers_queue in Hlaunch as (dropped & Hd & Hocc & Hrun).
  unfold dispatchInv, allExecs. simpl in *. split; [done|]. split; [done|].
  exists dropped. split; [done|]. split; [|by auto].
  intros u. rewrite occ_urls, sum_runningExecs. apply Hocc.
Qed.

Lemma hits_url u e e' : url e' = url e → hits u e' = hits u e.
Proof. intros H. by rewrite !hits_eq, H. Qed.

Lemma finished_not_running (ws : list (Worker T)) :
  forallb isFinished ws = true → Forall isRunning ws → ws = [].
Proof.
  destruct ws as [|[e|] ws]; simpl; [done|done|].
  intros _ Hrun. by apply Forall_cons in Hrun as [? _].
Qed.

Lemma step_dispatchInv st ev : dispatchInv r st → dispatchInv r (step r st ev).
Proof.
  revert st ev. apply (step_cases (λ st st', dispatchInv r st → dispatchInv r st')); try done.
  - intros st q ws Hmain Hab. unfold dispatchInv, allExecs. rewrite Hmain. simpl.
    intros (Hmode & Hlen & dropped & Hd & Hocc & Hrun). split; [done|].
    split; [by rewrite length_fmap|]. exists dropped. split; [done|]. split; [|done].
    intros u. rewrite <- (Hocc u), !occ_urls, !sum_list_with_app, !sum_runningExecs.
    rewrite sum_list_with_fmap. do 3 f_equal.
    apply sum_list_with_ext. intros [e|]; simpl; [|done]. apply hits_url, rejectDelay_url.
  - intros st i es Hmain Hab. unfold dispatchInv. rewrite Hmain. simpl.
    intros [Hret Hes]. split; [done|]. rewrite <- Hes, <- list_fmap_compose.
    apply list_fmap_ext. intros ? e ?. simpl. apply rejectDelay_url.
  - intros st q ws k e x s e' Hmain Hk Hx. unfold dispatchInv, allExecs. rewrite Hmain. simpl.
    intros (Hmode & Hlen & dropped & Hd & Hocc & Hrun). split; [done|].
    split; [by rewrite length_insert|]. exists dropped. split; [done|]. split.
    + intros u. rewrite <- (Hocc u), !occ_urls, !sum_list_with_app, !sum_runningExecs.
      pose proof (sum_list_with_insert (ofWorker (hits u)) ws k (Running e) (Running e') Hk)
        as Hins.
      simpl in Hins. rewrite (hits_url u e e') in Hins by (by eapply execStep_url). lia.
    + intros Hab Hdr Hq. apply Forall_insert; [by apply Hrun|done].
  - intros st i es k e x s e' Hmain Hk Hx. unfold dispatchInv. rewrite Hmain. simpl.
    intros [Hret Hes]. split; [done|]. rewrite <- Hes, list_fmap_insert.
    apply list_insert_id. rewrite list_lookup_fmap, Hk. simpl.
    f_equal. symmetry. by eapply execStep_url.
  - intros st q ws k e s q' w Hmain Hk He Hw. unfold dispatchInv, allExecs. rewrite Hmain.
    simpl. intros (Hmode & Hlen & dropped & Hd & Hocc & Hrun).
    apply workerLoop_queue in Hw as (d1 & Hd1 & Hocc1 & Hrun1 & Hnil). split; [done|].
    split; [by rewrite length_insert|]. exists (dropped ++ d1).
    split; [by apply Forall_app|]. split.
    + intros u. rewrite <- (Hocc u), !occ_urls, !sum_list_with_app, !sum_runningExecs, occ_app.
      pose proof (sum_list_with_insert (ofWorker (hits u)) ws k (Running e) w Hk) as Hins.
      specialize (Hocc1 u). simpl in *. lia.
    + intros Hab Hdr Hq. apply app_eq_nil in Hdr as [-> ->].
      apply Forall_insert; [|by apply Hrun1].
      apply Hrun; [done|done|]. intros ->. by apply Hq, Hnil.
  - intros st q ws Hmain Hall. unfold dispatchInv at 1, allExecs. rewrite Hmain. simpl.
    intros (Hmode & Hlen & dropped & Hd & Hocc & Hrun).
    rewrite (forallb_isFinished_running ws Hall), app_nil_r in Hocc.
    unfold finish, dispatchInv. simpl. exists (dropped ++ q). split.
    { intros u. rewrite occ_app. specialize (Hocc u). lia. }
    destruct (aborted st); [by auto|].
    destruct dropped as [|d dropped].
    + destruct q as [|v q]; [by left|].
      rewrite (finished_not_running ws Hall) in Hlen by (by apply Hrun).
      simpl in Hlen. right; right. split; [done|].
      destruct (maxConcurrency r) as [|c]; [by left|].
      unfold totalUrlsToProcess in Hlen.
      destruct (urlsToProcess r) as [|v0 l0]; [|done].
      specialize (Hocc v). pose proof (occ_self v q). rewrite !occ_nil in Hocc. lia.
    + apply Forall_cons in Hd as [-> _]. right; right. split; [done|]. right.
      apply occ_pos_elem. specialize (Hocc ""%string).
      pose proof (occ_self "" dropped). lia.
  - intros st i es Hmain Hall. unfold dispatchInv at 1. rewrite Hmain.
    intros [Hret Hes]. apply portionsLoop_dispatchInv.
    by rewrite fmap_app, Hret, Hes, take_take_drop.
Qed.

Lemma run_dispatchInv signalAborted events : dispatchInv r (run r signalAborted events).
Proof.
  apply run_invariant; [apply init_dispatchInv | intros st ev; apply step_dispatchInv].
Qed.

(** *** The coroutines whose promise has been consumed have returned *)

Lemma isSettled_pc e : isSettled e = true → pc e = Settled.
Proof. unfold isSettled. by destruct (pc e). Qed.

Lemma finish_retiredSettled ab s done :
  Forall (λ e, pc e = Settled) done → retiredSettled (finish r ab s done).
Proof. done. Qed.

Lemma portionsLoop_retiredSettled ab s i done :
  Forall (λ e, pc e = Settled) done → retiredSettled (portionsLoop r ab s i done).
Proof.
  intros Hdone. unfold portionsLoop.
  destruct (i <? totalUrlsToProcess r); [|done].
  destruct ab; [done|]. by destruct (startChunk _ _ _ _).
Qed.

Lemma run_retiredSettled signalAborted events :
  retiredSettled (run r signalAborted events).
Proof.
  apply run_invariant.
  - unfold processUrlsConcurrentlyInTabs.
    destruct signalAborted; [constructor|].
    destruct (mode (options r)); [apply portionsLoop_retiredSettled; constructor|].
    destruct (launchWorkers _ _ _ _ _ _) as [[s1 q1] ws]. constructor.
  - apply (step_cases (λ st st', retiredSettled st → retiredSettled st')); try done.
    + intros st q ws k e s q' w Hmain Hk He Hw Hst. unfold retiredSettled in *. simpl.
      apply Forall_app. split; [done|]. constructor; [by apply isSettled_pc|constructor].
    + intros st i es Hmain Hall Hst. apply portionsLoop_retiredSettled.
      apply Forall_app. split; [done|].
      pose proof (proj1 (forallb_forall _ _) Hall) as Hall'.
      apply Forall_forall. intros e He.
      apply isSettled_pc, Hall'. by apply list_elem_of_In.
Qed.

(** *** The state when the function has returned *)

Lemma result_Some st res :
  result r st = Some res →
  (main st = MReturned ∧ stats res = finalStats r (vars st) ∧
   successfulResults res = Closure.successfulResults (vars st) ∧
   failedTasks res = Closure.failedTasks (vars st)) ∨
  (main st = MAbortedBeforeStart ∧ stats res = mkRunStats (initialUrlCount r) 0 0 0 0 ∧
   successfulResults res = [] ∧
   failedTasks res = [("N/A"%string, mkError "Error" "Operation aborted before starting")]).
Proof.
  unfold result. destruct (main st); try done; intros [= <-]; simpl; by auto.
Qed.

Lemma returned_allExecs st res : result r st = Some res → allExecs st = retired st.
Proof.
  intros Hres. unfold allExecs.
  apply result_Some in Hres as [(-> & _)|(-> & _)]; simpl; apply app_nil_r.
Qed.

Lemma sum_counted_settled (l : list (Exec T)) :
  Forall (λ e, pc e = Settled) l → sum_list_with counted l = length l.
Proof.
  induction 1 as [|e l He _ IH]; simpl; [done|]. unfold counted at 1. by rewrite He, IH.
Qed.

(** When the function has returned, [completedCount] is the number of items
    dispatched, with or without an abort. *)
Lemma completedCount_dispatched signalAborted events res :
  let st := run r signalAborted events in
  result r st = Some res →
  Closure.completedCount (vars st) = length (retired st).
Proof.
  intros st Hres. subst st.
  rewrite run_counted, (returned_allExecs _ res Hres).
  apply sum_counted_settled, run_retiredSettled.
Qed.

Lemma finish_aborted ab s done : aborted (finish r ab s done) = ab.
Proof. done. Qed.

Lemma portionsLoop_aborted ab s i done : aborted (portionsLoop r ab s i done) = ab.
Proof.
  unfold portionsLoop. destruct (i <? totalUrlsToProcess r); [|done].
  destruct ab; [done|]. by destruct (startChunk _ _ _ _).
Qed.

Lemma step_not_aborted st ev :
  isAbort ev = false → aborted st = false → aborted (step r st ev) = false.
Proof.
  intros Hev Hst. unfold step.
  destruct ev as [|k x|k|], (main st) as [q ws|i es| |]; try done.
  - destruct (ws !! k) as [[e|]|]; try done.
    by destruct (execStep r (aborted st) (vars st) e x) as [[s e']|].
  - destruct (es !! k) as [e|]; try done.
    by destruct (execStep r (aborted st) (vars st) e x) as [[s e']|].
  - destruct (ws !! k) as [[e|]|]; try done.
    destruct (isSettled e); [|done].
    by destruct (workerLoop r (aborted st) (vars st) q (S k)) as [[s q'] w].
  - destruct (forallb isFinished ws); done.
  - destruct (forallb isSettled es); [|done]. by rewrite portionsLoop_aborted.
Qed.

Lemma init_not_aborted : aborted (processUrlsConcurrentlyInTabs (T:=T) r false) = false.
Proof.
  unfold processUrlsConcurrentlyInTabs.
  destruct (mode (options r)); [apply portionsLoop_aborted|].
  by destruct (launchWorkers _ _ _ _ _ _) as [[s1 q1] ws].
Qed.

Lemma run_not_aborted events :
  noAbort events = true → aborted (run r false events) = false.
Proof.
  unfold run. generalize (init_not_aborted).
  generalize (processUrlsConcurrentlyInTabs (T:=T) r false).
  induction events as [|ev events IH]; intros st Hst; simpl; [done|].
  intros [Hev Hrest]%andb_true_iff. apply IH; [|done].
  apply step_not_aborted; [|done]. by destruct ev.
Qed.

Lemma occ_Permutation (l1 l2 : list string) :
  (∀ u, occ u l1 = occ u l2) → l1 ≡ₚ l2.
Proof. intros H. by apply (Permutation_count_occ string_dec). Qed.

(** Every item is dispatched at most once: the urls of the coroutines are
    items of the list, each taken as often as it occurs at most. *)
Lemma dispatched_once signalAborted events res :
  let st := run r signalAborted events in
  result r st = Some res →
  ∃ rest, (url <$> retired st) ++ rest ≡ₚ urlsToProcess r.
Proof.
  intros st Hres. pose proof (run_dispatchInv signalAborted events) as Hinv.
  fold st in Hinv. unfold dispatchInv in Hinv.
  apply result_Some in Hres as [(Hmain & _)|(Hmain & _)]; rewrite Hmain in Hinv.
  - destruct Hinv as (rest & Hocc & _). exists rest.
    apply occ_Permutation. intros u. by rewrite occ_app.
  - destruct Hinv as [-> _]. by exists (urlsToProcess r).
Qed.

(** When no cancellation occurs, no url is the empty string in the threads
    mode and [maxConcurrency] is 1 at least, every item is dispatched, once,
    and the counters of the final stats add up to [totalUrlsAttempted]. *)
Lemma all_dispatched events res :
  let st := run r false events in
  1 ≤ maxConcurrency r →
  (mode (options r) = threads → ""%string ∉ urlsToProcess r) →
  noAbort events = true →
  result r st = Some res →
  url <$> retired st ≡ₚ urlsToProcess r.
Proof.
  intros st Hmc Hempty Hno Hres.
  pose proof (run_dispatchInv false events) as Hinv. fold st in Hinv.
  pose proof (run_not_aborted events Hno) as Hab. fold st in Hab.
  unfold dispatchInv in Hinv.
  apply result_Some in Hres as [(Hmain & _)|(Hmain & _)]; rewrite Hmain in Hinv.
  - destruct Hinv as (rest & Hocc & [->|[Habt|[Hmode [H0|Hin]]]]).
    + apply occ_Permutation. intros u. rewrite <- (Hocc u), occ_nil. lia.
    + congruence.
    + lia.
    + by destruct (Hempty Hmode).
  - destruct Hinv as [_ Habt]. congruence.
Qed.

Lemma completion_count events res :
  1 ≤ maxConcurrency r →
  (mode (options r) = threads → ""%string ∉ urlsToProcess r) →
  noAbort events = true →
  result r (run r false events) = Some res →
  Z.of_nat (totalUrlsAttempted (stats res))
  = (totalSuccess (stats res) + Z.of_nat (totalFailed (stats res)))%Z.
Proof.
  intros Hmc Hempty Hno Hres.
  pose proof (all_dispatched events res Hmc Hempty Hno Hres) as Hperm.
  pose proof (completedCount_dispatched false events res Hres) as Hcount.
  simpl in Hcount, Hperm.
  apply Permutation_length in Hperm. rewrite length_fmap in Hperm.
  apply result_Some in Hres as [(Hmain & -> & _)|(Hmain & _)].
  - simpl. unfold totalUrlsToProcess. lia.
  - pose proof (run_dispatchInv false events) as Hinv. unfold dispatchInv in Hinv.
    rewrite Hmain in Hinv. destruct Hinv as [_ Habt].
    rewrite run_not_aborted in Habt; done.
Qed.

(** *** Retries *)

Lemma sum_list_with_le {A} (f g : A → nat) (l : list A) :
  Forall (λ x, f x ≤ g x) l → sum_list_with f l ≤ sum_list_with g l.
Proof. induction 1; simpl; lia. Qed.

Lemma sum_list_with_eq {A} (f g : A → nat) (l : list A) :
  Forall (λ x, f x = g x) l → sum_list_with f l = sum_list_with g l.
Proof. induction 1; simpl; lia. Qed.

Lemma Forall_and_settled (P : Exec T → Prop) (l : list (Exec T)) ab :
  Forall (execInv r ab) l → Forall (λ e, pc e = Settled) l →
  (∀ e, execInv r ab e → pc e = Settled → P e) → Forall P l.
Proof.
  intros Hinv Hset HP. induction Hinv as [|e l He _ IH]; [constructor|].
  apply Forall_cons in Hset as [Hpc Hset]. constructor; by auto.
Qed.

(** C3, as amended.  At every point of a run, the task function has been
    called [maxRetries + 1] times at most for every item dispatched.  Once
    the function has returned: every item has been dispatched once at most,
    the [totalRetriesMade] of the stats is the sum over the items of
    [max(0, attempts - 1)] when the signal is not aborted, and it lies between
    that sum and the number of calls of the task function in every case. *)
Theorem retry_bound signalAborted events :
  let st := run r signalAborted events in
  Forall (λ e, invocations e ≤ maxRetries (options r) + 1) (allExecs st) ∧
  ∀ res, result r st = Some res →
    allExecs st = retired st ∧
    (∃ rest, (url <$> retired st) ++ rest ≡ₚ urlsToProcess r) ∧
    (aborted st = false →
     totalRetriesMade (stats res) = sum_list_with retriesOf (retired st)) ∧
    sum_list_with retriesOf (retired st) ≤ totalRetriesMade (stats res)
      ≤ sum_list_with invocations (retired st).
Proof.
  intros st. pose proof (run_execInv signalAborted events) as Hinv. simpl in Hinv.
  fold st in Hinv. split.
  { eapply Forall_impl; [exact Hinv|]. by intros e [He _]. }
  intros res Hres.
  pose proof (returned_allExecs st res Hres) as Hall. split; [done|].
  split; [by apply (dispatched_once signalAborted events res)|].
  pose proof (run_retiredSettled signalAborted events) as Hset. fold st in Hset.
  unfold retiredSettled in Hset. rewrite Hall in Hinv.
  assert (totalRetriesMade (stats res) = sum_list_with retriesCounted (retired st)) as ->.
  { pose proof (run_retries signalAborted events) as Hsum. simpl in Hsum. fold st in Hsum.
    rewrite Hall in Hsum.
    pose proof (run_dispatchInv signalAborted events) as Hd. fold st in Hd.
    unfold dispatchInv in Hd.
    apply result_Some in Hres as [(Hmain & -> & _)|(Hmain & -> & _)]; [done|].
    rewrite Hmain in Hd. destruct Hd as [-> _]. done. }
  split; [|split].
  - intros Hab. rewrite Hab in Hinv. apply sum_list_with_eq.
    apply (Forall_and_settled _ _ false Hinv Hset).
    intros e [_ He] Hpc. rewrite Hpc in He. unfold retriesOf. destruct He as [_ He].
    specialize (He eq_refl). lia.
  - apply sum_list_with_le. apply (Forall_and_settled _ _ _ Hinv Hset).
    intros e [_ He] Hpc. rewrite Hpc in He. unfold retriesOf. lia.
  - apply sum_list_with_le. apply (Forall_and_settled _ _ _ Hinv Hset).
    intros e [_ He] Hpc. rewrite Hpc in He. lia.
Qed.

(** *** What [totalSuccess] counts *)

Lemma settled_partition (l : list (Exec T)) :
  Forall (λ e, pc e = Settled) l →
  length l = countIf succeeded l + countIf cancelledBeforeAttempt l
             + sum_list_with countedFailed l.
Proof.
  unfold countIf. induction 1 as [|e l He _ IH]; simpl; [done|].
  unfold countedFailed at 1, failedNotAborted, succeeded at 1, cancelledBeforeAttempt at 1.
  rewrite He. destruct (lastError e) as [err|]; [|lia].
  destruct (isAbortMessage err); simpl; lia.
Qed.

(** C9.  A coroutine that sees the abort at the head of the retry loop
    increments [completedCount] and adds nothing to [failedTasks] or to
    [successfulResults]; the final stats compute [totalSuccess] as
    [completedCount] less the length of [failedTasks]; so the [totalSuccess]
    of a run is the number of items that ended with a result plus the number
    of items that ended by such a cancellation. *)
Theorem cancelled_item_counted_as_success :
  (∀ s e, attempts e ≤ maxRetries (options r) →
     let s' := (attemptLoop r true s e).1 in
     let e' := (attemptLoop r true s e).2 in
     Closure.completedCount s' = S (Closure.completedCount s) ∧
     Closure.failedTasks s' = Closure.failedTasks s ∧
     Closure.successfulResults s' = Closure.successfulResults s ∧
     pc e' = Settled ∧ cancelledBeforeAttempt e' = true) ∧
  (∀ s, totalSuccess (finalStats r s)
        = (Z.of_nat (Closure.completedCount s) - Z.of_nat (length (Closure.failedTasks s)))%Z) ∧
  (∀ signalAborted events res,
     let st := run r signalAborted events in
     result r st = Some res →
     totalSuccess (stats res)
     = Z.of_nat (countIf succeeded (retired st)
                 + countIf cancelledBeforeAttempt (retired st))).
Proof.
  split; [|split].
  - intros s e Hle. apply Nat.leb_le in Hle.
    destruct s, e. unfold cancelledBeforeAttempt, attemptLoop. simpl in *. rewrite Hle.
    unfold recordCompletion, reportProgress, log. simpl.
    rewrite andb_false_r. simpl. by repeat split.
  - done.
  - intros signalAborted events res st Hres.
    pose proof (completedCount_dispatched signalAborted events res Hres) as Hcount.
    pose proof (run_failed signalAborted events) as Hfailed.
    pose proof (run_retiredSettled signalAborted events) as Hset.
    simpl in Hcount, Hfailed. fold st in Hcount, Hfailed, Hset.
    rewrite (returned_allExecs st res Hres) in Hfailed.
    pose proof (settled_partition _ Hset) as Hpart.
    pose proof (run_dispatchInv signalAborted events) as Hd. fold st in Hd.
    unfold dispatchInv in Hd.
    apply result_Some in Hres as [(Hmain & -> & _)|(Hmain & -> & _)].
    + simpl. lia.
    + rewrite Hmain in Hd. destruct Hd as [-> _]. done.
Qed.

(** The return of line 244 happens at the call or never. *)
Lemma portionsLoop_main ab s i done :
  main (portionsLoop r ab s i done) ≠ MAbortedBeforeStart.
Proof.
  unfold portionsLoop. destruct (i <? totalUrlsToProcess r); [|done].
  destruct ab; [done|]. by destruct (startChunk _ _ _ _).
Qed.

Lemma started_main events :
  main (run r false events) ≠ MAbortedBeforeStart.
Proof.
  apply run_invariant.
  - unfold processUrlsConcurrentlyInTabs.
    destruct (mode (options r)); [apply portionsLoop_main|].
    by destruct (launchWorkers _ _ _ _ _ _) as [[s1 q1] ws].
  - apply (step_cases (λ st st', main st ≠ MAbortedBeforeStart →
                                 main st' ≠ MAbortedBeforeStart)); try done.
    intros st i es _ _ _. apply portionsLoop_main.
Qed.

(** *** Every run comes to its end

    A weight of the state that every event but the abort lowers when it
    changes the state, and that the abort does not raise. *)

Lemma execStep_weight ab s e x s' e' :
  execStep r ab s e x = Some (s', e') → execWeight r e' < execWeight r e.
Proof.
  destruct e, s. intros H. unfold execWeight.
  exec_cases; bool_hyps; simpl in *; lia.
Qed.

Lemma start_weight ab s u s' e' :
  executeTaskWithRetries r ab s u = (s', e') → execWeight r e' + 2 ≤ (itemWeight r).
Proof.
  destruct s. intros H. unfold execWeight, itemWeight.
  exec_cases; bool_hyps; simpl in *; lia.
Qed.

Lemma rejectDelay_weight e : execWeight r (rejectDelay e) ≤ execWeight r e.
Proof.
  unfold rejectDelay, execWeight. destruct e as [? ? ? ? ? ? [] ? ?]; simpl; lia.
Qed.

Lemma workerLoop_weight ab s q workerId s' q' w :
  workerLoop r ab s q workerId = (s', q', w) →
  ofWorker (λ e, S (execWeight r e)) w + length q' * (itemWeight r)
  ≤ length q * (itemWeight r) ∧
  ofWorker (λ e, S (execWeight r e)) w + length q' * (itemWeight r) < 2 + length q * (itemWeight r).
Proof.
  unfold workerLoop. destruct q as [|u rest].
  - intros [= <- <- <-]. simpl. lia.
  - destruct ab; [intros [= <- <- <-]; simpl; lia|].
    destruct (String.eqb u ""); [intros [= <- <- <-]; simpl; lia|].
    destruct (executeTaskWithRetries _ _ _ _) as [s1 e1] eqn:Hstart.
    intros [= <- <- <-]. apply start_weight in Hstart. simpl. lia.
Qed.

Lemma startChunk_weight ab s chunk s' es :
  startChunk r ab s chunk = (s', es) →
  sum_list_with (execWeight r) es + 2 * length chunk ≤ length chunk * (itemWeight r).
Proof.
  revert s s' es. induction chunk as [|u chunk IH]; intros s s' es; simpl.
  - intros [= <- <-]. simpl. lia.
  - destruct (executeTaskWithRetries r ab s u) as [s1 e1] eqn:Hstart.
    destruct (startChunk r ab s1 chunk) as [s2 es2] eqn:Hrest.
    intros [= <- <-]. apply IH in Hrest. apply start_weight in Hstart. simpl. lia.
Qed.

Lemma sum_settled_weight (es : list (Exec T)) :
  forallb isSettled es = true → sum_list_with (execWeight r) es = length es.
Proof.
  induction es as [|e es IH]; simpl; [done|].
  intros [He Hes]%andb_true_iff. rewrite (IH Hes).
  unfold execWeight. by rewrite (isSettled_pc e He).
Qed.

Lemma sum_finished_weight (ws : list (Worker T)) (f : Exec T → nat) :
  forallb isFinished ws = true → sum_list_with (ofWorker f) ws = 0.
Proof.
  induction ws as [|[e|] ws IH]; simpl; by auto.
Qed.

(** The head of the loop over the chunks, entered after a chunk of
    [maxConcurrency] items at most, weighs less than that chunk and the items
    behind it. *)
Lemma portionsLoop_weight ab s i done n :
  1 ≤ maxConcurrency r →
  totalUrlsToProcess r - i ≤ n →
  weight r (portionsLoop r ab s i done) < n * (itemWeight r) + 1.
Proof.
  intros Hmc Hn. unfold portionsLoop, weight.
  destruct (i <? totalUrlsToProcess r) eqn:Hi; [|simpl; lia].
  destruct ab; [simpl; lia|].
  apply Nat.ltb_lt in Hi.
  set (chunk := take (maxConcurrency r) (drop i (urlsToProcess r))).
  assert (1 ≤ length chunk ≤ totalUrlsToProcess r - i) as Hlen.
  { subst chunk. rewrite length_take, length_drop. unfold totalUrlsToProcess in *. lia. }
  destruct (startChunk _ _ _ _) as [s1 es] eqn:Hchunk.
  pose proof (startChunk_length false
    (log INFO (MsgProcessingChunk i (length chunk)) None None s) chunk) as Hes.
  rewrite Hchunk in Hes.
  apply startChunk_weight in Hchunk. simpl in *. rewrite Hes.
  assert (length chunk * (itemWeight r)
          + (totalUrlsToProcess r - i - length chunk) * (itemWeight r)
          ≤ n * (itemWeight r)) as Hmul.
  { rewrite <- Nat.mul_add_distr_r. apply Nat.mul_le_mono_r. lia. }
  lia.
Qed.

Lemma execStep_accepts ab s e x :
  if accepts (pc e) x then is_Some (execStep r ab s e x)
  else execStep r ab s e x = None.
Proof. unfold accepts, execStep. destruct (pc e), x; simpl; by eauto. Qed.

Lemma step_not_enabled st ev : enabled st ev = false → step r st ev = st.
Proof.
  unfold step, enabled.
  destruct ev as [|k x|k|], (main st) as [q ws|i es| |] eqn:Hmain; try done.
  - by intros ->%negb_false_iff.
  - by intros ->%negb_false_iff.
  - destruct (ws !! k) as [[e|]|]; try done. intros Hx.
    pose proof (execStep_accepts (aborted st) (vars st) e x) as Hacc.
    rewrite Hx in Hacc. by rewrite Hacc.
  - destruct (es !! k) as [e|]; try done. intros Hx.
    pose proof (execStep_accepts (aborted st) (vars st) e x) as Hacc.
    rewrite Hx in Hacc. by rewrite Hacc.
  - destruct (ws !! k) as [[e|]|]; try done. by intros ->.
  - by intros ->.
  - by intros ->.
Qed.

Lemma step_weight st ev :
  1 ≤ maxConcurrency r → poolBounded r st →
  weight r (step r st ev) ≤ weight r st ∧
  (isAbort ev = false → enabled st ev = true → weight r (step r st ev) < weight r st).
Proof.
  intros Hmc Hpool.
  destruct (enabled st ev) eqn:Hen; [|rewrite step_not_enabled by done; by split].
  revert Hen. unfold step, enabled.
  destruct ev as [|k x|k|], (main st) as [q ws|i es| |] eqn:Hmain; try done.
  - intros ->%negb_true_iff. split; [|done].
    unfold weight. rewrite Hmain. simpl. rewrite sum_list_with_fmap.
    assert (sum_list_with (ofWorker (λ e, S (execWeight r e)) ∘ rejectDelayW) ws
            ≤ sum_list_with (ofWorker (λ e, S (execWeight r e))) ws) as Hle; [|lia].
    apply sum_list_with_le, Forall_forall. intros [e|] _; simpl; [|done].
    pose proof (rejectDelay_weight e). lia.
  - intros ->%negb_true_iff. split; [|done].
    unfold weight. rewrite Hmain. simpl. rewrite sum_list_with_fmap, length_fmap.
    assert (sum_list_with ((execWeight r) ∘ rejectDelay) es ≤ sum_list_with (execWeight r) es)
      as Hle; [|lia].
    apply sum_list_with_le, Forall_forall. intros e _. apply rejectDelay_weight.
  - destruct (ws !! k) as [[e|]|] eqn:Hk; try done. intros Hacc.
    pose proof (execStep_accepts (aborted st) (vars st) e x) as Hx.
    rewrite Hacc in Hx. destruct Hx as [[s e'] Hx]. rewrite Hx.
    apply execStep_weight in Hx.
    pose proof (sum_list_with_insert (ofWorker (λ e, S (execWeight r e))) ws k
                  (Running e) (Running e') Hk) as Hins.
    unfold weight. rewrite Hmain. simpl in *. lia.
  - destruct (es !! k) as [e|] eqn:Hk; try done. intros Hacc.
    pose proof (execStep_accepts (aborted st) (vars st) e x) as Hx.
    rewrite Hacc in Hx. destruct Hx as [[s e'] Hx]. rewrite Hx.
    apply execStep_weight in Hx.
    pose proof (sum_list_with_insert (execWeight r) es k e e' Hk) as Hins.
    unfold weight. rewrite Hmain. simpl. rewrite length_insert. lia.
  - destruct (ws !! k) as [[e|]|] eqn:Hk; try done. intros He. rewrite He.
    destruct (workerLoop r (aborted st) (vars st) q (S k)) as [[s q'] w] eqn:Hw.
    apply workerLoop_weight in Hw.
    pose proof (sum_list_with_insert (ofWorker (λ e, S (execWeight r e))) ws k
                  (Running e) w Hk) as Hins.
    unfold weight. rewrite Hmain. simpl in *.
    unfold execWeight in Hins at 2. rewrite (isSettled_pc e He) in Hins. lia.
  - intros Hall. rewrite Hall. unfold weight. rewrite Hmain. simpl. lia.
  - intros Hall. rewrite Hall.
    unfold poolBounded in Hpool. rewrite Hmain in Hpool.
    assert (weight r (portionsLoop r (aborted st)
              (log INFO (MsgFinishedChunk i) None None (vars st))
              (i + maxConcurrency r) (retired st ++ es))
            < (totalUrlsToProcess r - i - length es) * (itemWeight r) + 1) as Hlt.
    { apply portionsLoop_weight; [done|lia]. }
    unfold weight at 2 4. rewrite Hmain. lia.
Qed.

(** Some event other than the abort can happen as long as the function has
    not returned. *)
Lemma running_or_finished (ws : list (Worker T)) :
  forallb isFinished ws = true ∨ ∃ k e, ws !! k = Some (Running e).
Proof.
  induction ws as [|[e|] ws IH]; simpl; [by left| |].
  - right. by exists 0, e.
  - destruct IH as [?|(k & e & ?)]; [by left|]. right. by exists (S k), e.
Qed.

Lemma suspended_or_settled (es : list (Exec T)) :
  forallb isSettled es = true ∨ ∃ k e, es !! k = Some e ∧ isSettled e = false.
Proof.
  induction es as [|e es IH]; simpl; [by left|].
  destruct (isSettled e) eqn:He; [|right; by exists 0, e].
  destruct IH as [?|(k & e' & ? & ?)]; [by left|]. right. by exists (S k), e'.
Qed.

Lemma progress st :
  result r st = None → ∃ ev, isAbort ev = false ∧ enabled st ev = true.
Proof.
  unfold result. destruct (main st) as [q ws|i es| |] eqn:Hmain; try done.
  - intros _. destruct (running_or_finished ws) as [Hall|(k & e & Hk)].
    + exists MainResumes. unfold enabled. by rewrite Hmain.
    + destruct (isSettled e) eqn:He.
      * exists (WorkerResumes k). unfold enabled. by rewrite Hmain, Hk.
      * exists (At k (resumption (pc e))). unfold enabled. rewrite Hmain, Hk.
        split; [done|]. unfold isSettled in He. by destruct (pc e).
  - intros _. destruct (suspended_or_settled es) as [Hall|(k & e & Hk & He)].
    + exists MainResumes. unfold enabled. by rewrite Hmain.
    + exists (At k (resumption (pc e))). unfold enabled. rewrite Hmain, Hk.
      split; [done|]. unfold isSettled in He. by destruct (pc e).
Qed.

Lemma effectiveEvents_weight st events :
  1 ≤ maxConcurrency r → poolBounded r st →
  effectiveEvents r st events + weight r (fold_left (step r) events st) ≤ weight r st.
Proof.
  intros Hmc. revert st. induction events as [|ev events IH]; intros st Hpool; simpl; [lia|].
  pose proof (step_weight st ev Hmc Hpool) as [Hle Hlt].
  specialize (IH (step r st ev) (step_poolBounded st ev Hpool)).
  destruct (enabled st ev) eqn:Hen, (isAbort ev) eqn:Hab; simpl;
    try specialize (Hlt eq_refl eq_refl); lia.
Qed.

(** With [maxConcurrency] 1 at least, a run has no more events that change
    the state, the abort apart, than the weight of the state after the
    call. *)
Lemma run_bounded signalAborted events :
  1 ≤ maxConcurrency r →
  effectiveEvents r (processUrlsConcurrentlyInTabs r signalAborted) events
  ≤ weight r (processUrlsConcurrentlyInTabs (T:=T) r signalAborted).
Proof.
  intros Hmc.
  pose proof (effectiveEvents_weight (processUrlsConcurrentlyInTabs r signalAborted)
                events Hmc (init_poolBounded signalAborted)).
  lia.
Qed.

Lemma returns_from st n :
  1 ≤ maxConcurrency r → poolBounded r st → weight r st ≤ n →
  ∃ more, is_Some (result r (fold_left (step r) more st)).
Proof.
  intros Hmc. revert st. induction n as [|n IH]; intros st Hpool Hn.
  - exists []. simpl. unfold weight in Hn. unfold result.
    destruct (main st);
      [exfalso; rewrite Nat.add_1_r in Hn; inversion Hn ..|by eexists|by eexists].
  - destruct (result r st) as [res|] eqn:Hres; [exists []; simpl; by rewrite Hres|].
    destruct (progress st Hres) as (ev & Hab & Hen).
    pose proof (step_weight st ev Hmc Hpool) as [_ Hlt]. specialize (Hlt Hab Hen).
    destruct (IH (step r st ev) (step_poolBounded st ev Hpool)) as [more Hmore]; [lia|].
    by exists (ev :: more).
Qed.

(** With [maxConcurrency] 1 at least, every run can be carried on to the
    return of the function. *)
Lemma run_returns signalAborted events :
  1 ≤ maxConcurrency r →
  ∃ more, is_Some (result r (run r signalAborted (events ++ more))).
Proof.
  intros Hmc. unfold run.
  destruct (returns_from (fold_left (step r) events
              (processUrlsConcurrentlyInTabs r signalAborted))
              (weight r (fold_left (step r) events
                 (processUrlsConcurrentlyInTabs r signalAborted)))) as [more Hmore];
    [done| |done|].
  - apply (run_invariant (poolBounded r) signalAborted events);
      [apply init_poolBounded | intros st ev; apply step_poolBounded].
  - exists more. by rewrite fold_left_app.
Qed.
End Invariants.

(** ** The delay before a retry *)

Section Retry_delay.
Context {T : Type}.
Variable r : Run.
Implicit Types (s : Closure.t T) (e : Exec T) (ab : bool).

End Retry_delay.

(** ** The signal is aborted at the call *)

Section Early_abort.
Context {T : Type}.
Implicit Types (st : State T) (events : list (Event T)).

Lemma step_after_return (r : Run) st ev :
  main st = MReturned ∨ main st = MAbortedBeforeStart → step r st ev = st.
Proof. unfold step. intros [H|H]; rewrite H; by destruct ev. Qed.

Lemma run_after_early_abort (r : Run) events :
  run r true events = processUrlsConcurrentlyInTabs r true.
Proof.
  unfold run.
  assert (main (processUrlsConcurrentlyInTabs (T:=T) r true) = MAbortedBeforeStart) as Hmain
    by done.
  revert Hmain. generalize (processUrlsConcurrentlyInTabs (T:=T) r true).
  induction events as [|ev events IH]; intros st Hst; simpl; [done|].
  rewrite step_after_return by auto. by apply IH.
Qed.

(** C7.  When the signal is aborted before the call, the function returns,
    whatever happens afterwards: no result, the one failure that tells the
    abort, and stats that are zero but for [totalUrlsProvided], which is the
    length of the list given. *)
Theorem aborted_before_start (urls : list string) (concurrency : nat)
    (o : ProcessUrlsOptions) events :
  let r := prepare urls concurrency o in
  ∃ res : ProcessUrlsResult T,
    result r (run r true events) = Some res ∧
    successfulResults res = [] ∧
    failedTasks res
    = [("N/A"%string, mkError "Error" "Operation aborted before starting")] ∧
    totalUrlsProvided (stats res) = length urls ∧
    totalUrlsAttempted (stats res) = 0 ∧
    totalSuccess (stats res) = 0%Z ∧
    totalFailed (stats res) = 0 ∧
    totalRetriesMade (stats res) = 0.
Proof.
  intros r. rewrite run_after_early_abort.
  eexists. split; [reflexivity|]. by repeat split.
Qed.
End Early_abort.

(** ** Runs on concrete inputs *)

(** C5, on the code.  The item whose retry is cancelled during the delay is
    in [failedTasks]: its [lastError] has the message of line 186, which is
    not the ['Operation aborted'] that line 212 looks for. *)
Lemma abort_during_delay_recorded_as_failure :
  let r := prepare ["https://a.example"%string] 1 oneRetry in
  let res := result r (run r false abortDuringDelay) in
  failedTasks <$> res
  = Some [("https://a.example"%string, mkError "Error" "Operation aborted during retry delay")] ∧
  totalFailed ∘ stats <$> res = Some 1.
Proof. vm_compute. by split. Qed.

(** The other cancellation, seen at the head of the loop, is not recorded. *)
Lemma abort_before_attempt_not_recorded :
  let r := prepare ["https://a.example"%string] 1 oneRetry in
  let res := result r (run r false abortDuringTask) in
  failedTasks <$> res = Some [] ∧
  successfulResults <$> res = Some [] ∧
  stats <$> res = Some (mkRunStats 1 1 1 0 1).
Proof. vm_compute. by repeat split. Qed.

(** C3, as stated, fails on the run [abortDuringDelay]: the task function
    is called once for the item, so the sum of [max(0, attempts - 1)] is 0,
    and [totalRetriesMade] is 1. *)
Lemma retry_counted_before_cancelled_retry :
  let r := prepare ["https://a.example"%string] 1 oneRetry in
  let st := run r false abortDuringDelay in
  invocations <$> retired st = [1] ∧
  sum_list_with retriesOf (retired st) = 0 ∧
  totalRetriesMade ∘ stats <$> result r st = Some 1 ∧
  totalRetriesMade ∘ stats <$> result r st ≠ Some (sum_list_with retriesOf (retired st)).
Proof. vm_compute. by repeat split. Qed.

(** C1, on the code.  A worker that takes the empty string from the queue
    returns (line 254) and leaves the rest of the queue: with one worker
    nothing is processed, the run ends without any cancellation, and
    [totalUrlsAttempted] is 2 where [totalSuccess + totalFailed] is 0. *)
Lemma empty_url_stops_worker :
  let r := prepare [""%string; "https://a.example"%string] 1 defaultOptions in
  let st := run (T:=string) r false [MainResumes] in
  aborted st = false ∧
  retired st = [] ∧
  stats <$> result r st = Some (mkRunStats 2 2 0 0 0) ∧
  (let attempted := Z.of_nat ∘ totalUrlsAttempted ∘ stats <$> result r st in
   let done := (λ res, totalSuccess (stats res) + Z.of_nat (totalFailed (stats res)))%Z
               <$> result r st in
   attempted ≠ done).
Proof. vm_compute. by repeat split. Qed.

(** The portions mode processes the same list in full. *)
Lemma empty_url_processed_in_portions :
  let r := prepare [""%string; "https://a.example"%string] 1 portionsOptions in
  let st := run r false
              [At 0 (TaskSettles (Resolved ["x"%string])); MainResumes;
               At 0 (TaskSettles (Resolved ["y"%string])); MainResumes] in
  successfulResults <$> result r st = Some ["x"%string; "y"%string] ∧
  stats <$> result r st = Some (mkRunStats 2 2 2 0 0).
Proof. vm_compute. by repeat split. Qed.


(** * What a run computes, apart from what it reports

    The log history, the console, the trace of the callback calls, the retry
    counter and the counts a coroutine keeps for the progress report are
    written and never read back by the code that schedules the items.
    [obs] forgets them; two states with the same [obs] go on alike. *)

Section Observation.
Context {T : Type}.
Implicit Types (s : Closure.t T) (e : Exec T) (w : Worker T) (st : State T).

Lemma obsS_log lv m u a s : obsS (log lv m u a s) = obsS s.
Proof. done. Qed.

Lemma obsE_isSettled e1 e2 : obsE e1 = obsE e2 → isSettled e1 = isSettled e2.
Proof.
  unfold isSettled. intros H.
  assert (pc (obsE e1) = pc (obsE e2)) as Hpc by (by rewrite H).
  simpl in Hpc. by rewrite Hpc.
Qed.

Lemma obsE_rejectDelay e1 e2 :
  obsE e1 = obsE e2 → obsE (rejectDelay e1) = obsE (rejectDelay e2).
Proof.
  destruct e1, e2. unfold obsE, rejectDelay. simpl. intros [= -> -> -> -> -> ->].
  by destruct pc1.
Qed.

Lemma fmap_cons_eq {A B} (f : A → B) x y (l1 l2 : list A) :
  f <$> (x :: l1) = f <$> (y :: l2) → f x = f y ∧ f <$> l1 = f <$> l2.
Proof. rewrite !fmap_cons. intros H. by injection H. Qed.

Lemma obsW_rejectDelay (ws1 ws2 : list (Worker T)) :
  obsW <$> ws1 = obsW <$> ws2 →
  obsW <$> (rejectDelayW <$> ws1) = obsW <$> (rejectDelayW <$> ws2).
Proof.
  revert ws2. induction ws1 as [|w1 ws1 IH]; intros [|w2 ws2]; try done.
  intros [Hw Hws]%fmap_cons_eq. rewrite !fmap_cons. f_equal; [|by apply IH].
  destruct w1 as [e1|], w2 as [e2|]; try done. simpl in Hw |- *.
  f_equal. apply obsE_rejectDelay. congruence.
Qed.

Lemma obsEs_rejectDelay (es1 es2 : list (Exec T)) :
  obsE <$> es1 = obsE <$> es2 →
  obsE <$> (rejectDelay <$> es1) = obsE <$> (rejectDelay <$> es2).
Proof.
  revert es2. induction es1 as [|e1 es1 IH]; intros [|e2 es2]; try done.
  intros [He Hes]%fmap_cons_eq. rewrite !fmap_cons. f_equal; [|by apply IH].
  by apply obsE_rejectDelay.
Qed.

Lemma obsW_isFinished (ws1 ws2 : list (Worker T)) :
  obsW <$> ws1 = obsW <$> ws2 → forallb isFinished ws1 = forallb isFinished ws2.
Proof.
  revert ws2. induction ws1 as [|w1 ws1 IH]; intros [|w2 ws2]; try done.
  intros [Hw Hws]%fmap_cons_eq. simpl. rewrite (IH ws2 Hws).
  by destruct w1, w2.
Qed.

Lemma obsE_allSettled (es1 es2 : list (Exec T)) :
  obsE <$> es1 = obsE <$> es2 → forallb isSettled es1 = forallb isSettled es2.
Proof.
  revert es2. induction es1 as [|e1 es1 IH]; intros [|e2 es2]; try done.
  intros [He Hes]%fmap_cons_eq. simpl.
  by rewrite (IH es2 Hes), (obsE_isSettled e1 e2 He).
Qed.

Lemma obsW_lookup (ws1 ws2 : list (Worker T)) k :
  obsW <$> ws1 = obsW <$> ws2 → obsW <$> ws1 !! k = obsW <$> ws2 !! k.
Proof. intros H. by rewrite <- !list_lookup_fmap, H. Qed.

Lemma obsE_lookup (es1 es2 : list (Exec T)) k :
  obsE <$> es1 = obsE <$> es2 → obsE <$> es1 !! k = obsE <$> es2 !! k.
Proof. intros H. by rewrite <- !list_lookup_fmap, H. Qed.
End Observation.

(** Closes a goal [obs st1 = obs st2] from the equations at hand. *)
Ltac same_state :=
  unfold obs; cbn [vars aborted main retired obsM]; congruence.

(** ** Two runs of the enhanced version *)

Section Enhanced_alike.
Context {T : Type}.
Variables r1 r2 : Run.
Hypothesis same_options : options r1 = options r2.
Hypothesis same_concurrency : maxConcurrency r1 = maxConcurrency r2.
Hypothesis same_urls : urlsToProcess r1 = urlsToProcess r2.
Implicit Types (s : Closure.t T) (e : Exec T) (st : State T).

Ltac same_fields :=
  repeat match goal with
  | H : obsS _ = obsS _ |- _ => unfold obsS in H; simpl in H; injection H as ? ? ?
  | H : obsE _ = obsE _ |- _ => unfold obsE in H; simpl in H; injection H as ? ? ? ? ? ?
  end; subst.

(** Block by block: two blocks started alike end alike. *)

Lemma reportProgress_alike s1 s2 e1 e2 :
  obsS s1 = obsS s2 → obsE e1 = obsE e2 →
  alike (reportProgress r1 s1 e1) (reportProgress r2 s2 e2).
Proof.
  intros Hs He. destruct s1, s2, e1, e2. same_fields.
  unfold alike, reportProgress. rewrite <- same_options. simpl.
  by destruct (_ && _).
Qed.

Lemma recordCompletion_alike s1 s2 e1 e2 :
  obsS s1 = obsS s2 → obsE e1 = obsE e2 →
  alike (recordCompletion r1 s1 e1) (recordCompletion r2 s2 e2).
Proof.
  intros Hs He. destruct s1, s2, e1, e2. same_fields.
  unfold recordCompletion. rewrite <- same_options. simpl.
  repeat case_match; first [done | by apply reportProgress_alike].
Qed.

Lemma attemptLoop_alike ab s1 s2 e1 e2 :
  obsS s1 = obsS s2 → obsE e1 = obsE e2 →
  alike (attemptLoop r1 ab s1 e1) (attemptLoop r2 ab s2 e2).
Proof.
  intros Hs He. destruct s1, s2, e1, e2. same_fields.
  unfold attemptLoop. rewrite <- same_options. simpl.
  repeat case_match; first [done | by apply recordCompletion_alike].
Qed.

Lemma taskSettled_alike ab s1 s2 e1 e2 out :
  obsS s1 = obsS s2 → obsE e1 = obsE e2 →
  alike (taskSettled r1 ab s1 e1 out) (taskSettled r2 ab s2 e2 out).
Proof.
  intros Hs He. destruct s1, s2, e1, e2. same_fields.
  unfold taskSettled. rewrite <- same_options. destruct out as [items|thrown].
  - by apply recordCompletion_alike.
  - cbv zeta. destruct (_ && _).
    + destruct (0 <? _)%Z; [done|]. by apply attemptLoop_alike.
    + by apply recordCompletion_alike.
Qed.

Lemma execStep_alike ab s1 s2 e1 e2 x1 x2 :
  obsS s1 = obsS s2 → obsE e1 = obsE e2 → quietX x1 = quietX x2 →
  alikeOpt (execStep r1 ab s1 e1 x1) (execStep r2 ab s2 e2 x2).
Proof.
  intros Hs He Hx.
  assert (pc e1 = pc e2) as Hpc by (destruct e1, e2; by same_fields).
  unfold alikeOpt, execStep. rewrite Hpc.
  destruct (pc e2), x1 as [out1| | |threw|threw], x2 as [out2| | |threw0|threw0];
    simpl in Hx; try discriminate Hx; try done; cbv beta iota.
  - injection Hx as ->. by apply taskSettled_alike.
  - by apply attemptLoop_alike.
  - unfold delayRejected. apply recordCompletion_alike; [done|].
    destruct e1, e2. by same_fields.
  - unfold onErrorSettled. apply reportProgress_alike; [|done].
    by destruct threw, threw0.
  - unfold onProgressSettled, alike. simpl. split; [by destruct threw, threw0|].
    destruct e1, e2. by same_fields.
Qed.

Lemma start_alike ab s1 s2 u :
  obsS s1 = obsS s2 →
  alike (executeTaskWithRetries r1 ab s1 u) (executeTaskWithRetries r2 ab s2 u).
Proof.
  intros Hs. unfold executeTaskWithRetries. by apply attemptLoop_alike.
Qed.

Lemma workerLoop_alike ab s1 s2 q workerId :
  obsS s1 = obsS s2 →
  let a := workerLoop r1 ab s1 q workerId in
  let b := workerLoop r2 ab s2 q workerId in
  obsS a.1.1 = obsS b.1.1 ∧ a.1.2 = b.1.2 ∧ obsW a.2 = obsW b.2.
Proof.
  intros Hs. unfold workerLoop. destruct q as [|u rest]; [done|].
  destruct ab; [done|]. destruct (String.eqb u ""); [done|].
  pose proof (start_alike false
    (log DEBUG (MsgWorkerProcessing workerId u (length rest)) None None s1)
    (log DEBUG (MsgWorkerProcessing workerId u (length rest)) None None s2) u) as Hstart.
  destruct (executeTaskWithRetries r1 _ _ _) as [s1' e1'].
  destruct (executeTaskWithRetries r2 _ _ _) as [s2' e2'].
  destruct Hstart as [Hs' He']; [by rewrite !obsS_log|]. simpl in *.
  split; [done|]. split; [done|]. by rewrite He'.
Qed.

Lemma launchWorkers_alike ab n workerId s1 s2 q :
  obsS s1 = obsS s2 →
  let a := launchWorkers r1 ab n workerId s1 q in
  let b := launchWorkers r2 ab n workerId s2 q in
  obsS a.1.1 = obsS b.1.1 ∧ a.1.2 = b.1.2 ∧ obsW <$> a.2 = obsW <$> b.2.
Proof.
  revert workerId s1 s2 q. induction n as [|n IH]; intros workerId s1 s2 q Hs; simpl; [done|].
  unfold startWorker.
  pose proof (workerLoop_alike ab
    (log DEBUG (MsgWorkerStarting workerId) None None s1)
    (log DEBUG (MsgWorkerStarting workerId) None None s2) q workerId) as Hw.
  destruct (workerLoop r1 _ _ _ _) as [[s1' q1'] w1].
  destruct (workerLoop r2 _ _ _ _) as [[s2' q2'] w2].
  destruct Hw as (Hs' & Hq' & Hw'); [by rewrite !obsS_log|]. simpl in *. subst q2'.
  specialize (IH (S workerId) s1' s2' q1' Hs').
  destruct (launchWorkers r1 _ _ _ _ _) as [[s1'' q1''] ws1].
  destruct (launchWorkers r2 _ _ _ _ _) as [[s2'' q2''] ws2].
  simpl in *. destruct IH as (? & ? & ?). split; [done|]. split; [done|].
  by f_equal.
Qed.

Lemma startChunk_alike ab s1 s2 chunk :
  obsS s1 = obsS s2 →
  let a := startChunk r1 ab s1 chunk in
  let b := startChunk r2 ab s2 chunk in
  obsS a.1 = obsS b.1 ∧ obsE <$> a.2 = obsE <$> b.2.
Proof.
  revert s1 s2. induction chunk as [|u chunk IH]; intros s1 s2 Hs; simpl; [done|].
  pose proof (start_alike ab s1 s2 u Hs) as Hstart.
  destruct (executeTaskWithRetries r1 _ _ _) as [s1' e1'].
  destruct (executeTaskWithRetries r2 _ _ _) as [s2' e2'].
  destruct Hstart as [Hs' He']. simpl in *.
  specialize (IH s1' s2' Hs').
  destruct (startChunk r1 _ _ _) as [s1'' es1].
  destruct (startChunk r2 _ _ _) as [s2'' es2].
  simpl in *. destruct IH as [? ?]. split; [done|].
  by f_equal.
Qed.

Lemma finish_alike ab s1 s2 (done1 done2 : list (Exec T)) :
  obsS s1 = obsS s2 → obsE <$> done1 = obsE <$> done2 →
  obs (finish r1 ab s1 done1) = obs (finish r2 ab s2 done2).
Proof.
  intros Hs Hd. unfold finish, obs. simpl. rewrite Hd. f_equal.
  destruct ab; by rewrite !obsS_log.
Qed.

Lemma portionsLoop_alike ab s1 s2 i (done1 done2 : list (Exec T)) :
  obsS s1 = obsS s2 → obsE <$> done1 = obsE <$> done2 →
  obs (portionsLoop r1 ab s1 i done1) = obs (portionsLoop r2 ab s2 i done2).
Proof.
  intros Hs Hd. unfold portionsLoop, totalUrlsToProcess.
  rewrite <- same_urls, <- same_concurrency.
  destruct (i <? length (urlsToProcess r1)); [|by apply finish_alike].
  destruct ab; [apply finish_alike; [by rewrite !obsS_log|done]|].
  set (chunk := take (maxConcurrency r1) (drop i (urlsToProcess r1))).
  pose proof (startChunk_alike false
    (log INFO (MsgProcessingChunk i (length chunk)) None None s1)
    (log INFO (MsgProcessingChunk i (length chunk)) None None s2) chunk) as Hchunk.
  destruct (startChunk r1 _ _ _) as [s1' es1].
  destruct (startChunk r2 _ _ _) as [s2' es2].
  destruct Hchunk as [Hs' Hes]; [by rewrite !obsS_log|]. simpl in *.
  unfold obs. simpl. by rewrite Hs', Hes, Hd.
Qed.

Lemma init_alike signalAborted :
  obs (processUrlsConcurrentlyInTabs (T:=T) r1 signalAborted)
  = obs (processUrlsConcurrentlyInTabs r2 signalAborted).
Proof.
  unfold processUrlsConcurrentlyInTabs, totalUrlsToProcess.
  rewrite <- same_urls, <- same_concurrency, <- same_options.
  match goal with
  | |- obs (if _ then mkState (log _ _ _ _ ?sa) _ _ _ else _)
       = obs (if _ then mkState (log _ _ _ _ ?sb) _ _ _ else _) =>
    set (s1 := sa); set (s2 := sb)
  end.
  assert (obsS s1 = obsS s2) as Hs.
  { subst s1 s2. by destruct (blockResources (options r1)). }
  clearbody s1 s2.
  destruct signalAborted; [unfold obs; simpl; by rewrite !obsS_log, Hs|].
  destruct (mode (options r1)); [by apply portionsLoop_alike|].
  set (n := Nat.min (maxConcurrency r1) (length (urlsToProcess r1))).
  pose proof (launchWorkers_alike false n 1
    (log INFO (MsgLaunching n) None None s1) (log INFO (MsgLaunching n) None None s2)
    (urlsToProcess r1)) as Hl.
  destruct (launchWorkers r1 _ _ _ _ _) as [[s1' q1'] ws1].
  destruct (launchWorkers r2 _ _ _ _ _) as [[s2' q2'] ws2].
  destruct Hl as (Hs' & Hq' & Hws); [by rewrite !obsS_log|].
  simpl in *. unfold obs. simpl. by rewrite Hs', Hq', Hws.
Qed.

(** The same event, or the same with a callback that throws in one run and
    returns in the other, takes two states that look alike to two states that
    look alike. *)
Lemma step_alike st1 st2 ev1 ev2 :
  obs st1 = obs st2 → quiet ev1 = quiet ev2 →
  obs (step r1 st1 ev1) = obs (step r2 st2 ev2).
Proof.
  intros Hobs Hev.
  destruct st1 as [s1 ab m1 d1], st2 as [s2 ab2 m2 d2].
  pose proof (f_equal vars Hobs) as Hs. pose proof (f_equal aborted Hobs) as Hab.
  pose proof (f_equal main Hobs) as Hm. pose proof (f_equal retired Hobs) as Hd.
  change (obsS s1 = obsS s2) in Hs. change (ab = ab2) in Hab.
  change (obsM m1 = obsM m2) in Hm. change (obsE <$> d1 = obsE <$> d2) in Hd.
  subst ab2. clear Hobs. unfold step. cbn [vars aborted main retired].
  destruct m1 as [q ws1|i es1| |], m2 as [q2 ws2|i2 es2| |]; try done; simpl in Hm.
  - (* threads *)
    injection Hm as <- Hws.
    destruct ev1 as [|k x1|k|], ev2 as [|k2 x2|k2|]; try done; simpl in Hev.
    + destruct ab; [same_state|]. cbn [abortMain].
      pose proof (obsW_rejectDelay _ _ Hws). same_state.
    + injection Hev as <- Hx.
      pose proof (obsW_lookup _ _ k Hws) as Hk.
      destruct (ws1 !! k) as [[e1|]|], (ws2 !! k) as [[e2|]|]; try done; try same_state.
      assert (obsE e1 = obsE e2) as He by (simpl in Hk; congruence).
      pose proof (execStep_alike ab s1 s2 e1 e2 x1 x2 Hs He Hx) as Hstep.
      destruct (execStep r1 ab s1 e1 x1) as [[s1' e1']|],
               (execStep r2 ab s2 e2 x2) as [[s2' e2']|]; try done; [|same_state].
      destruct Hstep as [Hs' He']. simpl in Hs', He'.
      unfold obs. cbn [vars aborted main retired obsM].
      rewrite !list_fmap_insert. cbn [obsW]. congruence.
    + injection Hev as <-.
      pose proof (obsW_lookup _ _ k Hws) as Hk.
      destruct (ws1 !! k) as [[e1|]|], (ws2 !! k) as [[e2|]|]; try done; try same_state.
      assert (obsE e1 = obsE e2) as He by (simpl in Hk; congruence).
      rewrite (obsE_isSettled e1 e2 He).
      destruct (isSettled e2); [|same_state].
      pose proof (workerLoop_alike ab s1 s2 q (S k) Hs) as Hw.
      destruct (workerLoop r1 _ _ _ _) as [[s1' q1'] w1].
      destruct (workerLoop r2 _ _ _ _) as [[s2' q2'] w2].
      simpl in Hw. destruct Hw as (Hs' & -> & Hw').
      unfold obs. cbn [vars aborted main retired obsM].
      rewrite !list_fmap_insert, !fmap_app, !fmap_cons, !fmap_nil. congruence.
    + rewrite (obsW_isFinished _ _ Hws).
      destruct (forallb isFinished ws2); [|same_state].
      apply finish_alike; [by rewrite !obsS_log|done].
  - (* portions *)
    injection Hm as <- Hes.
    destruct ev1 as [|k x1|k|], ev2 as [|k2 x2|k2|]; try done; simpl in Hev;
      try same_state.
    + destruct ab; [same_state|]. cbn [abortMain].
      pose proof (obsEs_rejectDelay _ _ Hes). same_state.
    + injection Hev as <- Hx.
      pose proof (obsE_lookup _ _ k Hes) as Hk.
      destruct (es1 !! k) as [e1|], (es2 !! k) as [e2|]; try done; try same_state.
      assert (obsE e1 = obsE e2) as He by (simpl in Hk; congruence).
      pose proof (execStep_alike ab s1 s2 e1 e2 x1 x2 Hs He Hx) as Hstep.
      destruct (execStep r1 ab s1 e1 x1) as [[s1' e1']|],
               (execStep r2 ab s2 e2 x2) as [[s2' e2']|]; try done; [|same_state].
      destruct Hstep as [Hs' He']. simpl in Hs', He'.
      unfold obs. cbn [vars aborted main retired obsM].
      rewrite !list_fmap_insert. congruence.
    + rewrite (obsE_allSettled _ _ Hes).
      destruct (forallb isSettled es2); [|same_state].
      rewrite <- same_concurrency.
      apply portionsLoop_alike; [by rewrite !obsS_log|].
      rewrite !fmap_app. congruence.
  - destruct ev1, ev2; try done; same_state.
  - destruct ev1, ev2; try done; same_state.
Qed.

Lemma run_alike signalAborted (events1 events2 : list (Event T)) :
  quiet <$> events1 = quiet <$> events2 →
  obs (run r1 signalAborted events1) = obs (run r2 signalAborted events2).
Proof.
  unfold run. generalize (init_alike signalAborted).
  generalize (processUrlsConcurrentlyInTabs (T:=T) r1 signalAborted).
  generalize (processUrlsConcurrentlyInTabs (T:=T) r2 signalAborted).
  revert events2. induction events1 as [|ev1 events1 IH];
    intros [|ev2 events2] st2 st1 Hst Hev; try done.
  apply fmap_cons_eq in Hev as [Hev Hevs]. simpl.
  apply IH; [|done]. by apply step_alike.
Qed.
End Enhanced_alike.

(** ** Callbacks that throw *)

Section Callbacks.
Context {T : Type}.
Implicit Types (st : State T) (events : list (Event T)).


Lemma alike_vars st1 st2 :
  obs st1 = obs st2 →
  Closure.successfulResults (vars st1) = Closure.successfulResults (vars st2) ∧
  Closure.failedTasks (vars st1) = Closure.failedTasks (vars st2) ∧
  Closure.completedCount (vars st1) = Closure.completedCount (vars st2).
Proof.
  intros Hobs. pose proof (f_equal vars Hobs) as Hs.
  change (obsS (vars st1) = obsS (vars st2)) in Hs.
  split; [|split].
  - apply (f_equal Closure.successfulResults) in Hs. exact Hs.
  - apply (f_equal Closure.failedTasks) in Hs. exact Hs.
  - apply (f_equal Closure.completedCount) in Hs. exact Hs.
Qed.

Lemma alike_results (r1 r2 : Run) st1 st2 :
  obs st1 = obs st2 → sameLists (result r1 st1) (result r2 st2).
Proof.
  intros Hobs. destruct (alike_vars st1 st2 Hobs) as (Hsucc & Hfail & _).
  pose proof (f_equal main Hobs) as Hm.
  change (obsM (main st1) = obsM (main st2)) in Hm.
  unfold sameLists, result.
  destruct (main st1), (main st2); simpl in *; try done.
  all: by rewrite Hsucc, Hfail.
Qed.


End Callbacks.

(** ** Duplicates in the list of urls *)

Section Unique.
Implicit Types (u : string) (seen urls : list string).

Lemma existsb_eqb_elem u seen : existsb (String.eqb u) seen = true ↔ u ∈ seen.
Proof.
  induction seen as [|v seen IH]; simpl.
  - split; [done|]. by intros ?%elem_of_nil.
  - rewrite orb_true_iff, IH, elem_of_cons, String.eqb_eq. done.
Qed.

Lemma uniqueFrom_elem u seen urls :
  u ∈ uniqueFrom seen urls ↔ u ∈ urls ∧ u ∉ seen.
Proof.
  revert seen. induction urls as [|v urls IH]; intros seen; simpl.
  - split; [by intros ?%elem_of_nil | by intros [?%elem_of_nil _]].
  - destruct (existsb (String.eqb v) seen) eqn:Hv.
    + apply existsb_eqb_elem in Hv. rewrite IH, elem_of_cons.
      split; [by intuition|]. intros [[->|?] ?]; by intuition.
    + assert (v ∉ seen) as Hv' by (rewrite <- existsb_eqb_elem; congruence).
      rewrite !elem_of_cons, IH, elem_of_cons.
      split.
      * intros [->|(? & ?)]; [by auto|]. split; [by auto|]. by intuition.
      * intros [[->|?] ?]; [by auto|].
        destruct (decide (u = v)) as [->|Hne]; [by auto|]. right. split; [done|].
        by intros [?|?].
Qed.

Lemma uniqueFrom_NoDup seen urls : NoDup (uniqueFrom seen urls).
Proof.
  revert seen. induction urls as [|v urls IH]; intros seen; simpl; [constructor|].
  destruct (existsb (String.eqb v) seen); [done|].
  constructor; [|done]. rewrite uniqueFrom_elem, elem_of_cons. by intuition.
Qed.

Lemma uniqueFrom_id seen urls :
  NoDup urls → (∀ u, u ∈ urls → u ∉ seen) → uniqueFrom seen urls = urls.
Proof.
  revert seen. induction urls as [|v urls IH]; intros seen Hnd Hseen; simpl; [done|].
  apply NoDup_cons in Hnd as [Hv Hnd].
  destruct (existsb (String.eqb v) seen) eqn:Hex.
  - apply existsb_eqb_elem in Hex. destruct (Hseen v); [by left|done].
  - f_equal. apply IH; [done|]. intros u Hu [->|?]%elem_of_cons; [done|].
    apply (Hseen u); [by right|done].
Qed.

Lemma uniqueUrls_NoDup urls : NoDup (uniqueUrls urls).
Proof. apply uniqueFrom_NoDup. Qed.

Lemma uniqueUrls_elem u urls : u ∈ uniqueUrls urls ↔ u ∈ urls.
Proof.
  unfold uniqueUrls. rewrite uniqueFrom_elem. split; [by intros [? _]|].
  intros ?. split; [done|]. by intros ?%elem_of_nil.
Qed.

Lemma uniqueUrls_idempotent urls : uniqueUrls (uniqueUrls urls) = uniqueUrls urls.
Proof.
  apply uniqueFrom_id; [apply uniqueUrls_NoDup|]. by intros u _ ?%elem_of_nil.
Qed.
End Unique.

Section Dedup.
Context {T : Type}.
Implicit Types (events : list (Event T)).

(** C4.  In the threads mode, a run on a list with duplicates and the same
    run on the list without them return together, with the same
    [successfulResults] (as lists, hence as sets) and the same
    [totalUrlsAttempted]; when the signal is not aborted at the call, that is
    the number of the distinct urls of the list. *)
Theorem dedup_idempotent urls (concurrency : nat) (o : ProcessUrlsOptions)
    signalAborted events :
  mode o = threads →
  let r1 := prepare urls concurrency o in
  let r2 := prepare (uniqueUrls urls) concurrency o in
  NoDup (uniqueUrls urls) ∧
  (∀ u, u ∈ uniqueUrls urls ↔ u ∈ urls) ∧
  match result r1 (run r1 signalAborted events),
        result r2 (run r2 signalAborted events) with
  | Some res1, Some res2 =>
      successfulResults res1 = successfulResults res2 ∧
      (∀ x, x ∈ successfulResults res1 ↔ x ∈ successfulResults res2) ∧
      failedTasks res1 = failedTasks res2 ∧
      totalUrlsAttempted (stats res1) = totalUrlsAttempted (stats res2) ∧
      (signalAborted = false →
       totalUrlsAttempted (stats res1) = length (uniqueUrls urls))
  | None, None => True
  | _, _ => False
  end.
Proof.
  intros Hmode r1 r2.
  split; [apply uniqueUrls_NoDup|]. split; [intros u; apply uniqueUrls_elem|].
  assert (urlsToProcess r1 = urlsToProcess r2) as Hurls.
  { subst r1 r2. unfold prepare. simpl. by rewrite Hmode, uniqueUrls_idempotent. }
  assert (urlsToProcess r1 = uniqueUrls urls) as Hunique.
  { subst r1. unfold prepare. simpl. by rewrite Hmode. }
  pose proof (run_alike r1 r2 eq_refl eq_refl Hurls signalAborted events events eq_refl)
    as Hobs.
  pose proof (alike_results r1 r2 _ _ Hobs) as Hres.
  unfold sameLists in Hres.
  destruct (result r1 (run r1 signalAborted events)) as [res1|] eqn:H1,
           (result r2 (run r2 signalAborted events)) as [res2|] eqn:H2; try done.
  destruct Hres as [Hsucc Hfail].
  split; [done|]. split; [by rewrite Hsucc|]. split; [done|].
  pose proof (f_equal main Hobs) as Hm.
  change (obsM (main (run r1 signalAborted events))
          = obsM (main (run r2 signalAborted events))) in Hm.
  apply result_Some in H1 as [(Hm1 & -> & _)|(Hm1 & -> & _)];
    apply result_Some in H2 as [(Hm2 & -> & _)|(Hm2 & -> & _)];
    rewrite Hm1, Hm2 in Hm; try done; simpl.
  - unfold totalUrlsToProcess. rewrite <- Hurls. split; [done|]. by rewrite Hunique.
  - split; [done|]. intros ->. by destruct (started_main r1 events).
Qed.
End Dedup.

(** * The basic version and the enhanced version *)

Ltac unfold_basic :=
  unfold Basic.execStep, Basic.executeTaskWithRetries, Basic.taskSettled,
    Basic.delayRejected, Basic.onErrorSettled, Basic.onProgressSettled,
    Basic.attemptLoop, Basic.recordCompletion, Basic.reportProgress in *.

Section Basic_enhanced.
Context {T : Type}.
Variable r : Run.
Implicit Types (s : Closure.t T) (e : Exec T) (st : State T).

Ltac same_fields :=
  repeat match goal with
  | H : obsS _ = obsS _ |- _ => unfold obsS in H; simpl in H; injection H as ? ? ?
  | H : obsE _ = obsE _ |- _ => unfold obsE in H; simpl in H; injection H as ? ? ? ? ? ?
  end; subst.

(** Block by block: a block of the enhanced version and the block of the
    basic version started alike end alike. *)

Lemma reportProgress_agree s1 s2 e1 e2 :
  obsS s1 = obsS s2 → obsE e1 = obsE e2 →
  alike (reportProgress r s1 e1) (Basic.reportProgress r s2 e2).
Proof.
  intros Hs He. destruct s1, s2, e1, e2. same_fields.
  unfold alike, reportProgress, Basic.reportProgress. simpl.
  by destruct (_ && _).
Qed.

Lemma recordCompletion_agree s1 s2 e1 e2 :
  obsS s1 = obsS s2 → obsE e1 = obsE e2 →
  alike (recordCompletion r s1 e1) (Basic.recordCompletion r s2 e2).
Proof.
  intros Hs He. destruct s1, s2, e1, e2. same_fields.
  unfold recordCompletion, Basic.recordCompletion. simpl.
  repeat case_match; first [done | by apply reportProgress_agree].
Qed.

Lemma attemptLoop_agree ab s1 s2 e1 e2 :
  obsS s1 = obsS s2 → obsE e1 = obsE e2 →
  alike (attemptLoop r ab s1 e1) (Basic.attemptLoop r ab s2 e2).
Proof.
  intros Hs He. destruct s1, s2, e1, e2. same_fields.
  unfold attemptLoop, Basic.attemptLoop. simpl.
  repeat case_match; first [done | by apply recordCompletion_agree].
Qed.

Lemma taskSettled_agree ab s1 s2 e1 e2 out :
  obsS s1 = obsS s2 → obsE e1 = obsE e2 → retryableX r (TaskSettles out) →
  alike (taskSettled r ab s1 e1 out) (Basic.taskSettled r ab s2 e2 out).
Proof.
  intros Hs He Hx. destruct s1, s2, e1, e2. same_fields.
  unfold taskSettled, Basic.taskSettled. destruct out as [items|thrown].
  - by apply recordCompletion_agree.
  - simpl in Hx. cbv zeta. rewrite Hx. unfold Basic.attemptLoop at 2.
    cbn [andb attempts incAttempts setLastError countRetry].
    destruct (_ <=? _).
    + destruct (0 <? _)%Z; [done|]. by apply attemptLoop_agree.
    + by apply recordCompletion_agree.
Qed.

Lemma execStep_agree ab s1 s2 e1 e2 x :
  obsS s1 = obsS s2 → obsE e1 = obsE e2 → retryableX r x →
  alikeOpt (execStep r ab s1 e1 x) (Basic.execStep r ab s2 e2 x).
Proof.
  intros Hs He Hx.
  assert (pc e1 = pc e2) as Hpc by (destruct e1, e2; by same_fields).
  unfold alikeOpt, execStep, Basic.execStep. rewrite Hpc.
  destruct (pc e2), x as [out| | |threw|threw]; try done; cbv beta iota.
  - by apply taskSettled_agree.
  - by apply attemptLoop_agree.
  - unfold delayRejected, Basic.delayRejected. apply recordCompletion_agree; [done|].
    destruct e1, e2. by same_fields.
  - unfold onErrorSettled, Basic.onErrorSettled. apply reportProgress_agree; [|done].
    by destruct threw.
  - unfold onProgressSettled, Basic.onProgressSettled, alike. simpl.
    split; [by destruct threw|]. destruct e1, e2. by same_fields.
Qed.

Lemma start_agree ab s1 s2 u :
  obsS s1 = obsS s2 →
  alike (executeTaskWithRetries r ab s1 u) (Basic.executeTaskWithRetries r ab s2 u).
Proof.
  intros Hs. unfold executeTaskWithRetries, Basic.executeTaskWithRetries.
  by apply attemptLoop_agree.
Qed.

Lemma workerLoop_agree ab s1 s2 q workerId :
  obsS s1 = obsS s2 →
  let a := workerLoop r ab s1 q workerId in
  let b := Basic.workerLoop r ab s2 q in
  obsS a.1.1 = obsS b.1.1 ∧ a.1.2 = b.1.2 ∧ obsW a.2 = obsW b.2.
Proof.
  intros Hs. unfold workerLoop, Basic.workerLoop. destruct q as [|u rest]; [done|].
  destruct ab; [done|]. destruct (String.eqb u ""); [done|].
  pose proof (start_agree false
    (log DEBUG (MsgWorkerProcessing workerId u (length rest)) None None s1) s2 u) as Hstart.
  destruct (executeTaskWithRetries r _ _ _) as [s1' e1'].
  destruct (Basic.executeTaskWithRetries r _ _ _) as [s2' e2'].
  destruct Hstart as [Hs' He']; [by rewrite !obsS_log|]. simpl in *.
  split; [done|]. split; [done|]. by rewrite He'.
Qed.

Lemma launchWorkers_agree ab n workerId s1 s2 q :
  obsS s1 = obsS s2 →
  let a := launchWorkers r ab n workerId s1 q in
  let b := Basic.launchWorkers r ab n s2 q in
  obsS a.1.1 = obsS b.1.1 ∧ a.1.2 = b.1.2 ∧ obsW <$> a.2 = obsW <$> b.2.
Proof.
  revert workerId s1 s2 q. induction n as [|n IH]; intros workerId s1 s2 q Hs; simpl; [done|].
  unfold startWorker.
  pose proof (workerLoop_agree ab
    (log DEBUG (MsgWorkerStarting workerId) None None s1) s2 q workerId) as Hw.
  destruct (workerLoop r _ _ _ _) as [[s1' q1'] w1].
  destruct (Basic.workerLoop r _ _ _) as [[s2' q2'] w2].
  destruct Hw as (Hs' & Hq' & Hw'); [by rewrite !obsS_log|]. simpl in *. subst q2'.
  specialize (IH (S workerId) s1' s2' q1' Hs').
  destruct (launchWorkers r _ _ _ _ _) as [[s1'' q1''] ws1].
  destruct (Basic.launchWorkers r _ _ _ _) as [[s2'' q2''] ws2].
  simpl in *. destruct IH as (? & ? & ?). split; [done|]. split; [done|].
  by f_equal.
Qed.

Lemma startChunk_agree ab s1 s2 chunk :
  obsS s1 = obsS s2 →
  let a := startChunk r ab s1 chunk in
  let b := Basic.startChunk r ab s2 chunk in
  obsS a.1 = obsS b.1 ∧ obsE <$> a.2 = obsE <$> b.2.
Proof.
  revert s1 s2. induction chunk as [|u chunk IH]; intros s1 s2 Hs; simpl; [done|].
  pose proof (start_agree ab s1 s2 u Hs) as Hstart.
  destruct (executeTaskWithRetries r _ _ _) as [s1' e1'].
  destruct (Basic.executeTaskWithRetries r _ _ _) as [s2' e2'].
  destruct Hstart as [Hs' He']. simpl in *.
  specialize (IH s1' s2' Hs').
  destruct (startChunk r _ _ _) as [s1'' es1].
  destruct (Basic.startChunk r _ _ _) as [s2'' es2].
  simpl in *. destruct IH as [? ?]. split; [done|].
  by f_equal.
Qed.

Lemma finish_agree ab s1 s2 (done1 done2 : list (Exec T)) :
  obsS s1 = obsS s2 → obsE <$> done1 = obsE <$> done2 →
  obs (finish r ab s1 done1) = obs (Basic.finish ab s2 done2).
Proof.
  intros Hs Hd. unfold finish, Basic.finish, obs. simpl. rewrite Hd. f_equal.
  destruct ab; by rewrite !obsS_log.
Qed.

Lemma portionsLoop_agree ab s1 s2 i (done1 done2 : list (Exec T)) :
  obsS s1 = obsS s2 → obsE <$> done1 = obsE <$> done2 →
  obs (portionsLoop r ab s1 i done1) = obs (Basic.portionsLoop r ab s2 i done2).
Proof.
  intros Hs Hd. unfold portionsLoop, Basic.portionsLoop.
  destruct (i <? totalUrlsToProcess r); [|by apply finish_agree].
  destruct ab; [apply finish_agree; [by rewrite !obsS_log|done]|].
  set (chunk := take (maxConcurrency r) (drop i (urlsToProcess r))).
  pose proof (startChunk_agree false
    (log INFO (MsgProcessingChunk i (length chunk)) None None s1) s2 chunk) as Hchunk.
  destruct (startChunk r _ _ _) as [s1' es1].
  destruct (Basic.startChunk r _ _ _) as [s2' es2].
  destruct Hchunk as [Hs' Hes]; [by rewrite !obsS_log|]. simpl in *.
  unfold obs. simpl. by rewrite Hs', Hes, Hd.
Qed.

Lemma init_agree signalAborted :
  obs (processUrlsConcurrentlyInTabs (T:=T) r signalAborted)
  = obs (Basic.processUrlsConcurrentlyInTabs r signalAborted).
Proof.
  unfold processUrlsConcurrentlyInTabs, Basic.processUrlsConcurrentlyInTabs.
  match goal with
  | |- obs (if _ then mkState (log _ _ _ _ ?sa) _ _ _ else _) = _ => set (s1 := sa)
  end.
  assert (obsS s1 = obsS Closure.empty) as Hs.
  { subst s1. by destruct (blockResources (options r)). }
  clearbody s1.
  destruct signalAborted; [unfold obs; simpl; by rewrite !obsS_log, Hs|].
  destruct (mode (options r)); [by apply portionsLoop_agree|].
  set (n := Nat.min (maxConcurrency r) (totalUrlsToProcess r)).
  pose proof (launchWorkers_agree false n 1
    (log INFO (MsgLaunching n) None None s1) Closure.empty (urlsToProcess r)) as Hl.
  destruct (launchWorkers r _ _ _ _ _) as [[s1' q1'] ws1].
  destruct (Basic.launchWorkers r _ _ _ _) as [[s2' q2'] ws2].
  destruct Hl as (Hs' & Hq' & Hws); [by rewrite !obsS_log|].
  simpl in *. unfold obs. simpl. by rewrite Hs', Hq', Hws.
Qed.

(** The same event takes a state of the enhanced version and a state of the
    basic version that look alike to two states that look alike, when the
    error of a failed task is retryable. *)
Lemma step_agree st1 st2 ev :
  obs st1 = obs st2 → retryableEvent r ev →
  obs (step r st1 ev) = obs (Basic.step r st2 ev).
Proof.
  intros Hobs Hev.
  destruct st1 as [s1 ab m1 d1], st2 as [s2 ab2 m2 d2].
  pose proof (f_equal vars Hobs) as Hs. pose proof (f_equal aborted Hobs) as Hab.
  pose proof (f_equal main Hobs) as Hm. pose proof (f_equal retired Hobs) as Hd.
  change (obsS s1 = obsS s2) in Hs. change (ab = ab2) in Hab.
  change (obsM m1 = obsM m2) in Hm. change (obsE <$> d1 = obsE <$> d2) in Hd.
  subst ab2. clear Hobs. unfold step, Basic.step. cbn [vars aborted main retired].
  destruct m1 as [q ws1|i es1| |], m2 as [q2 ws2|i2 es2| |]; try done; simpl in Hm.
  - (* threads *)
    injection Hm as <- Hws.
    destruct ev as [|k x|k|]; simpl in Hev.
    + destruct ab; [same_state|]. cbn [abortMain].
      pose proof (obsW_rejectDelay _ _ Hws). same_state.
    + pose proof (obsW_lookup _ _ k Hws) as Hk.
      destruct (ws1 !! k) as [[e1|]|], (ws2 !! k) as [[e2|]|]; try done; try same_state.
      assert (obsE e1 = obsE e2) as He by (simpl in Hk; congruence).
      pose proof (execStep_agree ab s1 s2 e1 e2 x Hs He Hev) as Hstep.
      destruct (execStep r ab s1 e1 x) as [[s1' e1']|],
               (Basic.execStep r ab s2 e2 x) as [[s2' e2']|]; try done; [|same_state].
      destruct Hstep as [Hs' He']. simpl in Hs', He'.
      unfold obs. cbn [vars aborted main retired obsM].
      rewrite !list_fmap_insert. cbn [obsW]. congruence.
    + pose proof (obsW_lookup _ _ k Hws) as Hk.
      destruct (ws1 !! k) as [[e1|]|], (ws2 !! k) as [[e2|]|]; try done; try same_state.
      assert (obsE e1 = obsE e2) as He by (simpl in Hk; congruence).
      rewrite (obsE_isSettled e1 e2 He).
      destruct (isSettled e2); [|same_state].
      pose proof (workerLoop_agree ab s1 s2 q (S k) Hs) as Hw.
      destruct (workerLoop r _ _ _ _) as [[s1' q1'] w1].
      destruct (Basic.workerLoop r _ _ _) as [[s2' q2'] w2].
      simpl in Hw. destruct Hw as (Hs' & -> & Hw').
      unfold obs. cbn [vars aborted main retired obsM].
      rewrite !list_fmap_insert, !fmap_app, !fmap_cons, !fmap_nil. congruence.
    + rewrite (obsW_isFinished _ _ Hws).
      destruct (forallb isFinished ws2); [|same_state].
      apply finish_agree; [by rewrite !obsS_log|done].
  - (* portions *)
    injection Hm as <- Hes.
    destruct ev as [|k x|k|]; simpl in Hev; try same_state.
    + destruct ab; [same_state|]. cbn [abortMain].
      pose proof (obsEs_rejectDelay _ _ Hes). same_state.
    + pose proof (obsE_lookup _ _ k Hes) as Hk.
      destruct (es1 !! k) as [e1|], (es2 !! k) as [e2|]; try done; try same_state.
      assert (obsE e1 = obsE e2) as He by (simpl in Hk; congruence).
      pose proof (execStep_agree ab s1 s2 e1 e2 x Hs He Hev) as Hstep.
      destruct (execStep r ab s1 e1 x) as [[s1' e1']|],
               (Basic.execStep r ab s2 e2 x) as [[s2' e2']|]; try done; [|same_state].
      destruct Hstep as [Hs' He']. simpl in Hs', He'.
      unfold obs. cbn [vars aborted main retired obsM].
      rewrite !list_fmap_insert. congruence.
    + rewrite (obsE_allSettled _ _ Hes).
      destruct (forallb isSettled es2); [|same_state].
      apply portionsLoop_agree; [by rewrite !obsS_log|].
      rewrite !fmap_app. congruence.
  - destruct ev; same_state.
  - destruct ev; same_state.
Qed.

Lemma run_agree signalAborted (events : list (Event T)) :
  Forall (retryableEvent r) events →
  obs (run r signalAborted events) = obs (Basic.run r signalAborted events).
Proof.
  unfold run, Basic.run. generalize (init_agree signalAborted).
  generalize (processUrlsConcurrentlyInTabs (T:=T) r signalAborted).
  generalize (Basic.processUrlsConcurrentlyInTabs (T:=T) r signalAborted).
  induction events as [|ev events IH]; intros st2 st1 Hst Hev; [done|].
  apply Forall_cons in Hev as [Hev Hevs]. simpl.
  apply IH; [|done]. by apply step_agree.
Qed.
End Basic_enhanced.

Section Refinement.
Context {T : Type}.
Implicit Types (events : list (Event T)).

(** C10.  With the default [isRetryable] and task functions that throw
    nothing but errors named ['TimeoutError'], the enhanced version and the
    basic version, run on the same arguments with the same events, return
    together and return the same [successfulResults] and the same
    [failedTasks]. *)
Theorem basic_enhanced_agree urls (concurrency : nat) (o : ProcessUrlsOptions)
    signalAborted events :
  (∀ err, isRetryable o err = defaultIsRetryable err) →
  allTimeouts events = true →
  let r := prepare urls concurrency o in
  match result r (run r signalAborted events),
        Basic.result (Basic.run r signalAborted events) with
  | Some res, Some bres =>
      successfulResults res = basicSuccessfulResults bres ∧
      failedTasks res = basicFailedTasks bres
  | None, None => True
  | _, _ => False
  end.
Proof.
  intros Hdefault Hall r.
  assert (Forall (retryableEvent r) events) as Hretry.
  { unfold allTimeouts in Hall.
    pose proof (proj1 (forallb_forall _ _) Hall) as Hall'.
    apply Forall_forall. intros ev Hev%list_elem_of_In. specialize (Hall' ev Hev).
    destruct ev as [|k [[items|thrown]| | | |]| |]; try done. simpl in *.
    by rewrite Hdefault. }
  pose proof (run_agree r signalAborted events Hretry) as Hobs.
  destruct (alike_vars _ _ Hobs) as (Hsucc & Hfail & _).
  pose proof (f_equal main Hobs) as Hm.
  change (obsM (main (run r signalAborted events))
          = obsM (main (Basic.run r signalAborted events))) in Hm.
  unfold result, Basic.result.
  destruct (main (run r signalAborted events)),
           (main (Basic.run r signalAborted events)); simpl in *; try done.
Qed.
End Refinement.

(** * The theorems on concrete runs *)

(** The retries of the run [retryThenSuccess]: one made, one counted. *)
Lemma retry_bound_witness :
  let r := prepare ["https://a.example"%string] 1 oneRetry in
  let st := run r false retryThenSuccess in
  aborted st = false ∧
  match result r st with
  | Some res =>
      totalRetriesMade (stats res) = sum_list_with retriesOf (retired st) ∧
      totalRetriesMade (stats res) = 1
  | None => False
  end.
Proof.
  intros r st. split; [reflexivity|].
  destruct (result r st) as [res|] eqn:Hres; [|vm_compute in Hres; discriminate].
  destruct (proj2 (retry_bound r false retryThenSuccess) res Hres) as (_ & _ & Heq & _).
  split; [apply Heq; reflexivity|].
  vm_compute in Hres. injection Hres as <-. reflexivity.
Defined.


(** A list of three urls, two of them equal, and the list without the
    duplicate. *)
Lemma dedup_idempotent_witness :
  let r1 := prepare duplicateUrls 2 defaultOptions in
  let r2 := prepare (uniqueUrls duplicateUrls) 2 defaultOptions in
  mode defaultOptions = threads ∧
  match result r1 (run r1 false twoSuccesses), result r2 (run r2 false twoSuccesses) with
  | Some res1, Some res2 =>
      successfulResults res1 = successfulResults res2 ∧
      totalUrlsAttempted (stats res1) = length (uniqueUrls duplicateUrls)
  | _, _ => False
  end.
Proof.
  intros r1 r2. split; [reflexivity|].
  pose proof (dedup_idempotent duplicateUrls 2 defaultOptions false twoSuccesses eq_refl)
    as (_ & _ & H).
  fold r1 r2 in H.
  destruct (result r1 (run r1 false twoSuccesses)) as [res1|] eqn:H1;
    [|vm_compute in H1; discriminate].
  destruct (result r2 (run r2 false twoSuccesses)) as [res2|] eqn:H2;
    [|vm_compute in H2; discriminate].
  destruct H as (Hsucc & _ & _ & _ & Hcount). split; [done|]. by apply Hcount.
Defined.

(** The run [abortDuringTask]: nothing done, [totalSuccess] is 1. *)
Lemma cancelled_item_counted_as_success_witness :
  let r := prepare ["https://a.example"%string] 1 oneRetry in
  let st := run r false abortDuringTask in
  let e : Exec string := mkExec "https://a.example" 1 None None 0 0 (AwaitDelay 500) 1 1 in
  attempts e ≤ maxRetries (options r) ∧
  Closure.completedCount (attemptLoop r true Closure.empty e).1 = 1 ∧
  match result r st with
  | Some res => totalSuccess (stats res) = 1%Z ∧ successfulResults res = []
  | None => False
  end.
Proof.
  intros r st e.
  assert (attempts e ≤ maxRetries (options r)) as Hle by (simpl; lia).
  split; [exact Hle|].
  split.
  { by destruct (proj1 (cancelled_item_counted_as_success r) Closure.empty e Hle)
      as (-> & _). }
  destruct (result r st) as [res|] eqn:Hres; [|vm_compute in Hres; discriminate].
  pose proof (proj2 (proj2 (cancelled_item_counted_as_success r)) false abortDuringTask
                res Hres) as Hsucc.
  split; [rewrite Hsucc; reflexivity|].
  vm_compute in Hres. injection Hres as <-. reflexivity.
Defined.

(** The two versions on the run [retryThenSuccess]. *)
Lemma basic_enhanced_agree_witness :
  let r := prepare ["https://a.example"%string] 1 oneRetry in
  allTimeouts retryThenSuccess = true ∧
  match result r (run r false retryThenSuccess),
        Basic.result (Basic.run r false retryThenSuccess) with
  | Some res, Some bres =>
      successfulResults res = basicSuccessfulResults bres ∧
      failedTasks res = basicFailedTasks bres
  | _, _ => False
  end.
Proof.
  intros r. split; [reflexivity|].
  pose proof (basic_enhanced_agree ["https://a.example"%string] 1 oneRetry false
                retryThenSuccess (λ _, eq_refl) eq_refl) as H.
  cbv zeta in H. fold r in H.
  destruct (result r (run r false retryThenSuccess)) as [res|] eqn:H1;
    [|vm_compute in H1; discriminate].
  destruct (Basic.result (Basic.run r false retryThenSuccess)) as [bres|] eqn:H2;
    [|vm_compute in H2; discriminate].
  exact H.
Defined.

(** * Further properties of the enhanced version *)

Section Shared_variables.
Context {T : Type}.
Variable r : Run.
Implicit Types (s : Closure.t T) (e : Exec T) (ab : bool) (st : State T).
Implicit Types (events : list (Event T)).

(** *** The blocks of [executeTaskWithRetries], update by update

    Each block changes the shared variables by the updates of [keeps] only,
    so a relation kept by these is kept by every block. *)
Section Blocks.
Variable R : string → Closure.t T → Closure.t T → Prop.
Hypothesis HR : keeps r R.

Lemma reportProgress_keeps u s e : R u s (reportProgress r s e).1.
Proof.
  destruct HR as (Hrefl & _ & _ & _ & _ & _ & _ & _ & Hprogress & _).
  unfold reportProgress. cbv zeta.
  destruct (onProgress (options r)) eqn:Hon; simpl; [|apply Hrefl].
  destruct (notAborted (lastError e)); simpl; [by apply Hprogress|apply Hrefl].
Qed.

Lemma recordCompletion_keeps s e : R (url e) s (recordCompletion r s e).1.
Proof.
  pose proof HR as (Hrefl & Htrans & _ & _ & _ & Hcompleted & Hfailed & Hresults & _).
  eapply Htrans; [apply (Hcompleted (url e) s)|].
  unfold recordCompletion. cbv zeta. simpl.
  destruct (lastError e) as [err|].
  - destruct (isAbortMessage err) eqn:Hab; simpl; [apply reportProgress_keeps|].
    specialize (Hfailed (url e) err (attempts e) (incCompleted s) Hab).
    destruct (onError (options r)); simpl; [exact Hfailed|].
    eapply Htrans; [exact Hfailed|]. apply reportProgress_keeps.
  - destruct (taskResult e) as [[|item items]|]; try apply reportProgress_keeps.
    eapply Htrans; [apply (Hresults (url e) (item :: items))|]. apply reportProgress_keeps.
Qed.

Lemma attemptLoop_keeps ab s e : R (url e) s (attemptLoop r ab s e).1.
Proof.
  pose proof HR as (Hrefl & Htrans & Hlog & _).
  unfold attemptLoop. cbv zeta.
  destruct (attempts e <=? maxRetries (options r)); [destruct ab|].
  - eapply Htrans; [|exact (recordCompletion_keeps _ (setLastError _ e))].
    by apply Hlog.
  - apply Hrefl.
  - apply recordCompletion_keeps.
Qed.

Lemma taskSettled_keeps ab s e out : R (url e) s (taskSettled r ab s e out).1.
Proof.
  pose proof HR as (Hrefl & Htrans & Hlog & Hretry & Hdelay & _).
  unfold taskSettled. cbv zeta. destruct out as [items|thrown].
  - eapply Htrans;
      [|exact (recordCompletion_keeps _ (setLastError None (setTaskResult (Some items) e)))].
    by apply Hlog.
  - destruct (isRetryable (options r) (toError thrown) && _).
    + destruct (0 <? _)%Z; simpl.
      * apply Hdelay.
      * eapply Htrans; [apply Hretry|].
        exact (attemptLoop_keeps ab _
                 (countRetry (incAttempts (setLastError (Some (toError thrown)) e)))).
    + eapply Htrans;
        [|exact (recordCompletion_keeps _ (incAttempts (setLastError (Some (toError thrown)) e)))].
      apply Hlog. by destruct (negb _).
Qed.

Lemma delayRejected_keeps s e : R (url e) s (delayRejected r s e).1.
Proof.
  pose proof HR as (_ & Htrans & Hlog & _).
  unfold delayRejected.
  eapply Htrans; [|exact (recordCompletion_keeps _ (setLastError _ e))].
  by apply Hlog.
Qed.

Lemma onErrorSettled_keeps threw s e : R (url e) s (onErrorSettled r threw s e).1.
Proof.
  pose proof HR as (Hrefl & Htrans & _ & _ & _ & _ & _ & _ & _ & Hconsole).
  unfold onErrorSettled. eapply Htrans; [|apply reportProgress_keeps].
  destruct threw; [apply Hconsole|apply Hrefl].
Qed.

Lemma onProgressSettled_keeps threw s e : R (url e) s (onProgressSettled threw s e).1.
Proof.
  pose proof HR as (Hrefl & _ & _ & _ & _ & _ & _ & _ & _ & Hconsole).
  unfold onProgressSettled. simpl. destruct threw; [apply Hconsole|apply Hrefl].
Qed.

Lemma start_keeps ab s u s' e' :
  executeTaskWithRetries r ab s u = (s', e') → R u s s'.
Proof.
  pose proof HR as (_ & Htrans & Hlog & _).
  unfold executeTaskWithRetries. intros H.
  eapply Htrans; [by apply (Hlog u DEBUG MsgStartingTask (Some u) (Some 1) s)|].
  pose proof (attemptLoop_keeps ab (log DEBUG MsgStartingTask (Some u) (Some 1) s) (newExec u))
    as Hloop.
  by rewrite H in Hloop.
Qed.

Lemma execStep_keeps ab s e x s' e' :
  execStep r ab s e x = Some (s', e') → R (url e) s s'.
Proof.
  unfold execStep. intros H.
  destruct (pc e), x as [out| | |threw|threw]; simplify_eq.
  - pose proof (taskSettled_keeps ab s e out) as Hb. by rewrite H in Hb.
  - pose proof (attemptLoop_keeps ab s e) as Hb. by rewrite H in Hb.
  - pose proof (delayRejected_keeps s e) as Hb. by rewrite H in Hb.
  - pose proof (onErrorSettled_keeps threw s e) as Hb. by rewrite H in Hb.
  - pose proof (onProgressSettled_keeps threw s e) as Hb. by rewrite H in Hb.
Qed.
End Blocks.

(** *** The coroutine at the end of a block

    A block leaves the coroutine in the part after the retry loop, or at the
    call of the task function, or in the delay of a retry. *)

Lemma reportProgress_completes s e : completes e (reportProgress r s e).2.
Proof.
  unfold reportProgress, completes. cbv zeta.
  destruct (_ && _); simpl; auto 10.
Qed.

Lemma completes_after e0 e e' :
  url e = url e0 → invocations e = invocations e0 → retriesCounted e = retriesCounted e0 →
  completes e e' → completes e0 e'.
Proof. intros Hu Hi Hc (?&?&?&?). repeat split; [congruence..|done]. Qed.

Lemma recordCompletion_completes s e : completes e (recordCompletion r s e).2.
Proof.
  unfold recordCompletion. cbv zeta. simpl.
  destruct (lastError e) as [err|].
  - destruct (isAbortMessage err); simpl.
    + by eapply completes_after; [..|apply reportProgress_completes].
    + destruct (onError (options r)); simpl.
      * unfold completes. simpl. auto 10.
      * by eapply completes_after; [..|apply reportProgress_completes].
  - destruct (taskResult e) as [items|];
      by eapply completes_after; [..|apply reportProgress_completes].
Qed.

Lemma attemptLoop_ends ab s e :
  completes e (attemptLoop r ab s e).2 ∨
  (ab = false ∧ (attemptLoop r ab s e).2 = invokeTask e).
Proof.
  unfold attemptLoop. cbv zeta.
  destruct (attempts e <=? maxRetries (options r)); [destruct ab|].
  - left. by eapply completes_after; [..|apply recordCompletion_completes].
  - by right.
  - left. apply recordCompletion_completes.
Qed.

Lemma taskSettled_ends ab s e out :
  completes e (taskSettled r ab s e out).2 ∨
  ∃ thrown, out = Rejected thrown ∧ isRetryable (options r) (toError thrown) = true ∧
    let e1 := countRetry (incAttempts (setLastError (Some (toError thrown)) e)) in
    (∃ delay, (taskSettled r ab s e out).2 = setPc (AwaitDelay delay) e1) ∨
    (∃ s1, (taskSettled r ab s e out).2 = (attemptLoop r ab s1 e1).2).
Proof.
  unfold taskSettled. cbv zeta. destruct out as [items|thrown].
  - left. by eapply completes_after; [..|apply recordCompletion_completes].
  - destruct (isRetryable (options r) (toError thrown)) eqn:Hr; cbn [andb].
    + destruct (_ <=? _).
      * right. exists thrown. split; [done|]. split; [done|].
        destruct (0 <? _)%Z; simpl; [left|right]; by eexists.
      * left. by eapply completes_after; [..|apply recordCompletion_completes].
    + left. by eapply completes_after; [..|apply recordCompletion_completes].
Qed.

Lemma delayRejected_completes s e : completes e (delayRejected r s e).2.
Proof.
  unfold delayRejected. by eapply completes_after; [..|apply recordCompletion_completes].
Qed.

Lemma onErrorSettled_completes threw s e : completes e (onErrorSettled r threw s e).2.
Proof. unfold onErrorSettled. apply reportProgress_completes. Qed.

Lemma onProgressSettled_completes threw s e : completes e (onProgressSettled threw s e).2.
Proof. unfold onProgressSettled, completes. simpl. auto 10. Qed.

(** *** A relation between the shared variables before and after a block

    When every block of [executeTaskWithRetries] takes the shared variables
    to related ones, and so does every entry the scheduler logs on its own,
    so does every event, and so does every run from the empty variables of
    the call. *)
Section Shared.
Variable R : Closure.t T → Closure.t T → Prop.
Hypothesis R_refl : ∀ s, R s s.
Hypothesis R_trans : ∀ s1 s2 s3, R s1 s2 → R s2 s3 → R s1 s3.
Hypothesis R_log : ∀ lv m u a s, fromScheduler m = true → R s (log lv m u a s).
Hypothesis execStep_R : ∀ ab s e x s' e',
  execStep r ab s e x = Some (s', e') → R s s'.
Hypothesis start_R : ∀ ab s u s' e',
  executeTaskWithRetries r ab s u = (s', e') → R s s'.

Lemma workerLoop_R ab s q workerId s' q' w :
  workerLoop r ab s q workerId = (s', q', w) → R s s'.
Proof.
  unfold workerLoop. destruct q as [|u rest]; [by intros [= <- <- <-]; apply R_log|].
  destruct ab.
  { intros [= <- <- <-]. eapply R_trans; [|by apply R_log]. by apply R_log. }
  destruct (String.eqb u ""); [by intros [= <- <- <-]; apply R_log|].
  destruct (executeTaskWithRetries _ _ _ _) as [s1 e1] eqn:Hstart.
  intros [= <- <- <-]. eapply R_trans; [|by eapply start_R]. by apply R_log.
Qed.

Lemma launchWorkers_R ab n workerId s q s' q' ws :
  launchWorkers r ab n workerId s q = (s', q', ws) → R s s'.
Proof.
  revert workerId s q s' q' ws.
  induction n as [|n IH]; intros workerId s q s' q' ws; simpl.
  - intros [= <- <- <-]. apply R_refl.
  - destruct (startWorker r ab s q workerId) as [[s1 q1] w] eqn:Hw.
    destruct (launchWorkers r ab n (S workerId) s1 q1) as [[s2 q2] ws2] eqn:Hrest.
    intros [= <- <- <-]. apply IH in Hrest.
    unfold startWorker in Hw. apply workerLoop_R in Hw.
    eapply R_trans; [|exact Hrest]. eapply R_trans; [|exact Hw]. by apply R_log.
Qed.

Lemma startChunk_R ab s chunk s' es :
  startChunk r ab s chunk = (s', es) → R s s'.
Proof.
  revert s s' es. induction chunk as [|u chunk IH]; intros s s' es; simpl.
  - intros [= <- <-]. apply R_refl.
  - destruct (executeTaskWithRetries r ab s u) as [s1 e1] eqn:Hstart.
    destruct (startChunk r ab s1 chunk) as [s2 es2] eqn:Hrest.
    intros [= <- <-]. apply IH in Hrest. apply start_R in Hstart.
    by eapply R_trans.
Qed.

Lemma finish_R ab s done : R s (vars (finish r ab s done)).
Proof. unfold finish. destruct ab; simpl; by apply R_log. Qed.

Lemma portionsLoop_R ab s i done : R s (vars (portionsLoop r ab s i done)).
Proof.
  unfold portionsLoop. destruct (i <? totalUrlsToProcess r); [|apply finish_R].
  destruct ab; [eapply R_trans; [|apply finish_R]; by apply R_log|].
  destruct (startChunk _ _ _ _) as [s1 es] eqn:Hchunk. simpl.
  apply startChunk_R in Hchunk. eapply R_trans; [|exact Hchunk]; by apply R_log.
Qed.

Lemma init_R signalAborted :
  R Closure.empty (vars (processUrlsConcurrentlyInTabs r signalAborted)).
Proof.
  unfold processUrlsConcurrentlyInTabs.
  set (s0 := match blockResources (options r) with [] => _ | _ => _ end).
  assert (R Closure.empty s0) as Hs0.
  { subst s0. destruct (blockResources (options r));
      repeat (eapply R_trans; [|by apply R_log]); apply R_refl. }
  destruct signalAborted; [simpl; eapply R_trans; [exact Hs0|by apply R_log]|].
  destruct (mode (options r)).
  - eapply R_trans; [exact Hs0|apply portionsLoop_R].
  - destruct (launchWorkers _ _ _ _ _ _) as [[s1 q1] ws] eqn:Hlaunch. simpl.
    apply launchWorkers_R in Hlaunch.
    eapply R_trans; [exact Hs0|]. eapply R_trans; [|exact Hlaunch]; by apply R_log.
Qed.

Lemma step_R st ev : R (vars st) (vars (step r st ev)).
Proof.
  revert st ev.
  apply (step_cases r (λ st st', R (vars st) (vars st'))); try (intros; apply R_refl).
  - intros st q ws k e x s e' _ _ Hx. by eapply execStep_R.
  - intros st i es k e x s e' _ _ Hx. by eapply execStep_R.
  - intros st q ws k e s q' w _ _ _ Hw. by eapply workerLoop_R.
  - intros st q ws _ _. eapply R_trans; [|apply finish_R]; by apply R_log.
  - intros st i es _ _. eapply R_trans; [|apply portionsLoop_R]; by apply R_log.
Qed.

Lemma steps_R st events : R (vars st) (vars (fold_left (step r) events st)).
Proof.
  revert st. induction events as [|ev events IH]; intros st; simpl; [apply R_refl|].
  eapply R_trans; [apply step_R|apply IH].
Qed.

Lemma run_R signalAborted events more :
  R (vars (run r signalAborted events)) (vars (run r signalAborted (events ++ more))).
Proof. unfold run. rewrite fold_left_app. apply steps_R. Qed.

Lemma run_from_empty signalAborted events :
  R Closure.empty (vars (run r signalAborted events)).
Proof. eapply R_trans; [apply init_R|apply steps_R]. Qed.
End Shared.


(** *** The shared variables only grow *)

Lemma grows_refl s : grows s s.
Proof. by repeat split. Qed.

Lemma grows_trans s1 s2 s3 : grows s1 s2 → grows s2 s3 → grows s1 s3.
Proof.
  intros (?&?&?&?&?&?&?) (?&?&?&?&?&?&?).
  repeat split; try (etrans; eassumption); lia.
Qed.

Lemma grows_pushLog entry s : grows s (pushLog entry s).
Proof. unfold grows. simpl. repeat split; try done. by apply prefix_app_r. Qed.

Lemma grows_keeps : keeps (T:=T) r (λ _, grows).
Proof.
  unfold keeps. split; [intros; apply grows_refl|].
  split; [intros ? ? ? ?; apply grows_trans|].
  split_and!; intros; try destruct (onError (options r));
    unfold grows; simpl; split_and!;
    repeat first [done | lia | apply prefix_app_r].
Qed.

Lemma fromScheduler_not_retry m : fromScheduler m = true → isRetryMessage m = false.
Proof. by destruct m. Qed.

(** X1.  Along a run the shared variables only grow: [logHistory],
    [successfulResults] and [failedTasks] are extended at their end, nothing
    is removed from them or changed in them, and [completedCount] and
    [totalRetriesMade] never go down. *)
Theorem shared_variables_grow signalAborted events more :
  grows (vars (run r signalAborted events)) (vars (run r signalAborted (events ++ more))).
Proof.
  apply run_R.
  - exact grows_refl.
  - exact grows_trans.
  - intros. apply grows_pushLog.
  - intros ab s e x s' e'. apply (execStep_keeps _ grows_keeps).
  - intros ab s u s' e'. apply (start_keeps _ grows_keeps).
Qed.


(** *** A property of the shared variables *)

Lemma run_shared (J : Closure.t T → Prop) signalAborted events :
  J Closure.empty →
  keeps r (λ _ s s', J s → J s') →
  J (vars (run r signalAborted events)).
Proof.
  intros H0 HJ.
  apply (run_from_empty (λ s s', J s → J s')); try by eauto.
  - intros lv m u a s Hm. destruct HJ as (_ & _ & Hlog & _).
    by apply (Hlog ""%string), fromScheduler_not_retry.
  - intros ab s e x s' e'. apply (execStep_keeps _ HJ).
  - intros ab s u s' e'. apply (start_keeps _ HJ).
Qed.

Ltac keeps_cases :=
  unfold keeps; split; [done|]; split; [by eauto|]; split_and!.

(** *** The calls of [onError] *)

Ltac calls_goal :=
  rewrite ?omap_app; simpl; rewrite ?app_nil_r; try congruence.

(** X2.  [onError] is called for the entries of [failedTasks] and for
    nothing else: at every point of a run, the urls and errors of the calls
    made so far are the entries of [failedTasks], in their order, when the
    option is given; no call is made when it is not. *)
Theorem onError_called_for_each_failure signalAborted events :
  let s := vars (run r signalAborted events) in
  omap onErrorArgs (Closure.calls s)
  = if onError (options r) then Closure.failedTasks s else [].
Proof.
  apply (run_shared (λ s, omap onErrorArgs (Closure.calls s)
                          = if onError (options r) then Closure.failedTasks s else [])).
  - simpl. by destruct (onError (options r)).
  - keeps_cases; intros; destruct (onError (options r)); simpl in *; calls_goal.
Qed.


(** *** The calls of [onProgress] *)

Lemma progressOk_keep total n m l : n ≤ m → progressOk total n l → progressOk total m l.
Proof.
  intros Hnm [HF HS]. split; [|done].
  eapply Forall_impl; [exact HF|]. simpl. intros p. lia.
Qed.

Lemma StronglySorted_snoc {A} (R : A → A → Prop) l x :
  StronglySorted R l → Forall (λ y, R y x) l → StronglySorted R (l ++ [x]).
Proof.
  induction 1 as [|y l Hl IH Hy]; intros Hx; simpl.
  - repeat constructor.
  - apply Forall_cons in Hx as [Hyx Hx]. constructor; [by apply IH|].
    apply Forall_app. split; [done|]. by constructor.
Qed.

Lemma progressOk_snoc total n m l :
  n ≤ m → progressOk total n l → progressOk total m (l ++ [(m, total)]).
Proof.
  intros Hnm [HF HS]. split.
  - apply Forall_app. split; [|by repeat constructor].
    eapply Forall_impl; [exact HF|]. simpl. intros p. lia.
  - apply StronglySorted_snoc; [done|].
    eapply Forall_impl; [exact HF|]. simpl. intros p. lia.
Qed.

Ltac progress_goal :=
  match goal with
  | HJ : progressOk _ _ _ ∧ _ |- _ =>
      let HP := fresh "HP" in let Hoff := fresh "Hoff" in
      destruct HJ as [HP Hoff];
      rewrite ?omap_app; simpl; rewrite ?app_nil_r;
      split;
      [ first [ exact HP
              | eapply progressOk_snoc; [|exact HP]; lia
              | eapply progressOk_keep; [|exact HP]; lia ]
      | first [ exact Hoff | congruence | intros; bool_hyps; congruence ] ]
  end.

Lemma progress_keeps :
  keeps r (λ _ s s',
    let J s := progressOk (totalUrlsToProcess r) (Closure.completedCount s)
                 (omap onProgressArgs (Closure.calls s)) ∧
               (onProgress (options r) = false →
                omap onProgressArgs (Closure.calls s) = []) in
    J s → J s').
Proof.
  keeps_cases; intros; try destruct (onError (options r)); simpl in *; progress_goal.
Qed.


(** *** The items dispatched are items of the list *)

Lemma occ_take_le u k (l : list string) : occ u (take k l) ≤ occ u l.
Proof. rewrite <- (take_drop k l) at 2. rewrite occ_app. lia. Qed.

Lemma dispatched_within st u :
  dispatchInv r st → occ u (url <$> allExecs st) ≤ occ u (urlsToProcess r).
Proof.
  unfold dispatchInv, allExecs. destruct (main st) as [q ws|i es| |]; simpl.
  - intros (_ & _ & dropped & _ & Hocc & _). specialize (Hocc u). lia.
  - intros [Hret Hes]. rewrite fmap_app, Hret, Hes, take_take_drop. apply occ_take_le.
  - intros (rest & Hocc & _). rewrite app_nil_r. specialize (Hocc u). lia.
  - intros [-> _]. simpl. rewrite occ_nil. lia.
Qed.

Lemma dispatched_length st :
  dispatchInv r st → length (allExecs st) ≤ totalUrlsToProcess r.
Proof.
  unfold dispatchInv, allExecs, totalUrlsToProcess.
  destruct (main st) as [q ws|i es| |]; simpl.
  - intros (_ & _ & dropped & _ & Hocc & _).
    assert ((url <$> retired st ++ runningExecs ws) ++ dropped ++ q ≡ₚ urlsToProcess r)
      as Hperm.
    { apply occ_Permutation. intros u. rewrite !occ_app. specialize (Hocc u). lia. }
    apply Permutation_length in Hperm. rewrite !length_app, length_fmap, length_app in Hperm.
    rewrite length_app. lia.
  - intros [Hret Hes]. rewrite length_app.
    rewrite <- (length_fmap url (retired st)), <- (length_fmap url es), Hret, Hes.
    rewrite !length_take, length_drop. lia.
  - intros (rest & Hocc & _).
    assert ((url <$> retired st) ++ rest ≡ₚ urlsToProcess r) as Hperm.
    { apply occ_Permutation. intros u. rewrite !occ_app. apply Hocc. }
    apply Permutation_length in Hperm. rewrite !length_app, length_fmap in Hperm.
    rewrite length_app. simpl. lia.
  - intros [-> _]. simpl. lia.
Qed.

Lemma counted_le_one (e : Exec T) : counted e ≤ 1.
Proof. unfold counted. destruct (pc e); lia. Qed.

Lemma countedFailed_le_counted (e : Exec T) : countedFailed e ≤ counted e.
Proof. unfold countedFailed, counted. destruct (pc e), (failedNotAborted e); lia. Qed.

Lemma sum_list_with_length {A} (f : A → nat) (l : list A) :
  (∀ x, f x ≤ 1) → sum_list_with f l ≤ length l.
Proof. intros Hf. induction l as [|a l IH]; simpl; [done|]. specialize (Hf a). lia. Qed.

Lemma sum_list_with_mono {A} (f g : A → nat) (l : list A) :
  (∀ x, f x ≤ g x) → sum_list_with f l ≤ sum_list_with g l.
Proof. intros Hf. induction l as [|a l IH]; simpl; [done|]. specialize (Hf a). lia. Qed.

Lemma completed_within signalAborted events :
  let st := run r signalAborted events in
  length (Closure.failedTasks (vars st)) ≤ Closure.completedCount (vars st) ∧
  Closure.completedCount (vars st) ≤ totalUrlsToProcess r.
Proof.
  intros st. subst st.
  rewrite (run_failed r signalAborted events), (run_counted r signalAborted events).
  split; [apply sum_list_with_mono, countedFailed_le_counted|].
  etrans; [apply sum_list_with_length, counted_le_one|].
  apply dispatched_length, run_dispatchInv.
Qed.

(** X3.  The arguments of the calls of [onProgress]: at every point of a
    run, [completedCount] is at most the number of items; every call made so
    far got a [completed] that is at most its [total], which is the number of
    items; [completed] never goes down from a call to the next; and no call
    is made when the option is not given. *)
Theorem onProgress_arguments signalAborted events :
  let st := run r signalAborted events in
  let l := omap onProgressArgs (Closure.calls (vars st)) in
  Closure.completedCount (vars st) ≤ totalUrlsToProcess r ∧
  Forall (λ p, p.1 ≤ p.2 ∧ p.2 = totalUrlsToProcess r) l ∧
  StronglySorted (λ p q, p.1 ≤ q.1) l ∧
  (if onProgress (options r) then True else l = []).
Proof.
  intros st l. subst st l.
  destruct (completed_within signalAborted events) as [_ Hle]. simpl in Hle.
  split; [done|].
  assert (progressOk (totalUrlsToProcess r)
            (Closure.completedCount (vars (run r signalAborted events)))
            (omap onProgressArgs (Closure.calls (vars (run r signalAborted events)))) ∧
          (onProgress (options r) = false →
           omap onProgressArgs (Closure.calls (vars (run r signalAborted events))) = []))
    as [[HF HS] Hoff].
  { apply (run_shared (λ s, progressOk (totalUrlsToProcess r) (Closure.completedCount s)
                              (omap onProgressArgs (Closure.calls s)) ∧
                            (onProgress (options r) = false →
                             omap onProgressArgs (Closure.calls s) = []))).
    - split; [split; constructor|done].
    - apply progress_keeps. }
  split; [|split; [done|]].
  - eapply Forall_impl; [exact HF|]. simpl. intros p [H1 H2]. split; [lia|done].
  - destruct (onProgress (options r)); [done|by apply Hoff].
Qed.

(** X4.  The counters stay within their bounds: at every point of a run
    the entries of [failedTasks] are at most [completedCount], which is at
    most the number of items; so the [totalSuccess] of a result is never
    negative, and [totalSuccess + totalFailed] is at most
    [totalUrlsAttempted], whatever was cancelled or dropped. *)
Theorem counters_within_bounds signalAborted events :
  let st := run r signalAborted events in
  length (Closure.failedTasks (vars st)) ≤ Closure.completedCount (vars st) ∧
  Closure.completedCount (vars st) ≤ totalUrlsToProcess r ∧
  ∀ res, result r st = Some res →
    (0 ≤ totalSuccess (stats res))%Z ∧
    (totalSuccess (stats res) + Z.of_nat (totalFailed (stats res))
     ≤ Z.of_nat (totalUrlsAttempted (stats res)))%Z.
Proof.
  intros st. destruct (completed_within signalAborted events) as [Hf Hc].
  fold st in Hf, Hc. split; [done|]. split; [done|].
  intros res [(_ & -> & _)|(_ & -> & _)]%result_Some; simpl; lia.
Qed.


(** *** The entries of [failedTasks] *)

Lemma occ_replicate u v k : occ u (replicate k v) = if string_dec v u then k else 0.
Proof.
  induction k as [|k IH]; simpl; [by destruct (string_dec v u)|].
  rewrite occ_cons, IH. by destruct (string_dec v u).
Qed.

Lemma failedTasks_keeps :
  keeps r (λ u s s', ∃ k,
    (Closure.failedTasks s').*1 = (Closure.failedTasks s).*1 ++ replicate k u).
Proof.
  unfold keeps. split; [intros u s; exists 0; simpl; by rewrite app_nil_r|].
  split.
  { intros u s1 s2 s3 [k1 H1] [k2 H2]. exists (k1 + k2).
    by rewrite H2, H1, replicate_add, (assoc_L (++)). }
  split_and!; intros; try destruct (onError (options r)); simpl;
    first [ by exists 0; simpl; rewrite app_nil_r
          | by exists 1; simpl; rewrite fmap_app ].
Qed.

Lemma execStep_failedFor u ab s e x s' e' :
  execStep r ab s e x = Some (s', e') →
  occ u (fst <$> Closure.failedTasks s') + failedFor u e
  = occ u (fst <$> Closure.failedTasks s) + failedFor u e'.
Proof.
  intros H. destruct (execStep_keeps _ failedTasks_keeps _ _ _ _ _ _ H) as [k Hk].
  pose proof (execStep_failed r _ _ _ _ _ _ H) as Hlen.
  pose proof (execStep_url r _ _ _ _ _ _ H) as Hu.
  pose proof (f_equal length Hk) as Hl.
  rewrite length_app, !length_fmap, length_replicate in Hl.
  rewrite Hk, occ_app, occ_replicate. unfold failedFor. rewrite Hu.
  destruct (string_dec (url e) u); lia.
Qed.

Lemma start_failedFor u ab s v s' e' :
  executeTaskWithRetries r ab s v = (s', e') →
  occ u (fst <$> Closure.failedTasks s')
  = occ u (fst <$> Closure.failedTasks s) + failedFor u e'.
Proof.
  intros H. destruct (start_keeps _ failedTasks_keeps _ _ _ _ _ H) as [k Hk].
  pose proof (start_failed r _ _ _ _ _ H) as Hlen.
  pose proof (start_url r _ _ _ _ _ H) as Hu.
  pose proof (f_equal length Hk) as Hl.
  rewrite length_app, !length_fmap, length_replicate in Hl.
  rewrite Hk, occ_app, occ_replicate. unfold failedFor. rewrite Hu.
  destruct (string_dec v u); lia.
Qed.

Lemma run_failedFor u signalAborted events :
  let st := run r signalAborted events in
  occ u (fst <$> Closure.failedTasks (vars st)) = sum_list_with (failedFor u) (allExecs st).
Proof.
  apply (run_balanced r (failedFor u) (λ s, occ u (fst <$> Closure.failedTasks s))); try done.
  - intros e. unfold rejectDelay, failedFor, countedFailed.
    by destruct e as [? ? ? ? ? ? [] ? ?].
  - apply execStep_failedFor.
  - apply start_failedFor.
Qed.

Lemma failedFor_le_hits u (e : Exec T) : failedFor u e ≤ hits u e.
Proof.
  rewrite hits_eq. unfold failedFor, countedFailed.
  destruct (string_dec (url e) u); [|lia].
  destruct (pc e), (failedNotAborted e); lia.
Qed.

Lemma NoDup_occ (l : list string) : NoDup l ↔ ∀ u, occ u l ≤ 1.
Proof.
  unfold occ. rewrite NoDup_ListNoDup. apply (NoDup_count_occ string_dec).
Qed.

(** X5.  The entries of [failedTasks]: at every point of a run, a url has
    no more entries than it has occurrences in the list of items, so that an
    item fails once at most and nothing fails that was not given; no entry
    carries the error of line 163, whose message is ['Operation aborted'].
    When the items are distinct, so are the urls of the entries. *)
Theorem failed_tasks_are_items signalAborted events :
  let failed := Closure.failedTasks (vars (run r signalAborted events)) in
  (∀ u, occ u (fst <$> failed) ≤ occ u (urlsToProcess r)) ∧
  Forall (λ p, message p.2 ≠ "Operation aborted"%string) failed ∧
  (NoDup (urlsToProcess r) → NoDup (fst <$> failed)).
Proof.
  intros failed.
  assert (∀ u, occ u (fst <$> failed) ≤ occ u (urlsToProcess r)) as Hocc.
  { intros u. subst failed. rewrite (run_failedFor u signalAborted events).
    etrans; [apply sum_list_with_mono, failedFor_le_hits|].
    rewrite <- occ_urls. apply dispatched_within, run_dispatchInv. }
  split; [done|]. split.
  - apply (run_shared (λ s, Forall (λ p, message p.2 ≠ "Operation aborted"%string)
                              (Closure.failedTasks s))).
    + constructor.
    + keeps_cases; intros; try destruct (onError (options r)); simpl; try done;
        rewrite Forall_app, Forall_singleton; (split; [done|]);
        simpl; by apply String.eqb_neq.
  - rewrite !NoDup_occ. intros Hnd u. specialize (Hocc u). specialize (Hnd u). lia.
Qed.


(** *** After the abort *)

Lemma attemptLoop_aborted_invocations s e :
  invocations (attemptLoop r true s e).2 = invocations e.
Proof. by destruct (attemptLoop_ends true s e) as [(_ & ? & _)|[? _]]. Qed.

Lemma execStep_aborted_invocations s e x s' e' :
  execStep r true s e x = Some (s', e') → invocations e' = invocations e.
Proof.
  unfold execStep. intros H. destruct (pc e), x as [out| | |threw|threw]; simplify_eq.
  - destruct (taskSettled_ends true s e out)
      as [(_ & Hi & _)|(thrown & _ & _ & [[delay Hd]|[s1 Hl]])]; rewrite H in *; simpl in *.
    + done.
    + by subst e'.
    + subst e'. by rewrite attemptLoop_aborted_invocations.
  - rewrite <- (attemptLoop_aborted_invocations s e). by rewrite H.
  - destruct (delayRejected_completes s e) as (_ & Hi & _). by rewrite H in Hi.
  - destruct (onErrorSettled_completes threw s e) as (_ & Hi & _). by rewrite H in Hi.
  - destruct (onProgressSettled_completes threw s e) as (_ & Hi & _). by rewrite H in Hi.
Qed.

Lemma workerLoop_aborted s q workerId s' q' w :
  workerLoop r true s q workerId = (s', q', w) → w = Finished.
Proof. unfold workerLoop. destruct q; by intros [= <- <- <-]. Qed.

Lemma step_aborted st ev : aborted st = true → aborted (step r st ev) = true.
Proof.
  revert st ev.
  apply (step_cases r (λ st st', aborted st = true → aborted st' = true)); try done.
  intros st i es _ _ Hab. by rewrite portionsLoop_aborted.
Qed.

Lemma step_aborted_invocations st ev :
  aborted st = true →
  sum_list_with invocations (allExecs (step r st ev))
  = sum_list_with invocations (allExecs st).
Proof.
  revert st ev.
  apply (step_cases r (λ st st', aborted st = true →
           sum_list_with invocations (allExecs st')
           = sum_list_with invocations (allExecs st))); try done; try congruence.
  - intros st q ws k e x s e' Hmain Hk Hx Hab. rewrite Hab in Hx.
    apply execStep_aborted_invocations in Hx.
    pose proof (sum_list_with_insert (ofWorker invocations) ws k (Running e) (Running e') Hk)
      as Hins.
    unfold allExecs. rewrite Hmain. simpl in *.
    rewrite !sum_list_with_app, !sum_runningExecs. lia.
  - intros st i es k e x s e' Hmain Hk Hx Hab. rewrite Hab in Hx.
    apply execStep_aborted_invocations in Hx.
    pose proof (sum_list_with_insert invocations es k e e' Hk) as Hins.
    unfold allExecs. rewrite Hmain. simpl. rewrite !sum_list_with_app. lia.
  - intros st q ws k e s q' w Hmain Hk He Hw Hab. rewrite Hab in Hw.
    apply workerLoop_aborted in Hw as ->.
    pose proof (sum_list_with_insert (ofWorker invocations) ws k (Running e) Finished Hk)
      as Hins.
    unfold allExecs. rewrite Hmain. simpl in *.
    rewrite !sum_list_with_app, !sum_runningExecs. simpl. lia.
  - intros st q ws Hmain Hall Hab. unfold allExecs at 2. rewrite Hmain. simpl.
    rewrite (forallb_isFinished_running ws Hall). unfold finish, allExecs. by destruct (aborted st).
  - intros st i es Hmain Hall Hab. unfold allExecs at 2. rewrite Hmain, Hab. simpl.
    unfold portionsLoop, finish, allExecs.
    destruct (_ <? _); simpl; by rewrite app_nil_r.
Qed.

(** X6.  Once the signal is aborted, the task function is not called any
    more: whatever events follow, the calls made for all the items together
    are those made before. *)
Theorem no_task_started_after_abort signalAborted events more :
  aborted (run r signalAborted events) = true →
  sum_list_with invocations (allExecs (run r signalAborted (events ++ more)))
  = sum_list_with invocations (allExecs (run r signalAborted events)).
Proof.
  unfold run. rewrite fold_left_app.
  generalize (fold_left (step r) events (processUrlsConcurrentlyInTabs r signalAborted)).
  induction more as [|ev more IH]; intros st Hab; simpl; [done|].
  rewrite IH by by apply step_aborted. by apply step_aborted_invocations.
Qed.

(** *** Errors that are not retryable *)

(** X7.  When [isRetryable] refuses every error, nothing is retried: at
    every point of a run the task function has been called once at most for
    every item, no coroutine sleeps before a retry, and [totalRetriesMade]
    is 0. *)
Theorem non_retryable_never_retried signalAborted events :
  (∀ err, isRetryable (options r) err = false) →
  let st := run r signalAborted events in
  Forall (λ e, invocations e ≤ 1 ∧ ∀ delay, pc e ≠ AwaitDelay delay) (allExecs st) ∧
  Closure.totalRetriesMade (vars st) = 0.
Proof.
  intros Hnr st.
  set (P := λ (_ : bool) (e : Exec T),
         retriesCounted e = 0 ∧
         match pc e with AwaitDelay _ | DelayRejected => False | _ => invocations e ≤ 1 end).
  assert (Forall (P (aborted st)) (allExecs st)) as HP.
  { apply (run_each r P).
    - done.
    - intros e. unfold P, rejectDelay. by destruct e as [? ? ? ? ? ? [] ? ?].
    - intros ab s e x s' e' [He1 He2] H.
      assert (completes e e' → P ab e') as Hends.
      { intros (_ & Hi & Hc & Hpc). split; [congruence|]. rewrite Hi.
        destruct (pc e); try done; by destruct Hpc as [->|[->| ->]]. }
      unfold execStep in H.
      destruct (pc e) eqn:Hpc, x as [out| | |threw|threw]; simplify_eq; try done;
        apply Hends.
      + destruct (taskSettled_ends ab s e out) as [Hc|(thrown & _ & Hr & _)];
          [by rewrite H in Hc|]. by rewrite Hnr in Hr.
      + pose proof (onErrorSettled_completes threw s e) as Hc. by rewrite H in Hc.
      + pose proof (onProgressSettled_completes threw s e) as Hc. by rewrite H in Hc.
    - intros ab s u s' e' H. unfold executeTaskWithRetries in H.
      destruct (attemptLoop_ends ab (log DEBUG MsgStartingTask (Some u) (Some 1) s) (newExec u))
        as [(_ & Hi & Hc & Hpc)|[_ He]]; rewrite H in *; simpl in *.
      + split; [done|]. rewrite Hi. destruct Hpc as [->|[->| ->]]; lia.
      + subst e'. split; [done|]. simpl. lia. }
  split.
  - eapply Forall_impl; [exact HP|]. intros e [_ He].
    split; destruct (pc e); done.
  - unfold st. rewrite (run_retries r signalAborted events).
    fold st. induction HP as [|e l [He _] _ IH]; simpl; [done|]. lia.
Qed.

End Shared_variables.

(** ** When the function returns *)

Section Returns.
Context {T : Type}.
Variable r : Run.
Implicit Types (s : Closure.t T) (e : Exec T) (ab : bool) (st : State T).
Implicit Types (events : list (Event T)).

Lemma steps_after_return st events :
  is_Some (result r st) → fold_left (step r) events st = st.
Proof.
  intros Hres. induction events as [|ev events IH]; simpl; [done|].
  rewrite step_after_return; [done|].
  unfold result in Hres. destruct (main st); try (by destruct Hres); by auto.
Qed.

(** X8.  What the caller gets is final: when the function returns, every
    coroutine it started has returned and no task is in flight, so that
    nothing is left that could still write to the lists of the result; no
    event changes the state afterwards, and the result is the same after any
    events that follow. *)
Theorem result_is_final signalAborted events more res :
  let st := run r signalAborted events in
  result r st = Some res →
  Forall (λ e, pc e = Settled) (allExecs st) ∧
  inFlight st = 0 ∧
  run r signalAborted (events ++ more) = st ∧
  result r (run r signalAborted (events ++ more)) = Some res.
Proof.
  intros st Hres.
  assert (run r signalAborted (events ++ more) = st) as Heq.
  { unfold run. rewrite fold_left_app. apply steps_after_return.
    fold (run r signalAborted events). fold st. by rewrite Hres. }
  split; [|split; [|split; [done|by rewrite Heq]]].
  - rewrite (returned_allExecs r st res Hres). apply run_retiredSettled.
  - unfold inFlight.
    apply result_Some in Hres as [(-> & _)|(-> & _)]; done.
Qed.

(** X9.  The completion count, where it holds: with [maxConcurrency] 1 at
    least, no empty url in the threads mode and no cancellation, every item
    has been dispatched, once, when the function returns, and the stats add
    up: [totalUrlsAttempted = totalSuccess + totalFailed], with [totalFailed]
    the length of [failedTasks]. *)
Theorem counts_add_up events res :
  1 ≤ maxConcurrency r →
  (mode (options r) = threads → ""%string ∉ urlsToProcess r) →
  noAbort events = true →
  result r (run r false events) = Some res →
  url <$> retired (run r false events) ≡ₚ urlsToProcess r ∧
  Z.of_nat (totalUrlsAttempted (stats res))
  = (totalSuccess (stats res) + Z.of_nat (totalFailed (stats res)))%Z ∧
  totalFailed (stats res) = length (failedTasks res).
Proof.
  intros Hmc Hempty Hno Hres. split; [|split].
  - by apply (all_dispatched r events res).
  - by apply (completion_count r events res).
  - apply result_Some in Hres as [(_ & -> & _ & ->)|(Hmain & _)]; [done|].
    by destruct (started_main r events).
Qed.

(** *** How long a run can be *)

Lemma launchWorkers_weight ab n workerId s q s' q' ws :
  launchWorkers r ab n workerId s q = (s', q', ws) →
  sum_list_with (ofWorker (λ e, S (execWeight r e))) ws + length q' * itemWeight r
  ≤ length q * itemWeight r.
Proof.
  revert workerId s q s' q' ws.
  induction n as [|n IH]; intros workerId s q s' q' ws; simpl.
  - intros [= <- <- <-]. simpl. lia.
  - destruct (startWorker r ab s q workerId) as [[s1 q1] w] eqn:Hw.
    destruct (launchWorkers r ab n (S workerId) s1 q1) as [[s2 q2] ws2] eqn:Hrest.
    intros [= <- <- <-]. apply IH in Hrest.
    unfold startWorker in Hw. apply workerLoop_weight in Hw as [Hw _].
    change (sum_list_with (ofWorker (λ e, S (execWeight r e))) (w :: ws2))
      with (ofWorker (λ e, S (execWeight r e)) w
            + sum_list_with (ofWorker (λ e, S (execWeight r e))) ws2).
    etrans; [|exact Hw]. rewrite <- Nat.add_assoc. by apply Nat.add_le_mono_l.
Qed.

Lemma init_weight signalAborted :
  1 ≤ maxConcurrency r →
  weight r (processUrlsConcurrentlyInTabs (T:=T) r signalAborted)
  ≤ totalUrlsToProcess r * itemWeight r + 1.
Proof.
  intros Hmc. unfold processUrlsConcurrentlyInTabs.
  destruct signalAborted; [apply Nat.le_0_l|].
  destruct (mode (options r)).
  - match goal with
    | |- weight r (portionsLoop r false ?s 0 []) ≤ _ =>
        pose proof (portionsLoop_weight r false s 0 [] (totalUrlsToProcess r) Hmc) as H
    end.
    lia.
  - destruct (launchWorkers _ _ _ _ _ _) as [[s1 q1] ws] eqn:Hlaunch.
    apply launchWorkers_weight in Hlaunch.
    unfold weight, totalUrlsToProcess. simpl. lia.
Qed.

(** X10.  Every run comes to its end when [maxConcurrency] is 1 at least:
    from any point the function returns after finitely many events, and,
    the abort apart, a run has no more events that change the state than
    [3 * maxRetries + 7] for every item and one. *)
Theorem every_run_returns signalAborted events :
  1 ≤ maxConcurrency r →
  (∃ more, is_Some (result r (run r signalAborted (events ++ more)))) ∧
  effectiveEvents r (processUrlsConcurrentlyInTabs r signalAborted) events
  ≤ totalUrlsToProcess r * (3 * maxRetries (options r) + 7) + 1.
Proof.
  intros Hmc. split; [by apply run_returns|].
  etrans; [by apply run_bounded|]. by apply init_weight.
Qed.

(** *** No concurrency at all *)

Lemma noAbort_cons (ev : Event T) events :
  noAbort (ev :: events) = true ↔ isAbort ev = false ∧ noAbort events = true.
Proof. unfold noAbort. simpl. rewrite andb_true_iff, negb_true_iff. done. Qed.

(** X11.  In the portions mode with [maxConcurrency = 0] and a list that is
    not empty, the function never returns unless the signal is aborted: the
    loop of line 266 does not advance ([i += 0]), every chunk is empty, no
    item is ever dispatched, and the main function can always be resumed for
    one more round. *)
Theorem portions_without_concurrency_never_returns events :
  mode (options r) = portions → maxConcurrency r = 0 → urlsToProcess r ≠ [] →
  noAbort events = true →
  let st := run r false events in
  result r st = None ∧ allExecs st = [] ∧ enabled st MainResumes = true.
Proof.
  intros Hmode Hmc Hurls Hno st.
  assert ((0 <? totalUrlsToProcess r) = true) as Htotal.
  { apply Nat.ltb_lt. unfold totalUrlsToProcess. destruct (urlsToProcess r); [done|simpl; lia]. }
  assert (main st = MPortions 0 [] ∧ aborted st = false ∧ retired st = [])
    as (Hmain & _ & Hret).
  { subst st. unfold run.
    assert (main (processUrlsConcurrentlyInTabs (T:=T) r false) = MPortions 0 [] ∧
            aborted (processUrlsConcurrentlyInTabs (T:=T) r false) = false ∧
            retired (processUrlsConcurrentlyInTabs (T:=T) r false) = []) as Hinit.
    { unfold processUrlsConcurrentlyInTabs, portionsLoop.
      rewrite Hmode, Htotal, Hmc. by simpl. }
    revert Hinit Hno. generalize (processUrlsConcurrentlyInTabs (T:=T) r false).
    induction events as [|ev events IH]; intros st0 Hst0 Hno; [done|].
    apply noAbort_cons in Hno as [Hev Hno]. simpl. apply IH; [|done].
    destruct Hst0 as (Hmain & Hab & Hret). unfold step. rewrite Hmain.
    destruct ev as [|k x|k|]; try done. simpl.
    unfold portionsLoop. rewrite Hmc, Hab, Hret. simpl. rewrite Htotal. by simpl. }
  unfold result, allExecs, enabled. rewrite Hmain, Hret. by simpl.
Qed.

(** X12.  In the threads mode with [maxConcurrency = 0] no worker is
    launched: no item is ever dispatched, the function returns as soon as it
    is resumed, and its result has no success and no failure while
    [totalUrlsAttempted] is the number of items. *)
Theorem threads_without_concurrency_processes_nothing events :
  mode (options r) = threads → maxConcurrency r = 0 →
  let st := run r false events in
  allExecs st = [] ∧
  is_Some (result r (run r false (events ++ [MainResumes]))) ∧
  ∀ res, result r st = Some res →
    successfulResults res = [] ∧ failedTasks res = [] ∧
    stats res = mkRunStats (initialUrlCount r) (totalUrlsToProcess r) 0 0 0.
Proof.
  intros Hmode Hmc st.
  set (I := λ st : State T,
         (main st = MThreads (urlsToProcess r) [] ∨ main st = MReturned) ∧
         retired st = [] ∧ Closure.successfulResults (vars st) = [] ∧
         Closure.failedTasks (vars st) = [] ∧ Closure.completedCount (vars st) = 0 ∧
         Closure.totalRetriesMade (vars st) = 0).
  assert (∀ st ev, I st → I (step r st ev)) as Hstep.
  { intros st0 ev HI. pose proof HI as (Hmain & Hret & Hs & Hf & Hc & Ht).
    destruct Hmain as [Hmain|Hmain]; [|by rewrite step_after_return by auto].
    unfold step. rewrite Hmain.
    destruct ev as [|k x|k|]; simpl; try done.
    - destruct (aborted st0); [done|]. unfold I; simpl; by auto 10.
    - unfold finish, I. destruct (aborted st0); simpl; by auto 10. }
  assert (∀ events, I (run r false events)) as Hrun.
  { intros evs. apply run_invariant; [|done].
    unfold processUrlsConcurrentlyInTabs. rewrite Hmode, Hmc. simpl.
    destruct (blockResources (options r)); unfold I; simpl; by auto 10. }
  split; [|split].
  - destruct (Hrun events) as ([Hmain|Hmain] & Hret & _); fold st in Hmain, Hret;
      unfold allExecs; rewrite Hmain, Hret; done.
  - unfold run. rewrite fold_left_app. fold (run r false events). fold st.
    change (fold_left (step r) [MainResumes] st) with (step r st MainResumes).
    destruct (Hrun events) as ([Hmain|Hmain] & _); fold st in Hmain.
    + unfold step. rewrite Hmain. simpl. unfold result, finish. by destruct (aborted st).
    + rewrite step_after_return by auto. unfold result. by rewrite Hmain.
  - intros res Hres. destruct (Hrun events) as (_ & _ & Hs & Hf & Hc & Ht).
    fold st in Hs, Hf, Hc, Ht.
    apply result_Some in Hres as [(_ & -> & -> & ->)|(Hmain & _)];
      [|by destruct (started_main r events)].
    unfold finalStats. by rewrite Hs, Hf, Hc, Ht.
Qed.
End Returns.

(** ** The list without duplicates *)

Section Unique_order.
Implicit Types (u : string) (seen urls : list string).

Lemma uniqueFrom_sublist seen urls : uniqueFrom seen urls `sublist_of` urls.
Proof.
  revert seen. induction urls as [|v urls IH]; intros seen; simpl; [done|].
  destruct (existsb (String.eqb v) seen); [by apply sublist_cons|by apply sublist_skip].
Qed.

Lemma uniqueFrom_prefix seen urls more :
  uniqueFrom seen urls `prefix_of` uniqueFrom seen (urls ++ more).
Proof.
  revert seen. induction urls as [|v urls IH]; intros seen; simpl; [apply prefix_nil|].
  destruct (existsb (String.eqb v) seen); [done|]. by apply prefix_cons.
Qed.

(** X13.  [[...new Set(urls)]] keeps the first occurrence of every url, in
    the order of the list: the result is a sublist of the list, it is not
    changed by what comes later in the list, it is the list itself exactly
    when the list has no duplicate, and removing the duplicates twice is
    removing them once. *)
Theorem unique_urls_keep_first_occurrences urls :
  uniqueUrls urls `sublist_of` urls ∧
  (∀ more, uniqueUrls urls `prefix_of` uniqueUrls (urls ++ more)) ∧
  (uniqueUrls urls = urls ↔ NoDup urls) ∧
  uniqueUrls (uniqueUrls urls) = uniqueUrls urls.
Proof.
  split; [apply uniqueFrom_sublist|]. split; [intros more; apply uniqueFrom_prefix|].
  split; [|apply uniqueUrls_idempotent].
  split.
  - intros <-. apply uniqueUrls_NoDup.
  - intros Hnd. apply uniqueFrom_id; [done|]. by intros u _ ?%elem_of_nil.
Qed.
End Unique_order.

(** * Further properties of the basic version *)

Section Basic_more.
Context {T : Type}.
Variable r : Run.
Implicit Types (s : Closure.t T) (e : Exec T) (st : State T).
Implicit Types (events : list (Event T)).

(** The basic version does not read [isRetryable]. *)
Lemma Basic_run_retryAll signalAborted events :
  Basic.run (retryAll r) signalAborted events = Basic.run r signalAborted events.
Proof. reflexivity. Qed.

Lemma retryAll_retryable events : Forall (retryableEvent (retryAll r)) events.
Proof.
  apply Forall_forall. intros ev _. by destruct ev as [|k [[items|thrown]| | | |]| |].
Qed.

Lemma Basic_run_agree signalAborted events :
  obs (run (retryAll r) signalAborted events) = obs (Basic.run r signalAborted events).
Proof.
  rewrite <- Basic_run_retryAll. apply run_agree, retryAll_retryable.
Qed.

(** X14.  The basic version is the enhanced version with an [isRetryable]
    that takes every error: run on the same arguments with the same events,
    whatever the task function throws, the two are at the same point after
    every event (same coroutines at the same [await], same queue, same
    results and failures so far), and they return together, with the same
    [successfulResults] and the same [failedTasks]. *)
Theorem basic_retries_every_error signalAborted events :
  let st := run (retryAll r) signalAborted events in
  let bst := Basic.run r signalAborted events in
  obs st = obs bst ∧
  match result (retryAll r) st, Basic.result bst with
  | Some res, Some bres =>
      successfulResults res = basicSuccessfulResults bres ∧
      failedTasks res = basicFailedTasks bres
  | None, None => True
  | _, _ => False
  end.
Proof.
  intros st bst. pose proof (Basic_run_agree signalAborted events) as Hobs.
  fold st bst in Hobs. split; [done|].
  destruct (alike_vars _ _ Hobs) as (Hsucc & Hfail & _).
  pose proof (f_equal main Hobs) as Hm. change (obsM (main st) = obsM (main bst)) in Hm.
  unfold result, Basic.result.
  destruct (main st), (main bst); simpl in *; try done.
Qed.

Lemma runningExecs_obs (ws : list (Worker T)) :
  runningExecs (obsW <$> ws) = obsE <$> runningExecs ws.
Proof. induction ws as [|[e|] ws IH]; simpl; [done| |done]. f_equal. exact IH. Qed.

Lemma activeExecs_obs (m : Main T) : activeExecs (obsM m) = obsE <$> activeExecs m.
Proof. destruct m; simpl; try done. apply runningExecs_obs. Qed.

Lemma allExecs_obs st : allExecs (obs st) = obsE <$> allExecs st.
Proof. unfold allExecs. simpl. by rewrite activeExecs_obs, fmap_app. Qed.

Lemma inFlight_obs st : inFlight (obs st) = inFlight st.
Proof.
  unfold inFlight. simpl. rewrite activeExecs_obs.
  induction (activeExecs (main st)) as [|e l IH]; [done|].
  rewrite fmap_cons, !filter_cons.
  change (awaitsTask (obsE e)) with (awaitsTask e).
  destruct (decide (awaitsTask e = true)); simpl; by rewrite IH.
Qed.

(** X15.  The basic version, too, keeps at most [maxConcurrency] calls of
    the task function in flight, in both modes and at every point of every
    run. *)
Theorem basic_in_flight_bounded signalAborted events :
  inFlight (Basic.run r signalAborted events) ≤ maxConcurrency r.
Proof.
  rewrite <- inFlight_obs, <- Basic_run_agree, inFlight_obs.
  pose proof (inFlight_le_active (run (retryAll r) signalAborted events)) as Hle.
  assert (bounded (retryAll r) (run (retryAll r) signalAborted events)) as Hb.
  { apply poolBounded_bounded, run_invariant.
    - apply init_poolBounded.
    - intros st ev. apply step_poolBounded. }
  unfold bounded in Hb. simpl in Hb. lia.
Qed.

(** X16.  The basic version calls the task function [maxRetries + 1] times
    at most for every item, at every point of every run. *)
Theorem basic_retry_bound signalAborted events :
  Forall (λ e, invocations e ≤ maxRetries (options r) + 1)
    (allExecs (Basic.run r signalAborted events)).
Proof.
  pose proof (run_execInv (retryAll r) signalAborted events) as Hinv. simpl in Hinv.
  assert (Forall (λ e, invocations e ≤ maxRetries (options r) + 1)
            (allExecs (obs (run (retryAll r) signalAborted events)))) as H.
  { rewrite allExecs_obs, Forall_fmap.
    eapply Forall_impl; [exact Hinv|]. by intros e [He _]. }
  rewrite Basic_run_agree, allExecs_obs, Forall_fmap in H. exact H.
Qed.

(** X17.  The basic version returns: with [maxConcurrency] 1 at least, every
    run of it can be carried on to the return of the function. *)
Theorem basic_run_returns signalAborted events :
  1 ≤ maxConcurrency r →
  ∃ more, is_Some (Basic.result (Basic.run r signalAborted (events ++ more))).
Proof.
  intros Hmc.
  destruct (run_returns (retryAll r) signalAborted events Hmc) as [more Hmore].
  exists more.
  pose proof (Basic_run_agree signalAborted (events ++ more)) as Hobs.
  pose proof (f_equal main Hobs) as Hm.
  change (obsM (main (run (retryAll r) signalAborted (events ++ more)))
          = obsM (main (Basic.run r signalAborted (events ++ more)))) in Hm.
  unfold result in Hmore. unfold Basic.result.
  destruct (main (run (retryAll r) signalAborted (events ++ more))),
           (main (Basic.run r signalAborted (events ++ more)));
    simpl in *; try done; by destruct Hmore.
Qed.
End Basic_more.

(** ** The log and the counters *)

Section Log.
Context {T : Type}.
Variable r : Run.
Implicit Types (s : Closure.t T) (e : Exec T) (ab : bool) (st : State T).
Implicit Types (events : list (Event T)).

Ltac log_goal :=
  unfold countEntries, log, pushLog in *; simpl in *; rewrite ?sum_list_with_app; simpl; lia.

(** X18.  The log tells the retries: at every point of a run,
    [totalRetriesMade] is the number of the entries of the log that report a
    retryable error (line 179), and the entries that announce a delay
    (line 182) are no more than that. *)
Theorem log_records_retries signalAborted events :
  let s := vars (run r signalAborted events) in
  countEntries isRetryEntry (Closure.logHistory s) = Closure.totalRetriesMade s ∧
  countEntries isDelayEntry (Closure.logHistory s) ≤ Closure.totalRetriesMade s.
Proof.
  apply (run_shared r (λ s,
    countEntries isRetryEntry (Closure.logHistory s) = Closure.totalRetriesMade s ∧
    countEntries isDelayEntry (Closure.logHistory s) ≤ Closure.totalRetriesMade s)).
  - split; [done|]. unfold countEntries. simpl. lia.
  - unfold keeps. split; [done|]. split; [by eauto|]. split; [|split_and!].
    + intros u lv m lu a s Hm [H1 H2]. destruct m; try done; log_goal.
    + intros u n m lu a s [H1 H2]. log_goal.
    + intros u n m d lu a s [H1 H2]. log_goal.
    + done.
    + intros u err n s _ HJ. by destruct (onError (options r)).
    + done.
    + done.
    + done.
Qed.

(** X19.  The test of line 212 looks at the message only: a task whose
    error has the message ['Operation aborted'], and is not retried, is
    handled as a cancelled item.  It is counted in [completedCount], nothing
    is added to [failedTasks], no callback is called, and the coroutine
    returns; so [completedCount] less the length of [failedTasks], which is
    what [totalSuccess] reports, goes up by one. *)
Theorem task_error_named_abort_not_recorded ab s e (err : Error) :
  message err = "Operation aborted"%string →
  isRetryable (options r) err = false →
  let s' := (taskSettled r ab s e (Rejected (ThrowError err))).1 in
  let e' := (taskSettled r ab s e (Rejected (ThrowError err))).2 in
  Closure.failedTasks s' = Closure.failedTasks s ∧
  Closure.successfulResults s' = Closure.successfulResults s ∧
  Closure.completedCount s' = S (Closure.completedCount s) ∧
  Closure.calls s' = Closure.calls s ∧
  pc e' = Settled ∧
  (Z.of_nat (Closure.completedCount s') - Z.of_nat (length (Closure.failedTasks s'))
   = Z.of_nat (Closure.completedCount s) - Z.of_nat (length (Closure.failedTasks s)) + 1)%Z.
Proof.
  intros Hmsg Hnr s' e'. subst s' e'. destruct e, s, err as [n m]. simpl in Hmsg. subst m.
  unfold taskSettled, toError. simpl. rewrite Hnr. simpl.
  unfold recordCompletion, reportProgress, notAborted, isAbortMessage. simpl.
  rewrite andb_false_r. simpl. repeat split; lia.
Qed.
End Log.

(** * The product scraper *)

Section Product_scraper.
Import ProductActions.
Context {D : Type}.
Implicit Types (p q : ProductData D).
Implicit Types (m : list (string * ProductData D)).
Implicit Types (ps : list (ProductData D)).

(** *** The map of the products *)

Lemma mapHas_elem {V} k (m : list (string * V)) :
  mapHas k m = true ↔ k ∈ m.*1.
Proof.
  unfold mapHas. induction m as [|[k' v'] m IH]; simpl.
  - split; [done|]. by intros ?%elem_of_nil.
  - rewrite orb_true_iff, IH, elem_of_cons, String.eqb_eq. split; intros [?|?]; by auto.
Qed.

Lemma mapHas_not_elem {V} k (m : list (string * V)) :
  mapHas k m = false ↔ k ∉ m.*1.
Proof. rewrite <- mapHas_elem. by destruct (mapHas k m). Qed.

Lemma mapSet_absent {V} k (v : V) (m : list (string * V)) :
  k ∉ m.*1 → mapSet k v m = m ++ [(k, v)].
Proof.
  induction m as [|[k' v'] m IH]; simpl; [done|].
  intros Hk. apply not_elem_of_cons in Hk as [Hne Hk].
  destruct (String.eqb_spec k' k) as [->|_]; [done|]. f_equal. by apply IH.
Qed.

Lemma mapSet_keys {V} k (v : V) (m : list (string * V)) :
  k ∈ m.*1 → (mapSet k v m).*1 = m.*1.
Proof.
  induction m as [|[k' v'] m IH]; simpl; [by intros ?%elem_of_nil|].
  destruct (String.eqb_spec k' k) as [->|Hne]; [done|].
  intros [?|Hk]%elem_of_cons; [congruence|]. simpl. f_equal. by apply IH.
Qed.

Lemma mapSet_elem {V} k (v : V) (m : list (string * V)) kv :
  NoDup m.*1 →
  kv ∈ mapSet k v m ↔ kv = (k, v) ∨ (kv.1 ≠ k ∧ kv ∈ m).
Proof.
  induction m as [|[k' v'] m IH]; simpl; intros Hnd.
  - rewrite list_elem_of_singleton. split; [by auto|]. intros [?|[_ ?%elem_of_nil]]; done.
  - apply NoDup_cons in Hnd as [Hk' Hnd].
    destruct (String.eqb_spec k' k) as [->|Hne].
    + rewrite !elem_of_cons. split.
      * intros [->|Hin]; [by auto|]. right. split; [|by auto].
        intros <-. apply Hk'. apply list_elem_of_fmap. by exists kv.
      * intros [->|[Hne [->|Hin]]]; by auto.
    + rewrite !elem_of_cons, (IH Hnd). split.
      * intros [->|[->|[? ?]]]; by auto.
      * intros [->|[? [->|?]]]; by auto.
Qed.

Lemma addProduct_mapInv ps m p :
  mapInv ps m → mapInv (ps ++ [p]) (addProduct m p).
Proof.
  unfold mapInv. intros (Hnd & Hall & Hkeys).
  assert (Forall (λ kv, kv.1 = productKey kv.2 ∧ kv.2 ∈ ps ++ [p]) m) as Hall'.
  { eapply Forall_impl; [exact Hall|]. intros kv [? ?]. split; [done|].
    apply elem_of_app. by left. }
  assert (∀ k, k = productKey p →
            mapInv (ps ++ [p]) (mapSet k p m)) as Hset.
  { intros k Hk. destruct (decide (k ∈ m.*1)) as [Hin|Hout].
    - split; [by rewrite mapSet_keys|]. split.
      + apply Forall_forall. intros kv Hkv. apply mapSet_elem in Hkv; [|done].
        destruct Hkv as [->|[Hne Hkv]]; [|by apply (proj1 (Forall_forall _ _) Hall')].
        simpl. split; [done|]. apply elem_of_app. right. by apply list_elem_of_singleton.
      + intros q Hq. rewrite mapSet_keys by done.
        apply elem_of_app in Hq as [Hq|Hq]; [by apply Hkeys|].
        apply list_elem_of_singleton in Hq as ->. by rewrite <- Hk.
    - rewrite mapSet_absent by done. split; [|split].
      + rewrite fmap_app. simpl. apply NoDup_app. split; [done|].
        split; [|apply NoDup_singleton].
        intros k' Hk' Heq. apply list_elem_of_singleton in Heq as ->. done.
      + apply Forall_app. split; [done|]. apply Forall_singleton. simpl.
        split; [done|]. apply elem_of_app. right. by apply list_elem_of_singleton.
      + intros q Hq. rewrite fmap_app, elem_of_app.
        apply elem_of_app in Hq as [Hq|Hq]; [left; by apply Hkeys|].
        apply list_elem_of_singleton in Hq as ->. right. simpl. rewrite <- Hk.
        by apply list_elem_of_singleton. }
  unfold addProduct.
  destruct (hasArticleNumber p) eqn:Han; simpl.
  - destruct (mapHas (articleNumber p) m) eqn:Hhas; simpl.
    + split; [done|]. split; [done|].
      intros q Hq. apply elem_of_app in Hq as [Hq|Hq]; [by apply Hkeys|].
      apply list_elem_of_singleton in Hq as ->.
      unfold productKey. rewrite Han. by apply mapHas_elem.
    + apply Hset. unfold productKey. by rewrite Han.
  - apply Hset. unfold productKey. by rewrite Han.
Qed.

Lemma fold_addProduct_mapInv ps' ps m :
  mapInv ps m → mapInv (ps ++ ps') (fold_left addProduct ps' m).
Proof.
  revert ps m. induction ps' as [|p ps' IH]; intros ps m Hinv; simpl.
  - by rewrite app_nil_r.
  - rewrite cons_middle, (assoc_L (++)). apply IH. by apply addProduct_mapInv.
Qed.



Lemma mapSet_NoDup {V} k (v : V) (m : list (string * V)) :
  NoDup m.*1 → NoDup (mapSet k v m).*1.
Proof.
  intros Hnd. destruct (decide (k ∈ m.*1)) as [Hin|Hout].
  - by rewrite mapSet_keys.
  - rewrite mapSet_absent, fmap_app by done. simpl.
    apply NoDup_app. split; [done|]. split; [|apply NoDup_singleton].
    intros k' Hk' Heq. apply list_elem_of_singleton in Heq as ->. done.
Qed.






(** *** Which product is kept *)

Lemma head_app_Some {A} (l1 l2 : list A) x : head l1 = Some x → head (l1 ++ l2) = Some x.
Proof. by destruct l1. Qed.

Lemma filter_snoc_False {A} (P : A → Prop) `{!∀ x, Decision (P x)} (l : list A) x :
  ¬ P x → filter P (l ++ [x]) = filter P l.
Proof. intros Hx. rewrite filter_app, filter_cons_False by done. apply app_nil_r. Qed.

Lemma filter_snoc_True {A} (P : A → Prop) `{!∀ x, Decision (P x)} (l : list A) x :
  P x → filter P (l ++ [x]) = filter P l ++ [x].
Proof. intros Hx. by rewrite filter_app, filter_cons_True by done. Qed.

Lemma filter_none {A} (P : A → Prop) `{!∀ x, Decision (P x)} (l : list A) :
  (∀ x, x ∈ l → ¬ P x) → filter P l = [].
Proof.
  induction l as [|a l IH]; intros Hl; [done|].
  rewrite filter_cons_False by (apply Hl; by left).
  apply IH. intros x Hx. apply Hl. by right.
Qed.

Lemma kept_other ps k v p :
  kept ps k v → k = productKey v → (hasArticleNumber p = false → url p ≠ k) →
  kept (ps ++ [p]) k v.
Proof.
  unfold kept. intros Hkept Hk Hp. destruct (hasArticleNumber v).
  - rewrite filter_app. by apply head_app_Some.
  - rewrite filter_snoc_False; [done|]. intros [Han Hurl]. by apply Hp.
Qed.

Lemma addProduct_kept ps m p :
  mapInv ps m → Forall (λ kv, kept ps kv.1 kv.2) m →
  Forall (λ kv, kept (ps ++ [p]) kv.1 kv.2) (addProduct m p).
Proof.
  intros (Hnd & Hall & Hkeys) Hkept.
  assert (∀ kv, kv ∈ m → (hasArticleNumber p = false → url p ≠ kv.1) →
            kept (ps ++ [p]) kv.1 kv.2) as Hold.
  { intros kv Hkv Hp. apply kept_other; [|by apply (proj1 (Forall_forall _ _) Hall kv Hkv)|done].
    by apply (proj1 (Forall_forall _ _) Hkept kv Hkv). }
  unfold addProduct. destruct (hasArticleNumber p) eqn:Han; simpl.
  - destruct (mapHas (articleNumber p) m) eqn:Hhas; simpl.
    + apply Forall_forall. intros kv Hkv. apply Hold; [done|congruence].
    + apply mapHas_not_elem in Hhas. rewrite mapSet_absent by done.
      apply Forall_app. split.
      * apply Forall_forall. intros kv Hkv. apply Hold; [done|congruence].
      * apply Forall_singleton. unfold kept. simpl. rewrite Han.
        rewrite filter_app, filter_none.
        { simpl. rewrite filter_cons_True; [done|]. unfold productKey. by rewrite Han. }
        intros q Hq Hkey. apply Hhas. rewrite <- Hkey. by apply Hkeys.
  - apply Forall_forall. intros kv Hkv. apply mapSet_elem in Hkv; [|done].
    destruct Hkv as [->|[Hne Hkv]].
    + unfold kept. simpl. rewrite Han. rewrite filter_snoc_True by done. apply last_snoc.
    + apply Hold; [done|]. by intros _ Heq.
Qed.

Lemma fold_addProduct_kept ps' ps m :
  mapInv ps m → Forall (λ kv, kept ps kv.1 kv.2) m →
  Forall (λ kv, kept (ps ++ ps') kv.1 kv.2) (fold_left addProduct ps' m).
Proof.
  revert ps m. induction ps' as [|p ps' IH]; intros ps m Hinv Hkept; simpl.
  - by rewrite app_nil_r.
  - rewrite cons_middle, (assoc_L (++)).
    apply IH; [by apply addProduct_mapInv|by apply addProduct_kept].
Qed.

(** X21.  Which of the products with one key is returned: for a product
    with an article number, the first of the products scraped that have its
    key (line 457 tests [has] before [set]); for a product without an
    article number, the last of the products without an article number that
    have its url (line 461 calls [set] without the test, and the later
    product replaces the earlier one where it is). *)
Theorem product_kept_for_a_key ps p :
  p ∈ mapValues (uniqueProductsMap ps) →
  if hasArticleNumber p
  then head (filter (λ q, productKey q = productKey p) ps) = Some p
  else last (filter (λ q, hasArticleNumber q = false ∧ url q = url p) ps) = Some p.
Proof.
  intros (kv & -> & Hkv)%list_elem_of_fmap.
  assert (mapInv ps (uniqueProductsMap ps)) as (_ & Hall & _).
  { apply (fold_addProduct_mapInv ps [] []). split; [constructor|]. split; [constructor|].
    by intros p ?%elem_of_nil. }
  assert (Forall (λ kv, kept ps kv.1 kv.2) (uniqueProductsMap ps)) as Hkept.
  { apply (fold_addProduct_kept ps [] []); [|constructor].
    split; [constructor|]. split; [constructor|]. by intros p ?%elem_of_nil. }
  pose proof (proj1 (Forall_forall _ _) Hkept kv Hkv) as Hk.
  destruct (proj1 (Forall_forall _ _) Hall kv Hkv) as [Hkey _].
  unfold kept in Hk. rewrite Hkey in Hk.
  destruct (hasArticleNumber kv.2) eqn:Han; [done|].
  unfold productKey in Hk. by rewrite Han in Hk.
Qed.

(** *** The order of the products *)

Section Sort.
Context {A : Type}.
Variable key : A → Z.
Implicit Types (x : A) (l : list A).

Lemma insertSorted_Permutation x l :
  insertSorted (λ a b, key a - key b)%Z x l ≡ₚ x :: l.
Proof.
  induction l as [|y l IH]; simpl; [done|].
  destruct (key x - key y <=? 0)%Z; [done|]. rewrite IH. apply Permutation_swap.
Qed.

Lemma sort_Permutation (l : list A) : sort (λ a b, key a - key b)%Z l ≡ₚ l.
Proof.
  induction l as [|x l IH]; simpl; [done|].
  rewrite insertSorted_Permutation. by rewrite IH.
Qed.

Lemma insertSorted_sorted x (l : list A) :
  StronglySorted (λ a b, key a ≤ key b)%Z l →
  StronglySorted (λ a b, key a ≤ key b)%Z (insertSorted (λ a b, key a - key b)%Z x l).
Proof.
  induction 1 as [|y l Hl IH Hy]; simpl; [repeat constructor|].
  destruct (Z.leb_spec (key x - key y) 0) as [Hle|Hgt].
  - constructor; [by constructor|]. constructor; [lia|].
    eapply Forall_impl; [exact Hy|]. simpl. intros z. lia.
  - constructor; [done|].
    rewrite (insertSorted_Permutation x l). constructor; [lia|done].
Qed.

Lemma sort_sorted l :
  StronglySorted (λ a b, key a ≤ key b)%Z (sort (λ a b, key a - key b)%Z l).
Proof.
  induction l as [|x l IH]; simpl; [constructor|]. by apply insertSorted_sorted.
Qed.

Lemma insertSorted_stable k x (l : list A) :
  filter (λ a, key a = k) (insertSorted (λ a b, key a - key b)%Z x l)
  = filter (λ a, key a = k) (x :: l).
Proof.
  induction l as [|y l IH]; simpl; [done|].
  destruct (Z.leb_spec (key x - key y) 0) as [Hle|Hgt]; [done|].
  rewrite (filter_cons _ y), IH, !filter_cons.
  destruct (decide (key y = k)), (decide (key x = k)); try done. lia.
Qed.

Lemma sort_stable k (l : list A) :
  filter (λ a, key a = k) (sort (λ a b, key a - key b)%Z l) = filter (λ a, key a = k) l.
Proof.
  induction l as [|x l IH]; simpl; [done|].
  rewrite insertSorted_stable, !filter_cons. by rewrite IH.
Qed.
End Sort.

(** X22.  The products are returned in the order of the links: they are
    the products kept, each once, sorted by the position of their url in the
    list of distinct links (a url that is not a link comes first, at -1), and
    products at the same position keep their order. *)
Theorem products_in_link_order (uniqueLinks : list string) ps :
  let position p := indexOf uniqueLinks (url p) in
  let out := finalDeduplicatedProducts uniqueLinks ps in
  out ≡ₚ mapValues (uniqueProductsMap ps) ∧
  (uniqueLinks ≠ [] → StronglySorted (λ a b, position a ≤ position b)%Z out) ∧
  ∀ k, filter (λ p, position p = k) out
       = filter (λ p, position p = k) (mapValues (uniqueProductsMap ps)).
Proof.
  intros position out. subst out. unfold finalDeduplicatedProducts.
  destruct uniqueLinks as [|u rest]; [done|].
  split; [apply (sort_Permutation position)|].
  split; [intros _; apply (sort_sorted position)|].
  intros k. apply (sort_stable position).
Qed.

(** *** The call of the scheduler *)

Lemma maxThreads_positive (threads : Z) : 1 ≤ Z.to_nat (maxThreads threads).
Proof.
  unfold maxThreads, recommendedThreads.
  destruct (Z.ltb_spec 0 threads); lia.
Qed.

(** X23.  The run of the scheduler that [scrapeProductLinks] starts: it has
    at most [maxThreads] tasks in flight, which is the [threads] asked for
    when that is positive and 7 otherwise; it calls [scrapeSingleProduct] three times at
    most for a link; it returns; and, as no signal is passed, its stats add
    up when no link is the empty string, [totalUrlsProvided] and
    [totalUrlsAttempted] being both the number of the distinct links (the
    scheduler is given the list without its duplicates), where the default
    result of line 383 reports the number of the links. *)
Theorem scrapeProductLinks_run links (nThreads : Z) (isRetryable : Error → bool)
    (events : list (Event (ProductData D))) :
  let r := schedulerRun links nThreads isRetryable in
  let st := run r false events in
  inFlight st ≤ Z.to_nat (maxThreads nThreads) ∧
  Forall (λ e, invocations e ≤ 3) (allExecs st) ∧
  (∃ more, is_Some (result r (run r false (events ++ more)))) ∧
  totalUrlsProvided (runStats (createDefaultResult (D:=D) links)) = length links ∧
  (""%string ∉ links → noAbort events = true →
   ∀ res, result r st = Some res →
     let stats := runStats (scrapeProductLinks links (Some res)) in
     totalUrlsProvided stats = length (uniqueUrls links) ∧
     totalUrlsAttempted stats = length (uniqueUrls links) ∧
     Z.of_nat (totalUrlsAttempted stats)
     = (totalSuccess stats + Z.of_nat (totalFailed stats))%Z).
Proof.
  intros r st.
  assert (1 ≤ maxConcurrency r) as Hmc by apply maxThreads_positive.
  assert (urlsToProcess r = uniqueUrls links) as Hurls.
  { subst r. unfold schedulerRun, prepare. simpl. apply uniqueUrls_idempotent. }
  split; [|split; [|split; [|split; [done|]]]].
  - pose proof (inFlight_le_active st) as Hle.
    assert (bounded r st) as Hb.
    { apply poolBounded_bounded, run_invariant.
      - apply init_poolBounded.
      - intros st0 ev. apply step_poolBounded. }
    unfold bounded in Hb. change (maxConcurrency r) with (Z.to_nat (maxThreads nThreads)) in Hb.
    lia.
  - pose proof (run_execInv r false events) as Hinv. simpl in Hinv. fold st in Hinv.
    eapply Forall_impl; [exact Hinv|]. intros e [He _]. exact He.
  - by apply run_returns.
  - intros Hempty Hno res Hres stats0. subst stats0. simpl.
    assert (mode (options r) = threads → ""%string ∉ urlsToProcess r) as Hempty'.
    { intros _. rewrite Hurls. by rewrite uniqueUrls_elem. }
    pose proof (completion_count r events res Hmc Hempty' Hno Hres) as Hcount.
    apply result_Some in Hres as [(_ & Hstats & _)|(Hmain & _)];
      [|by destruct (started_main r events)].
    rewrite Hstats in Hcount |- *. split; [done|]. split; [|exact Hcount].
    unfold finalStats, totalUrlsToProcess. cbn [totalUrlsAttempted]. by rewrite Hurls.
Qed.
End Product_scraper.

(** * The catalog scraper *)

Section Catalog_scraper.
Import CatalogActions.
Implicit Types (catalogUrls : list string) (results : list MaxPageResult).


Lemma pageUrl_nonempty u n : u ≠ ""%string → pageUrl u n ≠ ""%string.
Proof.
  unfold pageUrl. destruct (n =? 1)%Z; [done|]. by destruct u.
Qed.

Lemma pages_nonempty catalogUrls results :
  ""%string ∉ catalogUrls → ""%string ∉ allPageUrlsToScrape catalogUrls results.
Proof.
  intros Hempty (u & Hpage & Hu)%list_elem_of_bind.
  apply list_elem_of_fmap in Hpage as (n & Hn & _).
  symmetry in Hn. revert Hn. apply pageUrl_nonempty. by intros ->.
Qed.


(** *** The stats of the two runs *)

(** X25.  The stats [getCatalogPagesLinks] returns add up: when
    [pageConcurrency] is 1 at least and no catalog url is the empty string,
    the two runs of the scheduler, which get no signal, both count every item
    as a success or as a failure, and so do the combined stats:
    [totalUrlsAttempted = totalSuccess + totalFailed], over the catalogs and
    the pages together; [totalUrlsProvided] is the number of the catalog urls
    given. *)
Theorem catalog_stats_add_up catalogUrls (pageConcurrency : nat)
    (resourcesToBlock : list string)
    (events1 : list (Event MaxPageResult)) (events2 : list (Event ProductPageData))
    (res1 : ProcessUrlsResult MaxPageResult) (res2 : ProcessUrlsResult ProductPageData) :
  1 ≤ pageConcurrency → ""%string ∉ catalogUrls →
  noAbort events1 = true → noAbort events2 = true →
  let r1 := maxPageRun catalogUrls pageConcurrency resourcesToBlock in
  result r1 (run r1 false events1) = Some res1 →
  let r2 := scrapeRun (allPageUrlsToScrape catalogUrls (successfulResults res1))
              pageConcurrency resourcesToBlock in
  result r2 (run r2 false events2) = Some res2 →
  let stats := runStats (getCatalogPagesLinks catalogUrls res1 res2) in
  Z.of_nat (totalUrlsAttempted stats)
  = (totalSuccess stats + Z.of_nat (totalFailed stats))%Z ∧
  totalUrlsProvided stats = length catalogUrls.
Proof.
  intros Hmc Hempty Hno1 Hno2 r1 Hres1 r2 Hres2 stats0. subst stats0.
  assert (mode (options r1) = threads → ""%string ∉ urlsToProcess r1) as Hempty1.
  { intros _. change (urlsToProcess r1) with (uniqueUrls catalogUrls).
    by rewrite uniqueUrls_elem. }
  assert (mode (options r2) = threads → ""%string ∉ urlsToProcess r2) as Hempty2.
  { intros _.
    change (urlsToProcess r2)
      with (uniqueUrls (allPageUrlsToScrape catalogUrls (successfulResults res1))).
    rewrite uniqueUrls_elem. by apply pages_nonempty. }
  pose proof (completion_count r1 events1 res1 Hmc Hempty1 Hno1 Hres1) as Hcount1.
  pose proof (completion_count r2 events2 res2 Hmc Hempty2 Hno2 Hres2) as Hcount2.
  assert (totalUrlsProvided (stats res1) = length catalogUrls) as Hprovided.
  { apply result_Some in Hres1 as [(_ & -> & _)|(Hmain & _)]; [done|].
    by destruct (started_main r1 events1). }
  unfold getCatalogPagesLinks.
  destruct (allPageUrlsToScrape catalogUrls (successfulResults res1)); simpl.
  - done.
  - split; [lia|done].
Qed.

(** *** The links and their details *)

Lemma addDetails_inv items m item :
  detailsInv items m → detailsInv (items ++ [item]) (addDetails m item).
Proof.
  intros [Hkeys Hfirst].
  assert (∀ l pd, m !! l = Some pd →
            ∃ i, head (filter (λ i, clearLink i = l) (items ++ [item])) = Some i ∧
                 pd = (price i, discountPrice i)) as Hfirst'.
  { intros l pd Hl. destruct (Hfirst l pd Hl) as (i & Hi & Hpd). exists i. split; [|done].
    rewrite filter_app. by apply head_app_Some. }
  assert (∀ l, is_Some (m !! l) →
            (∃ i, i ∈ items ++ [item] ∧ clearLink i = l) ∧ inherited l = false) as Hkeys'.
  { intros l [(i & Hi & Hl) Hinh]%Hkeys. split; [|done]. exists i. split; [|done].
    apply elem_of_app. by left. }
  unfold addDetails. destruct (m !! clearLink item) as [pd0|] eqn:Hm; cbv zeta.
  - split; [|done]. intros l. split; [by apply Hkeys'|].
    intros [(i & [Hi|Hi]%elem_of_app & Hl) Hinh].
    + apply Hkeys. split; [|done]. by exists i.
    + apply list_elem_of_singleton in Hi as ->. subst l. by rewrite Hm.
  - destruct (inherited (clearLink item)) eqn:Hinh.
    + split; [|done]. intros l. split; [by apply Hkeys'|].
      intros [(i & [Hi|Hi]%elem_of_app & Hl) Hinh'].
      * apply Hkeys. split; [|done]. by exists i.
      * apply list_elem_of_singleton in Hi as ->. subst l. congruence.
    + split.
      * intros l. rewrite lookup_insert_is_Some. split.
        -- intros [<-|[_ Hl]]; [|by apply Hkeys'].
           split; [|done]. exists item. split; [|done].
           apply elem_of_app. right. by apply list_elem_of_singleton.
        -- intros [(i & [Hi|Hi]%elem_of_app & Hl) Hinh'].
           ++ destruct (decide (clearLink item = l)) as [|Hne]; [by left|]. right.
              split; [done|]. apply Hkeys. split; [|done]. by exists i.
           ++ apply list_elem_of_singleton in Hi as ->. by left.
      * intros l pd. destruct (decide (clearLink item = l)) as [<-|Hne].
        -- rewrite lookup_insert_eq. intros [= <-]. exists item. split; [|done].
           rewrite filter_app, filter_none.
           ++ simpl. by rewrite filter_cons_True.
           ++ intros i Hi Heq.
              assert (is_Some (m !! clearLink item)) as [? Hsome]; [|congruence].
              apply Hkeys. split; [|done]. by exists i.
        -- rewrite lookup_insert_ne by done. apply Hfirst'.
Qed.

Lemma fold_addDetails_inv items' items m :
  detailsInv items m → detailsInv (items ++ items') (fold_left addDetails items' m).
Proof.
  revert items m. induction items' as [|item items' IH]; intros items m Hm; simpl.
  - by rewrite app_nil_r.
  - rewrite cons_middle, (assoc_L (++)). by apply IH, addDetails_inv.
Qed.

(** X26.  The links and the details returned: the links are the links of
    the items scraped, cleared of ["#Opinie"], each once, in the order of
    their first occurrence; the object of the details has an entry for a
    link exactly when the link is one of these and names no property of
    [Object.prototype] (the test of line 558 reads such a name as present);
    and the entry of a link holds the prices of the first item with that
    link (line 558 does not overwrite). *)
Theorem links_and_details (items : list ProductPageData) :
  allProductLinksSet items = uniqueUrls (clearLink <$> items) ∧
  NoDup (allProductLinksSet items) ∧
  (∀ l, is_Some (allProductDetails items !! l)
        ↔ l ∈ allProductLinksSet items ∧ inherited l = false) ∧
  ∀ l pd, allProductDetails items !! l = Some pd →
    ∃ item, head (filter (λ i, clearLink i = l) items) = Some item ∧
            pd = (price item, discountPrice item).
Proof.
  split; [done|]. split; [apply uniqueUrls_NoDup|].
  assert (detailsInv items (allProductDetails items)) as [Hkeys Hfirst].
  { apply (fold_addDetails_inv items [] ∅). split.
    - intros l. rewrite lookup_empty. split; [by intros [? ?]|].
      by intros [(i & ?%elem_of_nil & _) _].
    - intros l pd. by rewrite lookup_empty. }
  split; [|done]. intros l. rewrite Hkeys. unfold allProductLinksSet.
  rewrite uniqueUrls_elem, list_elem_of_fmap. split.
  - intros [(i & Hi & <-) Hinh]. split; [|done]. by exists i.
  - intros [(i & -> & Hi) Hinh]. split; [|done]. by exists i.
Qed.

End Catalog_scraper.

(** * The log for the terminal *)

Section Terminal_log.
Import Terminal.







(** *** The lines of the output *)

Lemma lineFeeds_append (s1 s2 : string) :
  lineFeeds (s1 +:+ s2) = lineFeeds s1 + lineFeeds s2.
Proof. induction s1 as [|c s1 IH]; simpl; [done|]. rewrite IH. lia. Qed.

Lemma lineFeeds_replicate n (c : ascii) :
  Ascii.eqb c "010" = false → lineFeeds (string_of_list_ascii (replicate n c)) = 0.
Proof. intros Hc. induction n as [|n IH]; simpl; [done|]. by rewrite Hc, IH. Qed.

Lemma pretty_N_char_not_lf (x : N) : Ascii.eqb (pretty_N_char x) "010" = false.
Proof.
  destruct x as [|p]; [done|].
  do 4 (try (destruct p as [p|p|]; try done)).
Qed.

Lemma lineFeeds_pretty_N_go (x : N) (s : string) :
  lineFeeds (pretty_N_go x s) = lineFeeds s.
Proof.
  revert s. induction (N.lt_wf_0 x) as [x _ IH]. intros s.
  destruct (decide (0 < x)%N) as [Hx|Hx].
  - rewrite pretty_N_go_step by done. rewrite IH by (apply N.div_lt; lia).
    simpl. by rewrite pretty_N_char_not_lf.
  - assert (x = 0%N) as -> by lia. by rewrite pretty_N_go_0.
Qed.

Lemma lineFeeds_pretty_N (x : N) : lineFeeds (pretty x) = 0.
Proof.
  unfold pretty, pretty_N. destruct (decide (x = 0%N)); [done|].
  by rewrite lineFeeds_pretty_N_go.
Qed.

Lemma lineFeeds_pretty_nat (n : nat) : lineFeeds (pretty n) = 0.
Proof. apply lineFeeds_pretty_N. Qed.

Lemma lineFeeds_pretty_Z (z : Z) : lineFeeds (pretty z) = 0.
Proof.
  destruct z as [|p|p]; [done|apply (lineFeeds_pretty_N (Npos p))|].
  change (pretty (Z.neg p)) with ("-" +:+ pretty (Npos p)).
  rewrite lineFeeds_append, lineFeeds_pretty_N. done.
Qed.

Lemma lineFeeds_formatTime (date : Date) : lineFeeds (formatTime date) = 0.
Proof.
  unfold formatTime, pad, padStart.
  rewrite !lineFeeds_append, !lineFeeds_replicate, !lineFeeds_pretty_nat by done. done.
Qed.

Lemma lineFeeds_formatEntry (entry : LogEntry) :
  lineFeeds (message entry) = 0 →
  (∀ u, url entry = Some u → lineFeeds u = 0) →
  lineFeeds (formatEntry entry) = 1.
Proof.
  intros Hmsg Hurl. unfold formatEntry, padEnd.
  rewrite !lineFeeds_append, lineFeeds_formatTime, Hmsg, lineFeeds_replicate by done.
  assert (lineFeeds (levelColor (level entry)) = 0) as -> by by destruct (level entry).
  assert (lineFeeds (levelName (level entry)) = 0) as -> by by destruct (level entry).
  assert (lineFeeds match url entry with
                    | Some u => if String.eqb u "" then ""
                                else " " +:+ dim +:+ "(" +:+ u +:+ ")" +:+ reset
                    | None => ""
                    end = 0) as ->.
  { destruct (url entry) as [u|]; [|done]. destruct (String.eqb u ""); [done|].
    rewrite !lineFeeds_append, (Hurl u eq_refl). done. }
  assert (lineFeeds match attempt entry with
                    | Some a => " " +:+ dim +:+ "[Attempt: " +:+ pretty a +:+ "]" +:+ reset
                    | None => ""
                    end = 0) as ->.
  { destruct (attempt entry) as [a|]; [|done].
    rewrite !lineFeeds_append, lineFeeds_pretty_nat. done. }
  done.
Qed.

(** X28.  One line for every entry: when no message and no url of the log
    has a line feed in it, nor the dates and the duration as they are
    printed, the output has a line for every entry of the log and twelve
    more, for the two titles, the blank line, the eight statistics and the
    rule that ends it. *)
Theorem one_line_per_entry (logHistory : list LogEntry) (stats : TimedRunStats) :
  Forall (λ entry, lineFeeds (message entry) = 0 ∧
                   ∀ u, url entry = Some u → lineFeeds u = 0) logHistory →
  lineFeeds (toLocaleString (startTime stats)) = 0 →
  lineFeeds (toLocaleString (endTime stats)) = 0 →
  lineFeeds (durationSeconds stats) = 0 →
  lineFeeds (formatRunLogForTerminal logHistory stats) = length logHistory + 12.
Proof.
  intros Hlog Hstart Hend Hduration. unfold formatRunLogForTerminal.
  assert (lineFeeds (foldr (λ entry output, formatEntry entry +:+ output) "" logHistory)
          = length logHistory) as Hentries.
  { induction Hlog as [|entry l [Hmsg Hurl] _ IH]; [done|].
    cbn [foldr length]. by rewrite lineFeeds_append, lineFeeds_formatEntry, IH. }
  assert (lineFeeds (formatStats stats) = 11) as Hstats.
  { unfold formatStats.
    rewrite !lineFeeds_append, Hstart, Hend, Hduration, !lineFeeds_pretty_nat,
      lineFeeds_pretty_Z.
    done. }
  rewrite !lineFeeds_append, Hentries, Hstats. simpl. lia.
Qed.
End Terminal_log.

(** * The further theorems on concrete runs *)

(** The stats of the run [retryThenSuccess]. *)
Lemma counters_within_bounds_witness :
  let r := prepare ["https://a.example"%string] 1 oneRetry in
  match result r (run r false retryThenSuccess) with
  | Some res =>
      (0 ≤ totalSuccess (stats res))%Z ∧
      (totalSuccess (stats res) + Z.of_nat (totalFailed (stats res))
       ≤ Z.of_nat (totalUrlsAttempted (stats res)))%Z
  | None => False
  end.
Proof.
  intros r.
  destruct (result r (run r false retryThenSuccess)) as [res|] eqn:Hres;
    [|vm_compute in Hres; discriminate].
  exact (proj2 (proj2 (counters_within_bounds r false retryThenSuccess)) res Hres).
Defined.

(** The failure of the run [abortDuringDelay]. *)
Lemma failed_tasks_are_items_witness :
  let r := prepare ["https://a.example"%string] 1 oneRetry in
  NoDup (urlsToProcess r) ∧
  NoDup (fst <$> Closure.failedTasks (vars (run r false abortDuringDelay))).
Proof.
  intros r.
  assert (NoDup (urlsToProcess r)) as Hnd by apply uniqueUrls_NoDup.
  split; [exact Hnd|].
  exact (proj2 (proj2 (failed_tasks_are_items r false abortDuringDelay)) Hnd).
Defined.

(** The run [abortDuringTask], cut at the abort. *)
Lemma no_task_started_after_abort_witness :
  let r := prepare ["https://a.example"%string] 1 oneRetry in
  aborted (run (T:=string) r false [Abort]) = true ∧
  sum_list_with invocations (allExecs (run r false ([Abort] ++ afterAbort)))
  = sum_list_with invocations (allExecs (run (T:=string) r false [Abort])).
Proof.
  intros r.
  assert (aborted (run (T:=string) r false [Abort]) = true) as Hab by (vm_compute; reflexivity).
  split; [exact Hab|].
  exact (no_task_started_after_abort r false [Abort] afterAbort Hab).
Defined.

(** A timeout that is not retried. *)
Lemma non_retryable_never_retried_witness :
  let r := prepare ["https://a.example"%string] 1 neverRetry in
  (∀ err, isRetryable (options r) err = false) ∧
  Closure.totalRetriesMade (vars (run r false oneFailure)) = 0.
Proof.
  intros r.
  assert (∀ err, isRetryable (options r) err = false) as Hnr by reflexivity.
  split; [exact Hnr|].
  exact (proj2 (non_retryable_never_retried r false oneFailure Hnr)).
Defined.

(** Events after the return of the run [retryThenSuccess]. *)
Lemma result_is_final_witness :
  let r := prepare ["https://a.example"%string] 1 oneRetry in
  match result r (run r false retryThenSuccess) with
  | Some res => result r (run r false (retryThenSuccess ++ [Abort; MainResumes])) = Some res
  | None => False
  end.
Proof.
  intros r.
  destruct (result r (run r false retryThenSuccess)) as [res|] eqn:Hres;
    [|vm_compute in Hres; discriminate].
  exact (proj2 (proj2 (proj2
           (result_is_final r false retryThenSuccess [Abort; MainResumes] res Hres)))).
Defined.

(** The stats of the run [retryThenSuccess] add up. *)
Lemma counts_add_up_witness :
  let r := prepare ["https://a.example"%string] 1 oneRetry in
  1 ≤ maxConcurrency r ∧
  (""%string ∉ urlsToProcess r) ∧
  noAbort retryThenSuccess = true ∧
  match result r (run r false retryThenSuccess) with
  | Some res =>
      Z.of_nat (totalUrlsAttempted (stats res))
      = (totalSuccess (stats res) + Z.of_nat (totalFailed (stats res)))%Z
  | None => False
  end.
Proof.
  intros r.
  assert (1 ≤ maxConcurrency r) as Hmc by (simpl; lia).
  assert (""%string ∉ urlsToProcess r) as Hempty.
  { intros Hin. apply uniqueUrls_elem, elem_of_cons in Hin.
    destruct Hin as [Heq|Hin]; [discriminate|]. by apply elem_of_nil in Hin. }
  assert (noAbort retryThenSuccess = true) as Hno by reflexivity.
  split; [exact Hmc|]. split; [exact Hempty|]. split; [exact Hno|].
  destruct (result r (run r false retryThenSuccess)) as [res|] eqn:Hres;
    [|vm_compute in Hres; discriminate].
  exact (proj1 (proj2 (counts_add_up r retryThenSuccess res Hmc (λ _, Hempty) Hno Hres))).
Defined.

(** One url and one worker. *)
Lemma every_run_returns_witness :
  let r := prepare ["https://a.example"%string] 1 oneRetry in
  1 ≤ maxConcurrency r ∧
  ∃ more, is_Some (result r (run (T:=string) r false ([] ++ more))).
Proof.
  intros r.
  assert (1 ≤ maxConcurrency r) as Hmc by (simpl; lia).
  split; [exact Hmc|].
  exact (proj1 (every_run_returns r false [] Hmc)).
Defined.

(** The portions mode with [maxConcurrency = 0], resumed twice. *)
Lemma portions_without_concurrency_never_returns_witness :
  let r := prepare ["https://a.example"%string] 0 portionsOptions in
  mode (options r) = portions ∧ maxConcurrency r = 0 ∧ urlsToProcess r ≠ [] ∧
  result r (run (T:=string) r false [MainResumes; MainResumes]) = None.
Proof.
  intros r.
  assert (urlsToProcess r ≠ []) as Hurls by (simpl; discriminate).
  split; [reflexivity|]. split; [reflexivity|]. split; [exact Hurls|].
  exact (proj1 (portions_without_concurrency_never_returns r [MainResumes; MainResumes]
                  eq_refl eq_refl Hurls eq_refl)).
Defined.

(** The threads mode with [maxConcurrency = 0]. *)
Lemma threads_without_concurrency_processes_nothing_witness :
  let r := prepare ["https://a.example"%string] 0 defaultOptions in
  mode (options r) = threads ∧ maxConcurrency r = 0 ∧
  match result r (run (T:=string) r false [MainResumes]) with
  | Some res => stats res = mkRunStats 1 1 0 0 0
  | None => False
  end.
Proof.
  intros r. split; [reflexivity|]. split; [reflexivity|].
  destruct (result r (run (T:=string) r false [MainResumes])) as [res|] eqn:Hres;
    [|vm_compute in Hres; discriminate].
  exact (proj2 (proj2 (proj2 (proj2 (threads_without_concurrency_processes_nothing r
                  [MainResumes] eq_refl eq_refl)) res Hres))).
Defined.

(** The list [duplicateUrls], without its duplicate. *)
Lemma unique_urls_keep_first_occurrences_witness :
  NoDup (uniqueUrls duplicateUrls) ∧
  uniqueUrls (uniqueUrls duplicateUrls) = uniqueUrls duplicateUrls.
Proof.
  assert (NoDup (uniqueUrls duplicateUrls)) as Hnd by apply uniqueUrls_NoDup.
  split; [exact Hnd|].
  exact (proj2 (proj1 (proj2 (proj2
           (unique_urls_keep_first_occurrences (uniqueUrls duplicateUrls))))) Hnd).
Defined.

(** The basic version on one url with one worker. *)
Lemma basic_run_returns_witness :
  let r := prepare ["https://a.example"%string] 1 oneRetry in
  1 ≤ maxConcurrency r ∧
  ∃ more, is_Some (Basic.result (Basic.run (T:=string) r false ([] ++ more))).
Proof.
  intros r.
  assert (1 ≤ maxConcurrency r) as Hmc by (simpl; lia).
  split; [exact Hmc|].
  exact (basic_run_returns r false [] Hmc).
Defined.

(** A task that throws [new Error('Operation aborted')]. *)
Lemma task_error_named_abort_not_recorded_witness :
  let r := prepare ["https://a.example"%string] 1 defaultOptions in
  let e : Exec string := mkExec "https://a.example" 0 None None 0 0 AwaitTask 1 0 in
  let err := mkError "Error" "Operation aborted" in
  message err = "Operation aborted"%string ∧
  isRetryable (options r) err = false ∧
  Closure.failedTasks (taskSettled r false Closure.empty e (Rejected (ThrowError err))).1 = [] ∧
  Closure.completedCount (taskSettled r false Closure.empty e (Rejected (ThrowError err))).1
  = 1.
Proof.
  intros r e err. split; [reflexivity|]. split; [reflexivity|].
  pose proof (task_error_named_abort_not_recorded r false Closure.empty e err
                eq_refl eq_refl) as (Hf & _ & Hc & _).
  split; [exact Hf|exact Hc].
Defined.


(** Of the two products with the article number [A1], the first is kept. *)
Lemma product_kept_for_a_key_witness :
  firstProduct ∈ mapValues (ProductActions.uniqueProductsMap threeProducts) ∧
  head (filter (λ q, ProductActions.productKey q = ProductActions.productKey firstProduct)
          threeProducts) = Some firstProduct.
Proof.
  assert (firstProduct
          ∈ mapValues (ProductActions.uniqueProductsMap threeProducts)) as Hin.
  { change (firstProduct ∈ [noArticle; firstProduct]).
    apply list_elem_of_further, list_elem_of_here. }
  split; [exact Hin|].
  exact (product_kept_for_a_key threeProducts firstProduct Hin).
Defined.

(** The products kept, in the order of the links: the first link first. *)
Lemma products_in_link_order_witness :
  let position p := ProductActions.indexOf threeLinks (ProductActions.url p) in
  threeLinks ≠ [] ∧
  ProductActions.finalDeduplicatedProducts threeLinks threeProducts
  = [firstProduct; noArticle] ∧
  StronglySorted (λ a b, position a ≤ position b)%Z
    (ProductActions.finalDeduplicatedProducts threeLinks threeProducts).
Proof.
  intros position.
  assert (threeLinks ≠ []) as Hlinks by discriminate.
  split; [exact Hlinks|]. split; [reflexivity|].
  exact (proj1 (proj2 (products_in_link_order threeLinks threeProducts)) Hlinks).
Defined.

(** Three links, two of them equal, and no number of threads asked for. *)
Lemma scrapeProductLinks_run_witness :
  let r := ProductActions.schedulerRun duplicateUrls 0 defaultIsRetryable in
  (""%string ∉ duplicateUrls) ∧
  noAbort twoProducts = true ∧
  match result r (run r false twoProducts) with
  | Some res =>
      let stats := ProductActions.runStats
                     (ProductActions.scrapeProductLinks duplicateUrls (Some res)) in
      totalUrlsProvided stats = 2 ∧ totalUrlsAttempted stats = 2 ∧
      Z.of_nat (totalUrlsAttempted stats)
      = (totalSuccess stats + Z.of_nat (totalFailed stats))%Z
  | None => False
  end.
Proof.
  intros r.
  assert (""%string ∉ duplicateUrls) as Hempty.
  { intros Hin. repeat (apply elem_of_cons in Hin as [Heq|Hin]; [discriminate|]).
    by apply elem_of_nil in Hin. }
  assert (noAbort twoProducts = true) as Hno by reflexivity.
  split; [exact Hempty|]. split; [exact Hno|].
  destruct (result r (run r false twoProducts)) as [res|] eqn:Hres;
    [|vm_compute in Hres; discriminate].
  exact (proj2 (proj2 (proj2 (proj2
           (scrapeProductLinks_run duplicateUrls 0 defaultIsRetryable twoProducts))))
           Hempty Hno res Hres).
Defined.


(** One catalog of two pages: three items attempted in all. *)
Lemma catalog_stats_add_up_witness :
  let r1 := CatalogActions.maxPageRun oneCatalog 1 [] in
  match result r1 (run r1 false twoPages) with
  | Some res1 =>
      let r2 := CatalogActions.scrapeRun
                  (CatalogActions.allPageUrlsToScrape oneCatalog (successfulResults res1))
                  1 [] in
      match result r2 (run r2 false pagesScraped) with
      | Some res2 =>
          let stats := CatalogActions.runStats
                         (CatalogActions.getCatalogPagesLinks oneCatalog res1 res2) in
          Z.of_nat (totalUrlsAttempted stats)
          = (totalSuccess stats + Z.of_nat (totalFailed stats))%Z ∧
          totalUrlsProvided stats = 1
      | None => False
      end
  | None => False
  end.
Proof.
  intros r1.
  assert (""%string ∉ oneCatalog) as Hempty.
  { intros Hin. apply elem_of_cons in Hin as [Heq|Hin]; [discriminate|].
    by apply elem_of_nil in Hin. }
  destruct (result r1 (run r1 false twoPages)) as [res1|] eqn:Hres1;
    [|vm_compute in Hres1; discriminate].
  pose proof Hres1 as Hres1'. vm_compute in Hres1'. injection Hres1' as <-.
  intros r2.
  destruct (result r2 (run r2 false pagesScraped)) as [res2|] eqn:Hres2;
    [|vm_compute in Hres2; discriminate].
  exact (catalog_stats_add_up oneCatalog 1 [] twoPages pagesScraped _ res2
           (le_n 1) Hempty eq_refl eq_refl Hres1 Hres2).
Defined.

(** Links that are numbers, two of them equal once ["#Opinie"] is
    removed, and a link that names a property of [Object.prototype]: the
    links are returned in the order of the items, and the object has no entry
    for the name. *)
Lemma details_of_inherited_names :
  CatalogActions.allProductLinksSet fourItems = ["10"; "9"; "constructor"]%string ∧
  CatalogActions.allProductDetails fourItems !! "10"%string = Some ("1", "1")%string ∧
  CatalogActions.allProductDetails fourItems !! "9"%string = Some ("2", "2")%string ∧
  CatalogActions.allProductDetails fourItems !! "constructor"%string = None.
Proof. by vm_compute. Qed.

Lemma links_and_details_witness :
  CatalogActions.allProductDetails fourItems !! "9"%string = Some ("2", "2")%string ∧
  ∃ item, head (filter (λ i, CatalogActions.clearLink i = "9"%string) fourItems) = Some item ∧
          ("2", "2")%string = (CatalogActions.price item, CatalogActions.discountPrice item).
Proof.
  assert (CatalogActions.allProductDetails fourItems !! "9"%string = Some ("2", "2")%string)
    as Hl by (by vm_compute).
  split; [exact Hl|].
  exact (proj2 (proj2 (proj2 (links_and_details fourItems))) _ _ Hl).
Defined.


(** A log of two entries: fourteen lines. *)
Lemma one_line_per_entry_witness :
  Forall (λ entry, Terminal.lineFeeds (Terminal.message entry) = 0 ∧
                   ∀ u, Terminal.url entry = Some u → Terminal.lineFeeds u = 0) twoEntries ∧
  Terminal.lineFeeds (Terminal.formatRunLogForTerminal twoEntries oneFailed) = 14.
Proof.
  assert (Forall (λ entry, Terminal.lineFeeds (Terminal.message entry) = 0 ∧
                           ∀ u, Terminal.url entry = Some u → Terminal.lineFeeds u = 0)
            twoEntries) as Hlog.
  { repeat constructor; simpl; intros u [= <-]; reflexivity. }
  split; [exact Hlog|].
  exact (one_line_per_entry twoEntries oneFailed Hlog eq_refl eq_refl eq_refl).
Defined.
